(** * Gestalt: relationship storage, join planning and batched resolution

    A shallow embedding of the PostgreSQL backend of Gestalt:

    - [generateDatabaseInterface.js] (shipped as
      [packages/gestalt-postgres/src/index.js]): table compilation and the
      segment resolver that decides between a join table and a foreign key;
    - [src/postgreSQL/generateRelationshipResolver.js]: key columns, the
      join planner with its compaction pass, the SQL renderer, connection
      arguments and the relationship loaders;
    - [src/postgreSQL/db.js]: the statement executor.

    JavaScript objects with a fixed shape become records, tagged unions
    become inductive types, [invariant] failures become the [Failed] result,
    objects used as dictionaries become [gmap string _] or, where the
    insertion order is observable, association lists. *)

From Stdlib Require Import ZArith Bool Ascii String DecimalString Lia.
From stdpp Require Import base option list strings gmap.

Local Open Scope stdpp_scope.

(** ** Results of fallible code

    [invariant(cond, msg)] throws when [cond] is falsy.  A computation that
    may throw returns a [Result]. *)

Inductive Result (A : Type) : Type :=
| Ok (a : A)
| Failed (msg : string).
Arguments Ok {A} a.
Arguments Failed {A} msg.

#[global] Instance Result_bind : MBind Result := fun A B k r =>
  match r with
  | Ok a => k a
  | Failed msg => Failed msg
  end.

#[global] Instance Result_fmap : FMap Result := fun A B f r =>
  match r with
  | Ok a => Ok (f a)
  | Failed msg => Failed msg
  end.

(** Modelled from the spec: [invariant] of the util module, which is not
    among the sources; a violated invariant is a fatal error carrying the
    message. *)
Definition invariant (cond : bool) (msg : string) : Result unit :=
  if cond then Ok tt else Failed msg.

Definition isFailed {A : Type} (r : Result A) : bool :=
  match r with
  | Ok _ => false
  | Failed _ => true
  end.

Fixpoint mapM {A B : Type} (f : A -> Result B) (l : list A) : Result (list B) :=
  match l with
  | [] => Ok []
  | x :: l' => y ← f x; ys ← mapM f l'; Ok (y :: ys)
  end.

(** ** Naming helpers of third-party packages

    [snake] (snake-case), [camel] (change-case) and [plural] (pluralize) are
    imported from npm packages.  The development is parametric in them. *)

Class Casing : Type := {
  snake : string -> string;
  camel : string -> string;
  plural : string -> string;
}.

(** ** Insertion-ordered dictionaries

    A JavaScript [Map], and an object whose keys are enumerated with
    [Object.keys], keep their keys in insertion order; assigning to a key
    that is already present keeps its position. *)

Section OrderedDict.
Context {V : Type}.

Fixpoint dict_get (k : string) (m : list (string * V)) : option V :=
  match m with
  | [] => None
  | (k', v) :: m' => if String.eqb k k' then Some v else dict_get k m'
  end.

Fixpoint dict_set (k : string) (v : V) (m : list (string * V))
  : list (string * V) :=
  match m with
  | [] => [(k, v)]
  | (k', v') :: m' =>
      if String.eqb k k' then (k, v) :: m' else (k', v') :: dict_set k v m'
  end.
End OrderedDict.

(** ** Data model (types.js) *)

Inductive Direction : Type := DirIn | DirOut.
Inductive Cardinality : Type := Singular | Plural.

Definition Direction_eqb (a b : Direction) : bool :=
  match a, b with
  | DirIn, DirIn | DirOut, DirOut => true
  | _, _ => false
  end.

Definition directionString (d : Direction) : string :=
  match d with
  | DirIn => "in"
  | DirOut => "out"
  end.

Definition isPlural (c : Cardinality) : bool :=
  match c with
  | Plural => true
  | Singular => false
  end.

Record RelationshipSegment : Type := {
  fromType : string;
  toType : string;
  label : string;
  direction : Direction;
  cardinality : Cardinality;
  nonNull : bool;
}.

Record Relationship : Type := {
  fieldName : string;
  rel_cardinality : Cardinality;
  path : list RelationshipSegment;
}.

(** [{in?: RelationshipSegment, out?: RelationshipSegment}] *)
Record RelationshipSegmentPair : Type := {
  pair_in : option RelationshipSegment;
  pair_out : option RelationshipSegment;
}.

Record JoinTableDescription : Type := {
  jt_name : string;
  leftTableName : string;
  rightTableName : string;
  leftColumnName : string;
  rightColumnName : string;
}.

Record ForeignKeyDescription : Type := {
  fk_direction : Direction;
  fk_nonNull : bool;
  fk_table : string;
  referencedTable : string;
  fk_column : string;
}.

(** The [type] tag of a description is the constructor of its storage. *)
Inductive Storage : Type :=
| JoinStorage (s : JoinTableDescription)
| ForeignKeyStorage (s : ForeignKeyDescription).

Record RelationshipSegmentDescription : Type := {
  signature : string;
  pair : RelationshipSegmentPair;
  storage : Storage;
}.

(** ** Segment resolver (generateDatabaseInterface.js) *)

Section SegmentResolver.
Context {casing : Casing}.

Definition tableNameFromTypeName (typeName : string) : string :=
  snake (plural typeName).

Definition pairingSignatureFromRelationshipSegment
    (segment : RelationshipSegment) : string :=
  match direction segment with
  | DirIn => toType segment +:+ "|" +:+ label segment +:+ "|" +:+ fromType segment
  | DirOut => fromType segment +:+ "|" +:+ label segment +:+ "|" +:+ toType segment
  end.

(** [[fromType, toType, label, direction].join('|')] *)
Definition identitySignatureFromRelationshipSegment
    (segment : RelationshipSegment) : string :=
  fromType segment +:+ "|" +:+ toType segment +:+ "|" +:+ label segment
    +:+ "|" +:+ directionString (direction segment).

(** One step of the inner [forEach]: keep an existing non-null segment,
    otherwise store the new one under its identity signature. *)
Definition recordSegment (segmentMap : list (string * RelationshipSegment))
    (segment : RelationshipSegment) : list (string * RelationshipSegment) :=
  let signature := identitySignatureFromRelationshipSegment segment in
  match dict_get signature segmentMap with
  | Some existingSegment =>
      if negb (nonNull existingSegment)
      then dict_set signature segment segmentMap
      else segmentMap
  | None => dict_set signature segment segmentMap
  end.

Definition flattenedUniqueSegmentsFromRelationships
    (relationships : list Relationship) : list RelationshipSegment :=
  let segmentMap :=
    fold_left
      (fun m relationship => fold_left recordSegment (path relationship) m)
      relationships [] in
  map snd segmentMap.

Definition segmentPairRequiresJoinTable (p : RelationshipSegmentPair) : bool :=
  match pair_in p with
  | None => true
  | Some s => isPlural (cardinality s)
  end
  &&
  match pair_out p with
  | None => true
  | Some s => isPlural (cardinality s)
  end.

(** JavaScript truthiness of a value that is [undefined] or a string, and
    the [a || b] it drives. *)
Definition truthy (v : option string) : bool :=
  match v with
  | Some s => negb (String.eqb s "")
  | None => false
  end.

Definition js_or (a b : option string) : option string :=
  if truthy a then a else b.

Definition joinTableDescriptionFromRelationshipSegmentPair
    (p : RelationshipSegmentPair) : Result JoinTableDescription :=
  let leftV := js_or (fromType <$> pair_out p) (toType <$> pair_in p) in
  let rightV := js_or (toType <$> pair_out p) (fromType <$> pair_in p) in
  let labelV := js_or (label <$> pair_out p) (label <$> pair_in p) in
  _ ← invariant (truthy leftV && truthy rightV && truthy labelV)
        "relationship segment pair must have at least one segment";
  let l := default "" leftV in
  let r := default "" rightV in
  let lbl := default "" labelV in
  Ok {| jt_name := tableNameFromTypeName (l +:+ "_" +:+ lbl +:+ "_" +:+ r);
        leftTableName := tableNameFromTypeName l;
        rightTableName := tableNameFromTypeName r;
        leftColumnName := snake (l +:+ "_id");
        rightColumnName := snake (lbl +:+ "_" +:+ r +:+ "_id") |}.

(** First half of [foreignKeyDescriptionFromRelationshipSegmentPair]: the
    segment whose [fromType] and [toType] name the two tables ([normalType]
    in the source).  [invariant(pair.out)] fails on an empty pair. *)
Definition normalSegment (p : RelationshipSegmentPair)
  : Result RelationshipSegment :=
  match pair_in p with
  | None =>
      match pair_out p with
      | None => Failed "Invariant Violation"
      | Some out =>
          Ok {| fromType := toType out;
                toType := fromType out;
                label := label out;
                direction := DirIn;
                cardinality := cardinality out;
                nonNull := nonNull out |}
      end
  | Some inn =>
      match pair_out p with
      | None => Ok inn
      | Some out =>
          if isPlural (cardinality inn) || (nonNull out && negb (nonNull inn))
          then Ok inn
          else Ok out
      end
  end.

(** Second half: the description read off [normalType]. *)
Definition foreignKeyDescriptionFromRelationshipSegmentPair
    (p : RelationshipSegmentPair) : Result ForeignKeyDescription :=
  normalType ← normalSegment p;
  Ok {| fk_direction := direction normalType;
        fk_nonNull :=
          match pair_out p with Some out => nonNull out | None => false end
          || match pair_in p with Some inn => nonNull inn | None => false end;
        fk_table := tableNameFromTypeName (toType normalType);
        referencedTable := tableNameFromTypeName (fromType normalType);
        fk_column :=
          snake
            match direction normalType with
            | DirIn => label normalType +:+ "_" +:+ fromType normalType +:+ "_id"
            | DirOut => label normalType +:+ "_by_" +:+ fromType normalType +:+ "_id"
            end |}.

(** [segmentMap[signature] = (segmentMap[signature] || []).concat(segment)] *)
Definition groupSegment (segmentMap : list (string * list RelationshipSegment))
    (segment : RelationshipSegment) : list (string * list RelationshipSegment) :=
  let signature := pairingSignatureFromRelationshipSegment segment in
  dict_set signature
    (default [] (dict_get signature segmentMap) ++ [segment]) segmentMap.

(** [pair[segment.direction] = segment] *)
Definition assignSegment (p : RelationshipSegmentPair)
    (segment : RelationshipSegment) : RelationshipSegmentPair :=
  match direction segment with
  | DirIn => {| pair_in := Some segment; pair_out := pair_out p |}
  | DirOut => {| pair_in := pair_in p; pair_out := Some segment |}
  end.

Definition describeSegments
    (entry : string * list RelationshipSegment)
  : Result RelationshipSegmentDescription :=
  let '(signature, matchingSegments) := entry in
  let pair :=
    fold_left assignSegment matchingSegments
      {| pair_in := None; pair_out := None |} in
  if segmentPairRequiresJoinTable pair
  then
    storage ← joinTableDescriptionFromRelationshipSegmentPair pair;
    Ok {| signature := signature; pair := pair; storage := JoinStorage storage |}
  else
    storage ← foreignKeyDescriptionFromRelationshipSegmentPair pair;
    Ok {| signature := signature; pair := pair;
          storage := ForeignKeyStorage storage |}.

Definition segmentDescriptionsFromRelationships
    (relationships : list Relationship)
  : Result (list RelationshipSegmentDescription) :=
  let segments := flattenedUniqueSegmentsFromRelationships relationships in
  let segmentMap := fold_left groupSegment segments [] in
  mapM describeSegments segmentMap.
End SegmentResolver.

(** ** Schema compiler (generateDatabaseInterface.js)

    The entity definitions are GraphQL AST nodes: a field's [name] is a
    [Name] node whose text is in [value]. *)

Record Name : Type := { value : string }.

Record Directive : Type := { directive_name : Name }.

Inductive GraphQLType : Type :=
| NamedType (name : Name)
| ListType (type : GraphQLType)
| NonNullType (type : GraphQLType).

(** [directives] may be absent on a node. *)
Record FieldDefinition : Type := {
  field_name : Name;
  field_type : GraphQLType;
  directives : option (list Directive);
}.

Record ObjectTypeDefinition : Type := {
  definition_name : Name;
  fields : list FieldDefinition;
}.

Inductive ColumnType : Type :=
| uuid | text | integer | double_precision | timestamp_without_time_zone
| money | SERIAL | jsonb.

Record Reference : Type := { ref_table : string; ref_column : string }.

Record Column : Type := {
  column_name : string;
  column_type : ColumnType;
  primaryKey : bool;
  column_nonNull : bool;
  unique : bool;
  defaultValue : option string;
  references : option Reference;
}.

Record Constraint : Type := {
  constraint_type : string;
  constraint_columns : list string;
}.

Record Table : Type := {
  table_name : string;
  columns : list Column;
  constraints : list Constraint;
}.

(** Operands of [===] in the schema compiler: a string or an AST node.  A
    node is never strictly equal to a string. *)
Inductive JsValue : Type :=
| JsString (s : string)
| JsNode (n : Name).

Definition strictEqualsString (v : JsValue) (s : string) : bool :=
  match v with
  | JsString t => String.eqb t s
  | JsNode _ => false
  end.

Section SchemaCompiler.
Context {casing : Casing}.

(** [baseType] of gestalt-utils, which is not part of the sources at hand:
    the named type a type node is built around. *)
Variable baseType : GraphQLType -> Name.

Definition hasDirective (names : list string) (ds : list Directive) : bool :=
  existsb
    (fun d => existsb (String.eqb (value (directive_name d))) names) ds.

Definition isDatabaseField (definition : FieldDefinition) : bool :=
  match directives definition with
  | None => true
  | Some ds => negb (hasDirective ["virtual"; "relationship"] ds)
  end.

(** [invariant(definition.name !== 'seq', ...)]: the operand is the name
    node itself, not its [value]. *)
Definition validateDatabaseField (definition : FieldDefinition) : Result unit :=
  invariant
    (negb (strictEqualsString (JsNode (field_name definition)) "seq"))
    "The `seq` field is reserved by Gestalt and cannot be defined".

Definition isNonNullType (type : GraphQLType) : bool :=
  match type with
  | NonNullType _ => true
  | _ => false
  end.

Definition isListType (type : GraphQLType) : bool :=
  match type with
  | ListType _ => true
  | NonNullType (ListType _) => true
  | _ => false
  end.

(** The guard [type.isListType] reads a property that AST nodes do not
    carry, so the [switch] on the base type name always runs. *)
Definition columnTypeFromGraphQLType (type : GraphQLType) : ColumnType :=
  let name := value (baseType type) in
  if String.eqb name "ID" then uuid
  else if String.eqb name "String" then text
  else if String.eqb name "Int" then integer
  else if String.eqb name "Float" then double_precision
  else if String.eqb name "Date" then timestamp_without_time_zone
  else if String.eqb name "Money" then money
  else if String.eqb name "SERIAL" then SERIAL
  else jsonb.

(** [definition.directives.some] throws a [TypeError] when the node has no
    [directives]. *)
Definition columnFromFieldDefintion (definition : FieldDefinition)
  : Result Column :=
  let isId := String.eqb (value (field_name definition)) "id" in
  match directives definition with
  | None => Failed "TypeError: Cannot read property 'some' of undefined"
  | Some ds =>
      Ok {| column_name := snake (value (field_name definition));
            column_type := columnTypeFromGraphQLType (field_type definition);
            primaryKey := isId;
            column_nonNull := isNonNullType (field_type definition);
            unique := hasDirective ["unique"] ds;
            defaultValue := if isId then Some "gen_random_uuid()" else None;
            references := None |}
  end.

Definition seqColumn : Column :=
  {| column_name := "seq";
     column_type := SERIAL;
     primaryKey := false;
     column_nonNull := true;
     unique := true;
     defaultValue := None;
     references := None |}.

(** One iteration of [definition.fields.forEach]. *)
Definition addField (columns : list Column) (field : FieldDefinition)
  : Result (list Column) :=
  if isDatabaseField field
  then
    _ ← validateDatabaseField field;
    column ← columnFromFieldDefintion field;
    Ok (columns ++ [column])
  else Ok columns.

Fixpoint forEachField (fs : list FieldDefinition) (cols : list Column)
  : Result (list Column) :=
  match fs with
  | [] => Ok cols
  | field :: fs' => cols' ← addField cols field; forEachField fs' cols'
  end.

Definition tableFromObjectTypeDefinition (definition : ObjectTypeDefinition)
  : Result Table :=
  let name := tableNameFromTypeName (value (definition_name definition)) in
  columns ← forEachField (fields definition) [seqColumn];
  Ok {| table_name := name; columns := columns; constraints := [] |}.
End SchemaCompiler.

(** ** Query representation (types.js) *)

Record ColumnRef : Type := { ref_tbl : string; ref_col : string }.

Record JoinCondition : Type := { cond_left : ColumnRef; cond_right : ColumnRef }.

Record Join : Type := { join_table : string; condition : JoinCondition }.

Record Condition : Type := {
  cond_table : string;
  cond_column : string;
  operator : string;
  cond_value : string;
}.

Inductive OrderDirection : Type := ASC | DESC.

Record Order : Type := { order_column : string; order_direction : OrderDirection }.

(** [queryFromRelationship] sets [batched] and leaves [limit] and [order]
    undefined; [applyConnectionArgs] sets [limit] and [order] and leaves
    [batched] undefined. *)
Record Query : Type := {
  query_table : string;
  joins : list Join;
  conditions : list Condition;
  limit : option Z;
  order : option Order;
  batched : option bool;
}.

Record ConnectionArguments : Type := {
  arg_first : option Z;
  arg_last : option Z;
  arg_before : option string;
  arg_after : option string;
  arg_order : option string;
}.

Definition ColumnRef_eqb (a b : ColumnRef) : bool :=
  String.eqb (ref_tbl a) (ref_tbl b) && String.eqb (ref_col a) (ref_col b).

Definition orderDirectionString (d : OrderDirection) : string :=
  match d with
  | ASC => "ASC"
  | DESC => "DESC"
  end.

(** Decimal text of an integer, as a template literal prints it. *)
Definition numberString (n : Z) : string := NilZero.string_of_int (Z.to_int n).

Fixpoint joinStrings (sep : string) (l : list string) : string :=
  match l with
  | [] => ""
  | [s] => s
  | s :: l' => s +:+ sep +:+ joinStrings sep l'
  end.

(** ** Relationship resolver (generateRelationshipResolver.js) *)

Section RelationshipResolver.
Context {casing : Casing}.

Abbreviation DescriptionMap := (gmap string RelationshipSegmentDescription).

(** [segmentDescriptionMap[signature]], [undefined] when absent. *)
Definition descriptionFromSegment (segmentDescriptionMap : DescriptionMap)
    (segment : RelationshipSegment) : option RelationshipSegmentDescription :=
  segmentDescriptionMap !! pairingSignatureFromRelationshipSegment segment.

(** Reading a property of [undefined] throws. *)
Definition defined {A : Type} (v : option A) : Result A :=
  match v with
  | Some a => Ok a
  | None => Failed "TypeError: Cannot read property of undefined"
  end.

Definition objectKeyColumnFromRelationship
    (segmentDescriptionMap : DescriptionMap) (relationship : Relationship)
  : Result string :=
  segment ← defined (head (path relationship));
  description ← defined (descriptionFromSegment segmentDescriptionMap segment);
  match storage description with
  | ForeignKeyStorage storage =>
      if negb (Direction_eqb (fk_direction storage) (direction segment))
      then Ok (camel (fk_column storage))
      else Ok "id"
  | JoinStorage _ => Ok "id"
  end.

Definition resolvedKeyColumnFromRelationship
    (segmentDescriptionMap : DescriptionMap) (relationship : Relationship)
  : Result string :=
  segment ← defined (head (path relationship));
  description ← defined (descriptionFromSegment segmentDescriptionMap segment);
  match storage description with
  | ForeignKeyStorage storage =>
      if Direction_eqb (fk_direction storage) (direction segment)
      then Ok (camel (fk_column storage))
      else Ok "id"
  | JoinStorage _ => Ok "id"
  end.

Definition conditionFromSegment (segmentDescriptionMap : DescriptionMap)
    (segment : RelationshipSegment) : Result Condition :=
  description ← defined (descriptionFromSegment segmentDescriptionMap segment);
  let operator := "=" in
  let value := "ANY ($1)" in
  match storage description with
  | ForeignKeyStorage storage =>
      if Direction_eqb (direction segment) (fk_direction storage)
      then Ok {| cond_table := fk_table storage;
                 cond_column := fk_column storage;
                 operator := operator; cond_value := value |}
      else Ok {| cond_table := referencedTable storage;
                 cond_column := "id";
                 operator := operator; cond_value := value |}
  | JoinStorage storage =>
      match direction segment with
      | DirIn => Ok {| cond_table := jt_name storage;
                       cond_column := rightColumnName storage;
                       operator := operator; cond_value := value |}
      | DirOut => Ok {| cond_table := jt_name storage;
                        cond_column := leftColumnName storage;
                        operator := operator; cond_value := value |}
      end
  end.

Definition mkJoin (table lt lc rt rc : string) : Join :=
  {| join_table := table;
     condition := {| cond_left := {| ref_tbl := lt; ref_col := lc |};
                     cond_right := {| ref_tbl := rt; ref_col := rc |} |} |}.

(** Body of the loop of [joinsFromSegments]: the joins pushed for one
    segment. *)
Definition joinsFromSegment (segmentDescriptionMap : DescriptionMap)
    (segment : RelationshipSegment) : Result (list Join) :=
  description ← defined (descriptionFromSegment segmentDescriptionMap segment);
  let toTableName := tableNameFromTypeName (toType segment) in
  match storage description with
  | ForeignKeyStorage storage =>
      let table := fk_table storage in
      let referencedTable := referencedTable storage in
      let column := fk_column storage in
      if Direction_eqb (direction segment) (fk_direction storage)
      then Ok [mkJoin referencedTable referencedTable "id" table column]
      else Ok [mkJoin table table column referencedTable "id"]
  | JoinStorage storage =>
      let name := jt_name storage in
      if String.eqb toTableName (leftTableName storage)
      then Ok [mkJoin name name (leftColumnName storage)
                 (leftTableName storage) "id";
               mkJoin (rightTableName storage) (rightTableName storage) "id"
                 name (rightColumnName storage)]
      else Ok [mkJoin name name (rightColumnName storage) toTableName "id";
               mkJoin (leftTableName storage) (leftTableName storage) "id"
                 name (leftColumnName storage)]
  end.

(** The loop runs from the last segment down to the first. *)
Definition joinsFromSegments (segmentDescriptionMap : DescriptionMap)
    (segments : list RelationshipSegment) : Result (list Join) :=
  pushed ← mapM (joinsFromSegment segmentDescriptionMap) (rev segments);
  Ok (concat pushed).

Definition joinsFromInitialSegment (segmentDescriptionMap : DescriptionMap)
    (segment : RelationshipSegment) : Result (list Join) :=
  description ← defined (descriptionFromSegment segmentDescriptionMap segment);
  match storage description with
  | JoinStorage storage =>
      let name := jt_name storage in
      match direction segment with
      | DirIn => Ok [mkJoin name name (leftColumnName storage)
                       (leftTableName storage) "id"]
      | DirOut => Ok [mkJoin name name (rightColumnName storage)
                        (rightTableName storage) "id"]
      end
  | ForeignKeyStorage _ => Ok []
  end.

Definition joinsFromPath (segmentDescriptionMap : DescriptionMap)
    (segments : list RelationshipSegment) : Result (list Join) :=
  rest ← joinsFromSegments segmentDescriptionMap (tail segments);
  initialSegment ← defined (head segments);
  initial ← joinsFromInitialSegment segmentDescriptionMap initialSegment;
  Ok (rest ++ initial).
End RelationshipResolver.

(** ** Join compaction, query construction and rendering *)

(** [join.condition.left] names the same table and column as
    [next.condition.right]. *)
Definition collapsible (join next : Join) : bool :=
  ColumnRef_eqb (cond_left (condition join)) (cond_right (condition next)).

Definition collapse (join next : Join) : Join :=
  {| join_table := join_table next;
     condition := {| cond_left := cond_left (condition next);
                     cond_right := cond_right (condition join) |} |}.

(** The [for] loop of [compactJoins] at index [i] with the joins pushed so
    far; every iteration advances [i], so [length joins] rounds suffice. *)
Fixpoint compactJoinsFrom (rounds : nat) (joins : list Join) (i : nat)
    (compacted : list Join) : list Join :=
  match rounds with
  | O => compacted
  | S rounds' =>
      match joins !! i with
      | None => compacted
      | Some join =>
          match joins !! (i + 1)%nat with
          | Some next =>
              if collapsible join next
              then compactJoinsFrom rounds' joins (i + 1 + 1)%nat
                     (compacted ++ [collapse join next])
              else compactJoinsFrom rounds' joins (i + 1)%nat
                     (compacted ++ [join])
          | None =>
              compactJoinsFrom rounds' joins (i + 1)%nat (compacted ++ [join])
          end
      end
  end.

Definition compactJoins (joins : list Join) : list Join :=
  compactJoinsFrom (length joins) joins 0 [].

(** The same scan by recursion on the list. *)
Fixpoint compactJoins_rec (joins : list Join) : list Join :=
  match joins with
  | [] => []
  | join :: rest =>
      match rest with
      | [] => [join]
      | next :: rest' =>
          if collapsible join next
          then collapse join next :: compactJoins_rec rest'
          else join :: compactJoins_rec rest
      end
  end.

(** Some join of the list collapses into its successor. *)
Fixpoint hasCollapsiblePair (joins : list Join) : bool :=
  match joins with
  | j1 :: ((j2 :: _) as rest) => collapsible j1 j2 || hasCollapsiblePair rest
  | _ => false
  end.

(** Three consecutive joins that link up pairwise: the first collapses into
    the second, and the second would collapse into the third. *)
Fixpoint hasChain (joins : list Join) : bool :=
  match joins with
  | j1 :: ((j2 :: j3 :: _) as rest) =>
      (collapsible j1 j2 && collapsible j2 j3) || hasChain rest
  | _ => false
  end.

Definition joinString (join : Join) : string :=
  let l := cond_left (condition join) in
  let r := cond_right (condition join) in
  " JOIN " +:+ join_table join +:+ " ON " +:+ ref_tbl l +:+ "." +:+ ref_col l
    +:+ " = " +:+ ref_tbl r +:+ "." +:+ ref_col r.

Definition conditionString (c : Condition) : string :=
  cond_table c +:+ "." +:+ cond_column c +:+ " " +:+ operator c +:+ " "
    +:+ cond_value c.

Definition sqlStringFromQuery (query : Query) : string :=
  let table := query_table query in
  "SELECT " +:+ table +:+ ".* FROM " +:+ table
    +:+ joinStrings "" (map joinString (joins query))
    +:+ " WHERE "
    +:+ joinStrings " AND " (map conditionString (conditions query))
    +:+ match order query with
        | Some o => " ORDER BY " +:+ table +:+ "." +:+ order_column o +:+ " "
                      +:+ orderDirectionString (order_direction o)
        | None => ""
        end
    +:+ match limit query with
        | Some n => " LIMIT " +:+ numberString n
        | None => ""
        end
    +:+ ";".

Section QueryCompiler.
Context {casing : Casing}.

Definition queryFromRelationship
    (segmentDescriptionMap : gmap string RelationshipSegmentDescription)
    (relationship : Relationship) : Result Query :=
  finalSegment ← defined (last (path relationship));
  joins ← joinsFromPath segmentDescriptionMap (path relationship);
  initialSegment ← defined (head (path relationship));
  condition ← conditionFromSegment segmentDescriptionMap initialSegment;
  Ok {| query_table := tableNameFromTypeName (toType finalSegment);
        joins := compactJoins joins;
        conditions := [condition];
        limit := None;
        order := None;
        batched := Some true |}.

Definition sqlQueryFromRelationship
    (segmentDescriptionMap : gmap string RelationshipSegmentDescription)
    (relationship : Relationship) : Result string :=
  query ← queryFromRelationship segmentDescriptionMap relationship;
  Ok (sqlStringFromQuery query).

Definition isNull {A : Type} (v : option A) : bool :=
  match v with
  | None => true
  | Some _ => false
  end.

Definition applyConnectionArgs (query : Query) (args : ConnectionArguments)
  : Result Query :=
  let table := query_table query in
  let column :=
    match arg_order args with
    | None => "seq"
    | Some o => snake o
    end in
  let value :=
    "(SELECT " +:+ column +:+ " FROM " +:+ table +:+ " WHERE id = $2)" in
  _ ← invariant
        ((isNull (arg_first args) && isNull (arg_after args))
         || (isNull (arg_last args) && isNull (arg_before args)))
        "forward and reverse pagination arguments should not be combined";
  let limit :=
    match arg_first args with
    | Some n => Some n
    | None => arg_last args
    end in
  let order :=
    {| order_column := column;
       order_direction :=
         if negb (isNull (arg_last args)) || negb (isNull (arg_before args))
         then DESC else ASC |} in
  let bound op :=
    {| cond_table := table; cond_column := column;
       operator := op; cond_value := value |} in
  let conditions :=
    if negb (isNull (arg_after args)) then conditions query ++ [bound ">"]
    else if negb (isNull (arg_before args)) then conditions query ++ [bound "<"]
    else conditions query in
  Ok {| query_table := table;
        joins := joins query;
        conditions := conditions;
        limit := limit;
        order := Some order;
        batched := None |}.
End QueryCompiler.

(** ** Statement execution (db.js) and relationship loaders

    Statements reach the database through [exec], which hands them to the
    [pg] driver.  A computation that talks to the database is a function of
    the log of statements executed so far. *)

Inductive Param : Type :=
| KeysParam (keys : list string)
| CursorParam (cursor : string).

Record Statement : Type := { stmt_sql : string; stmt_params : list Param }.

(** A result row: column name to value. *)
Abbreviation Row := (gmap string string).

Definition DB (A : Type) : Type :=
  list Statement -> Result A * list Statement.

#[global] Instance DB_ret : MRet DB := fun A a log => (Ok a, log).

#[global] Instance DB_bind : MBind DB := fun A B k m log =>
  match m log with
  | (Ok a, log') => k a log'
  | (Failed msg, log') => (Failed msg, log')
  end.

Definition liftResult {A : Type} (r : Result A) : DB A := fun log => (r, log).

(** Modelled from the spec: [keyMap] of the util module, which is not among
    the sources; it groups the items by key, a later item replacing an
    earlier one under the same key. *)
Definition keyMap {A : Type} (items : list A) (getKey : A -> string)
  : gmap string A :=
  fold_left (fun memo item => <[getKey item := item]> memo) items ∅.

(** A property key is a string: [undefined] becomes ["undefined"]. *)
Definition propertyKey (v : option string) : string := default "undefined" v.

Section Executor.
(** The result object of the [pg] driver and the driver call itself. *)
Variable PgResult : Type.
Variable pg_query : string -> list Param -> Result PgResult.

Definition exec (query : string) (escapes : list Param) : DB PgResult :=
  fun log =>
    (pg_query query escapes,
     log ++ [{| stmt_sql := query; stmt_params := escapes |}]).

(** [find] of db.js: the driver's result is logged and [{}] returned. *)
Definition find (query : string) (escapes : list Param) : DB Row :=
  result ← exec query escapes;
  mret ∅.

(** [query] of db.js: the driver's result is logged and [[{}]] returned. *)
Definition query (query : string) (escapes : list Param) : DB (list Row) :=
  result ← exec query escapes;
  mret [∅].
End Executor.

Record Edge : Type := { node : Row; cursor : option string }.

Record PageInfo : Type := { hasPreviousPage : bool; hasNextPage : bool }.

Record Connection : Type := {
  edges : list Edge;
  pageInfo : PageInfo;
  count : nat;
  totalCount : nat;
}.

(** [Promise.all]: every computation runs; the first failure is reported. *)
Fixpoint promiseAll {A : Type} (ps : list (DB A)) : DB (list A) :=
  match ps with
  | [] => mret []
  | p :: ps' => fun log =>
      let (r, log1) := p log in
      let (rs, log2) := promiseAll ps' log1 in
      (x ← r; xs ← rs; Ok (x :: xs), log2)
  end.

Section Loaders.
Context {casing : Casing}.

(** The [query] function imported from [./db]. *)
Variable query : string -> list Param -> DB (list Row).

(** The batch function handed to [DataLoader] by
    [generateSingularRelationshipLoader]. *)
Definition generateSingularRelationshipLoader (relationship : Relationship)
    (keyColumn sql : string) (keys : list string) : DB (list (option Row)) :=
  results ← query sql [KeysParam keys];
  let resultsByKey :=
    keyMap results (fun result => propertyKey (result !! keyColumn)) in
  mret (map (fun key => resultsByKey !! key) keys).

(** The body run for one [{key, args}] by
    [generatePluralRelationshipLoader]. *)
Definition loadConnection (baseQuery : Query) (key : string)
    (args : ConnectionArguments) : DB Connection :=
  paged ← liftResult (applyConnectionArgs baseQuery args);
  let sql := sqlStringFromQuery paged in
  let boundary := js_or (arg_before args) (arg_after args) in
  let params :=
    [KeysParam [key]]
      ++ (if truthy boundary then [CursorParam (default "" boundary)] else []) in
  nodes ← query sql params;
  let edges := map (fun n => {| node := n; cursor := n !! "id" |}) nodes in
  mret {| edges := edges;
          pageInfo := {| hasPreviousPage := false; hasNextPage := false |};
          count := length edges;
          totalCount := length edges |}.

Definition generatePluralRelationshipLoader (relationship : Relationship)
    (keyColumn sql : string) (baseQuery : Query)
    (loadKeys : list (string * ConnectionArguments))
  : DB (list Connection) :=
  promiseAll (map (fun '(key, args) => loadConnection baseQuery key args) loadKeys).
End Loaders.

(** Modelled from the spec: the request-scoped coalescing cache (the
    [dataloader] package, which is not among the sources).  Keys requested
    within one dispatch are collected once each, in the order of their first
    request; the batch function runs once on them and must answer with one
    value per key; every caller receives the value cached for its key. *)
Section DataLoader.
Context {V : Type}.
Variable batchLoadFn : list string -> DB (list V).

(** Modelled from the spec: the keys of one dispatch, each once, in the
    order of their first request. *)
Fixpoint enqueue (queue : list string) (calls : list string) : list string :=
  match calls with
  | [] => queue
  | key :: calls' =>
      if existsb (String.eqb key) queue
      then enqueue queue calls'
      else enqueue (queue ++ [key]) calls'
  end.

(** Modelled from the spec: the value memoised for a key. *)
Fixpoint cached (keys : list string) (values : list V) (key : string)
  : option V :=
  match keys, values with
  | k :: keys', v :: values' =>
      if String.eqb key k then Some v else cached keys' values' key
  | _, _ => None
  end.

(** Modelled from the spec: the [load] calls of one dispatch; one run of
    the batch function, results handed back in the callers' order. *)
Definition load (calls : list string) : DB (list V) :=
  let keys := enqueue [] calls in
  values ← batchLoadFn keys;
  if negb (Nat.eqb (length values) (length keys))
  then liftResult (Failed "DataLoader must be constructed with a function which returns a Promise of an Array of the same length as the Array of keys")
  else liftResult (mapM (fun key => defined (cached keys values key)) calls).
End DataLoader.

(** ** A concrete casing for running the definitions

    A plain ASCII reading of the three naming helpers: [snake] lower-cases
    and separates a capital that follows a small letter or digit, [camel]
    drops underscores and capitalises what follows them, [plural] appends
    an s.  The packages cover more cases; the theorems below hold for any
    [Casing] and use this one only on examples. *)

Definition isUpper (c : ascii) : bool :=
  (65 <=? nat_of_ascii c)%nat && (nat_of_ascii c <=? 90)%nat.

Definition isLower (c : ascii) : bool :=
  (97 <=? nat_of_ascii c)%nat && (nat_of_ascii c <=? 122)%nat.

Definition isDigit (c : ascii) : bool :=
  (48 <=? nat_of_ascii c)%nat && (nat_of_ascii c <=? 57)%nat.

Definition toLower (c : ascii) : ascii :=
  if isUpper c then ascii_of_nat (nat_of_ascii c + 32) else c.

Definition toUpper (c : ascii) : ascii :=
  if isLower c then ascii_of_nat (nat_of_ascii c - 32) else c.

Fixpoint snakeFrom (afterSmall : bool) (s : string) : string :=
  match s with
  | EmptyString => EmptyString
  | String c s' =>
      if isUpper c
      then
        if afterSmall
        then String "_" (String (toLower c) (snakeFrom false s'))
        else String (toLower c) (snakeFrom false s')
      else String c (snakeFrom (isLower c || isDigit c) s')
  end.

Fixpoint camelFrom (capitalise : bool) (s : string) : string :=
  match s with
  | EmptyString => EmptyString
  | String c s' =>
      if Ascii.eqb c "_" then camelFrom true s'
      else String (if capitalise then toUpper c else c) (camelFrom false s')
  end.

Definition asciiCasing : Casing :=
  {| snake := snakeFrom false;
     camel := camelFrom false;
     plural := fun s => s +:+ "s" |}.

(** [segmentDescriptionsBySignature] of [generateDatabaseInterface]. *)
Definition segmentDescriptionsBySignature {casing : Casing}
    (relationships : list Relationship)
  : Result (gmap string RelationshipSegmentDescription) :=
  segmentDescriptions ← segmentDescriptionsFromRelationships relationships;
  Ok (keyMap segmentDescriptions signature).

(** ** Schema assembly ([generateDatabaseInterface]) *)

Record Index : Type := { index_table : string; index_columns : list string }.

Record DatabaseSchema : Type := {
  tables : list Table;
  indices : list Index;
}.

(** The two arrays and the dictionary that [generateDatabaseInterface]
    fills.  [tablesByName] holds the very table objects that sit in
    [tables]: an entry is the position of its table in [tables], so that a
    column pushed through the dictionary shows in the array. *)
Record SchemaState : Type := {
  st_tables : list Table;
  st_tablesByName : gmap string nat;
  st_indices : list Index;
}.

(** A [forEach] whose body may throw. *)
Fixpoint forEachM {S A : Type} (body : S -> A -> Result S) (l : list A) (s : S)
  : Result S :=
  match l with
  | [] => Ok s
  | x :: l' => s' ← body s x; forEachM body l' s'
  end.

Section DatabaseInterface.
Context {casing : Casing}.
Variable baseType : GraphQLType -> Name.

Definition indexedField (field : FieldDefinition) : bool :=
  match directives field with
  | None => false
  | Some ds => hasDirective ["index"] ds && negb (hasDirective ["unique"] ds)
  end.

Definition indicesFromObjectTypeDefinition (definition : ObjectTypeDefinition)
  : list Index :=
  let table := tableNameFromTypeName (value (definition_name definition)) in
  map (fun field =>
         {| index_table := table;
            index_columns := [snake (value (field_name field))] |})
    (List.filter indexedField (fields definition)).

Definition joinTableFromDescription (description : JoinTableDescription)
  : Table :=
  {| table_name := jt_name description;
     columns :=
       [ {| column_name := leftColumnName description;
            column_type := uuid;
            primaryKey := false;
            column_nonNull := true;
            unique := false;
            defaultValue := None;
            references :=
              Some {| ref_table := leftTableName description;
                      ref_column := "id" |} |};
         {| column_name := rightColumnName description;
            column_type := uuid;
            primaryKey := false;
            column_nonNull := true;
            unique := false;
            defaultValue := None;
            references :=
              Some {| ref_table := rightTableName description;
                      ref_column := "id" |} |} ];
     constraints :=
       [ {| constraint_type := "UNIQUE";
            constraint_columns :=
              [leftColumnName description; rightColumnName description] |} ] |}.

Definition joinTableIndicesFromDescription (description : JoinTableDescription)
  : list Index :=
  [ {| index_table := jt_name description;
       index_columns := [rightColumnName description] |} ].

Definition indexFromForeignKeyDescription (description : ForeignKeyDescription)
  : Index :=
  {| index_table := fk_table description;
     index_columns := [fk_column description] |}.

Definition columnFromForeignKeyDescription (description : ForeignKeyDescription)
  : Column :=
  {| column_name := fk_column description;
     column_type := uuid;
     primaryKey := false;
     column_nonNull := fk_nonNull description;
     unique := false;
     defaultValue := None;
     references :=
       Some {| ref_table := referencedTable description; ref_column := "id" |} |}.

(** [table.columns.push(column)] *)
Definition pushColumn (column : Column) (table : Table) : Table :=
  {| table_name := table_name table;
     columns := columns table ++ [column];
     constraints := constraints table |}.

(** Body of the loop over [Object.values(objectTypes)]. *)
Definition addObjectType (st : SchemaState) (definition : ObjectTypeDefinition)
  : Result SchemaState :=
  table ← tableFromObjectTypeDefinition baseType definition;
  Ok {| st_tables := st_tables st ++ [table];
        st_tablesByName :=
          <[table_name table := length (st_tables st)]> (st_tablesByName st);
        st_indices :=
          st_indices st ++ indicesFromObjectTypeDefinition definition |}.

(** Body of the loop over the segment descriptions.  For a foreign key the
    table is looked up by name; pushing onto the columns of [undefined]
    throws. *)
Definition addSegmentDescription (st : SchemaState)
    (segment : RelationshipSegmentDescription) : Result SchemaState :=
  match storage segment with
  | JoinStorage description =>
      Ok {| st_tables := st_tables st ++ [joinTableFromDescription description];
            st_tablesByName := st_tablesByName st;
            st_indices :=
              st_indices st ++ joinTableIndicesFromDescription description |}
  | ForeignKeyStorage description =>
      match st_tablesByName st !! fk_table description with
      | None => Failed "TypeError: Cannot read property of undefined"
      | Some position =>
          Ok {| st_tables :=
                  alter (pushColumn (columnFromForeignKeyDescription description))
                    position (st_tables st);
                st_tablesByName := st_tablesByName st;
                st_indices :=
                  st_indices st ++ [indexFromForeignKeyDescription description] |}
      end
  end.

(** The tables and indices of the [schema] member of the interface that
    [generateDatabaseInterface] returns, for the object types in the order
    of [Object.values].  The other members wrap the database connection. *)
Definition schemaFromSchemaInfo (objectTypes : list ObjectTypeDefinition)
    (relationships : list Relationship) : Result DatabaseSchema :=
  st ← forEachM addObjectType objectTypes
         {| st_tables := []; st_tablesByName := ∅; st_indices := [] |};
  segmentDescriptions ← segmentDescriptionsFromRelationships relationships;
  st' ← forEachM addSegmentDescription segmentDescriptions st;
  Ok {| tables := st_tables st'; indices := st_indices st' |}.
End DatabaseInterface.

(** The declaration kept for an identity signature, read off the list of
    declarations: the first not-null one, or else the last one. *)
Definition hasIdentity (k : string) (s : RelationshipSegment) : bool :=
  String.eqb (identitySignatureFromRelationshipSegment s) k.

Definition keptDeclaration (k : string) (segments : list RelationshipSegment)
  : option RelationshipSegment :=
  match List.find (fun s => hasIdentity k s && nonNull s) segments with
  | Some s => Some s
  | None => last (List.filter (hasIdentity k) segments)
  end.

(** Names that are not the empty string. *)
Definition named (s : RelationshipSegment) : bool :=
  negb (String.eqb (fromType s) "") && negb (String.eqb (toType s) "")
  && negb (String.eqb (label s) "").

(** Names of the join tables among descriptions, in their order. *)
Definition joinTableNames (ds : list RelationshipSegmentDescription)
  : list string :=
  omap (fun d => match storage d with
                 | JoinStorage st => Some (jt_name st)
                 | ForeignKeyStorage _ => None
                 end) ds.

(** The foreign keys among descriptions. *)
Definition foreignKeys (ds : list RelationshipSegmentDescription)
  : list ForeignKeyDescription :=
  omap (fun d => match storage d with
                 | ForeignKeyStorage fk => Some fk
                 | JoinStorage _ => None
                 end) ds.

(** An entity with an [id] field only. *)
Definition plainEntity (name : string) : ObjectTypeDefinition :=
  {| definition_name := {| value := name |};
     fields :=
       [ {| field_name := {| value := "id" |};
            field_type := NonNullType (NamedType {| value := "ID" |});
            directives := Some [] |} ] |}.

(** A stand-in for [baseType] on examples: strip the wrappers. *)
Fixpoint namedBase (type : GraphQLType) : Name :=
  match type with
  | NamedType name => name
  | ListType type' => namedBase type'
  | NonNullType type' => namedBase type'
  end.

(** The connection a list of rows is wrapped into. *)
Definition connectionOf (nodes : list Row) : Connection :=
  {| edges := map (fun n => {| node := n; cursor := n !! "id" |}) nodes;
     pageInfo := {| hasPreviousPage := false; hasNextPage := false |};
     count := length nodes;
     totalCount := length nodes |}.

(** ** Loaders of a request ([generateRelationshipLoaders]) *)

(** A loader is the batch function handed to [DataLoader]: over keys for a
    singular relationship, over [{key, args}] for a plural one. *)
Inductive Loader : Type :=
| SingularLoader (batch : list string -> DB (list (option Row)))
| PluralLoader
    (batch : list (string * ConnectionArguments) -> DB (list Connection)).

Section RelationshipLoaders.
Context {casing : Casing}.

(** The [query] function imported from [./db]. *)
Variable query : string -> list Param -> DB (list Row).

(** Body of the [forEach] of [generateRelationshipLoaders]: the loader set
    for one relationship. *)
Definition loaderFromRelationship
    (segmentDescriptionMap : gmap string RelationshipSegmentDescription)
    (relationship : Relationship) : Result Loader :=
  keyColumn ← resolvedKeyColumnFromRelationship segmentDescriptionMap relationship;
  baseQuery ← queryFromRelationship segmentDescriptionMap relationship;
  let sql := sqlStringFromQuery baseQuery in
  match rel_cardinality relationship with
  | Singular =>
      Ok (SingularLoader
            (generateSingularRelationshipLoader query relationship keyColumn sql))
  | Plural =>
      Ok (PluralLoader
            (generatePluralRelationshipLoader query relationship keyColumn sql
               baseQuery))
  end.

(** The loader map built for a request, as the list of the entries set, in
    the order of the relationships. *)
Definition generateRelationshipLoaders
    (segmentDescriptionMap : gmap string RelationshipSegmentDescription)
    (relationships : list Relationship) : Result (list (Relationship * Loader)) :=
  mapM
    (fun relationship =>
       loader ← loaderFromRelationship segmentDescriptionMap relationship;
       Ok (relationship, loader))
    relationships.
End RelationshipLoaders.

(** The cardinality a loader serves. *)
Definition loaderCardinality (l : Loader) : Cardinality :=
  match l with
  | SingularLoader _ => Singular
  | PluralLoader _ => Plural
  end.

(** A path that can be compiled against a description map: it is not empty
    and each of its segments has a description. *)
Definition described (m : gmap string RelationshipSegmentDescription)
    (relationship : Relationship) : Prop :=
  path relationship <> []
  /\ Forall (fun s => is_Some (descriptionFromSegment m s)) (path relationship).

(** ** Vocabulary of the statements *)

(** The segments a pair holds: none, one or two. *)
Definition segmentsPresent (p : RelationshipSegmentPair)
  : list RelationshipSegment :=
  option_list (pair_in p) ++ option_list (pair_out p).

Definition withCardinality (c : Cardinality) (s : RelationshipSegment)
  : RelationshipSegment :=
  {| fromType := fromType s; toType := toType s; label := label s;
     direction := direction s; cardinality := c; nonNull := nonNull s |}.


(** A segment seen from its other endpoint, in inbound form. *)
Definition inbound (s : RelationshipSegment) : RelationshipSegment :=
  {| fromType := toType s; toType := fromType s; label := label s;
     direction := DirIn; cardinality := cardinality s; nonNull := nonNull s |}.


(** The description computed from an owning segment [s] and the not-null
    flag of the pair. *)
Definition keyedOn {casing : Casing} (s : RelationshipSegment) (isNonNull : bool)
  : ForeignKeyDescription :=
  {| fk_direction := direction s;
     fk_nonNull := isNonNull;
     fk_table := tableNameFromTypeName (toType s);
     referencedTable := tableNameFromTypeName (fromType s);
     fk_column :=
       snake
         match direction s with
         | DirIn => label s +:+ "_" +:+ fromType s +:+ "_id"
         | DirOut => label s +:+ "_by_" +:+ fromType s +:+ "_id"
         end |}.

(** Two declarations of one relationship from its two endpoints. *)
Definition opposite (s1 s2 : RelationshipSegment) : Prop :=
  label s1 = label s2 /\ fromType s1 = toType s2 /\ toType s1 = fromType s2
  /\ direction s1 <> direction s2.

(** The join-table description built from the three names of a pair. *)
Definition joinTableFor {casing : Casing} (l lbl r : string)
  : JoinTableDescription :=
  {| jt_name := tableNameFromTypeName (l +:+ "_" +:+ lbl +:+ "_" +:+ r);
     leftTableName := tableNameFromTypeName l;
     rightTableName := tableNameFromTypeName r;
     leftColumnName := snake (l +:+ "_id");
     rightColumnName := snake (lbl +:+ "_" +:+ r +:+ "_id") |}.

(** The join-table description of a segment declared outbound only. *)
Definition joinDescriptionOf {casing : Casing} (s : RelationshipSegment)
  : RelationshipSegmentDescription :=
  {| signature := pairingSignatureFromRelationshipSegment s;
     pair := {| pair_in := None; pair_out := Some s |};
     storage := JoinStorage (joinTableFor (fromType s) (label s) (toType s)) |}.

(** The literal path Author -wrote-> Post -hasTag-> Tag, both hops plural. *)
Definition wrote (isNonNull : bool) : RelationshipSegment :=
  {| fromType := "Author"; toType := "Post"; label := "wrote";
     direction := DirOut; cardinality := Plural; nonNull := isNonNull |}.

Definition hasTag (isNonNull : bool) : RelationshipSegment :=
  {| fromType := "Post"; toType := "Tag"; label := "hasTag";
     direction := DirOut; cardinality := Plural; nonNull := isNonNull |}.

Definition authorTags (n1 n2 : bool) : Relationship :=
  {| fieldName := "tags"; rel_cardinality := Plural;
     path := [wrote n1; hasTag n2] |}.

(** The joins planned before compaction: two for the second hop, one for
    the first. *)
Definition authorTagsJoins {casing : Casing} : list Join :=
  (if String.eqb (tableNameFromTypeName "Tag") (tableNameFromTypeName "Post")
   then
     [ mkJoin (tableNameFromTypeName "Post_hasTag_Tag")
         (tableNameFromTypeName "Post_hasTag_Tag") (snake "Post_id")
         (tableNameFromTypeName "Post") "id";
       mkJoin (tableNameFromTypeName "Tag") (tableNameFromTypeName "Tag") "id"
         (tableNameFromTypeName "Post_hasTag_Tag") (snake "hasTag_Tag_id") ]
   else
     [ mkJoin (tableNameFromTypeName "Post_hasTag_Tag")
         (tableNameFromTypeName "Post_hasTag_Tag") (snake "hasTag_Tag_id")
         (tableNameFromTypeName "Tag") "id";
       mkJoin (tableNameFromTypeName "Post") (tableNameFromTypeName "Post") "id"
         (tableNameFromTypeName "Post_hasTag_Tag") (snake "Post_id") ])
  ++ [ mkJoin (tableNameFromTypeName "Author_wrote_Post")
         (tableNameFromTypeName "Author_wrote_Post") (snake "wrote_Post_id")
         (tableNameFromTypeName "Post") "id" ].

(** A three-hop path that returns to the posts through their comments:
    Author -wrote-> Post <-on- Comment -on-> Post. *)
Definition coAuthoredPosts : Relationship :=
  {| fieldName := "relatedPosts"; rel_cardinality := Plural;
     path :=
       [ wrote false;
         {| fromType := "Post"; toType := "Comment"; label := "on";
            direction := DirIn; cardinality := Plural; nonNull := false |};
         {| fromType := "Comment"; toType := "Post"; label := "on";
            direction := DirOut; cardinality := Singular; nonNull := false |} ] |}.

(** Number of positions of [hay] at which [needle] starts. *)
Fixpoint countOccurrences (needle hay : string) : nat :=
  match hay with
  | EmptyString => 0
  | String _ hay' =>
      (if String.prefix needle hay then 1 else 0) + countOccurrences needle hay'
  end.

(** A forward argument ([first] or [after]), a backward argument ([last]
    or [before]). *)
Definition pagesForward (args : ConnectionArguments) : bool :=
  negb (isNull (arg_first args)) || negb (isNull (arg_after args)).

Definition pagesBackward (args : ConnectionArguments) : bool :=
  negb (isNull (arg_last args)) || negb (isNull (arg_before args)).

(** The order column of a paged query. *)
Definition orderColumn {casing : Casing} (args : ConnectionArguments) : string :=
  match arg_order args with
  | None => "seq"
  | Some o => snake o
  end.

(** The condition a cursor adds: the order column against the value that
    column has in the cursor's row. *)
Definition cursorBound (table column op : string) : Condition :=
  {| cond_table := table;
     cond_column := column;
     operator := op;
     cond_value :=
       "(SELECT " +:+ column +:+ " FROM " +:+ table +:+ " WHERE id = $2)" |}.

(** The foreign-key description of a segment declared outbound only. *)
Definition keyedDescription {casing : Casing} (s : RelationshipSegment)
  : RelationshipSegmentDescription :=
  {| signature := pairingSignatureFromRelationshipSegment s;
     pair := {| pair_in := None; pair_out := Some s |};
     storage := ForeignKeyStorage (keyedOn (inbound s) (nonNull s)) |}.

(** Every segment declared on some path. *)
Definition declaredSegments (relationships : list Relationship)
  : list RelationshipSegment :=
  concat (map path relationships).

(** Names of types and labels are GraphQL names; in particular they do not
    contain the separator of the signatures. *)
Fixpoint pipeFree (s : string) : bool :=
  match s with
  | EmptyString => true
  | String c s' => negb (Ascii.eqb c "|") && pipeFree s'
  end.

Definition wellNamed (s : RelationshipSegment) : bool :=
  pipeFree (fromType s) && pipeFree (toType s) && pipeFree (label s).

(** Consecutive segments of a path meet: each starts at the type the one
    before it leads to. *)
Fixpoint connected (segments : list RelationshipSegment) : Prop :=
  match segments with
  | s1 :: rest =>
      match rest with
      | s2 :: _ => toType s1 = fromType s2 /\ connected rest
      | [] => True
      end
  | [] => True
  end.

(** A list of joins is a chain from a table: every join attaches the table
    it joins, named on the left of its condition, to the table joined just
    before it (the first one to [start]), named on the right. *)
Fixpoint chained (start : string) (js : list Join) : Prop :=
  match js with
  | [] => True
  | j :: js' =>
      ref_tbl (cond_right (condition j)) = start
      /\ ref_tbl (cond_left (condition j)) = join_table j
      /\ chained (join_table j) js'
  end.

(** The table a chain ends at. *)
Definition chainEnd (start : string) (js : list Join) : string :=
  default start (join_table <$> last js).

(** The tables of a description are those of the segment's endpoints: a
    foreign key sits on the table of the type the segment leads to when
    the segment has the key's direction, and on the table of the type it
    starts from otherwise; a join table has the outbound source on its
    left and the outbound target on its right. *)
Definition segmentLinked {casing : Casing}
    (d : RelationshipSegmentDescription) (s : RelationshipSegment) : Prop :=
  match storage d with
  | ForeignKeyStorage fk =>
      if Direction_eqb (direction s) (fk_direction fk)
      then fk_table fk = tableNameFromTypeName (toType s)
           /\ referencedTable fk = tableNameFromTypeName (fromType s)
      else fk_table fk = tableNameFromTypeName (fromType s)
           /\ referencedTable fk = tableNameFromTypeName (toType s)
  | JoinStorage jt =>
      match direction s with
      | DirOut => leftTableName jt = tableNameFromTypeName (fromType s)
                  /\ rightTableName jt = tableNameFromTypeName (toType s)
      | DirIn => leftTableName jt = tableNameFromTypeName (toType s)
                 /\ rightTableName jt = tableNameFromTypeName (fromType s)
      end
  end.

(** The segment has a description in the map, with the tables of its
    endpoints. *)
Definition linkedIn {casing : Casing}
    (m : gmap string RelationshipSegmentDescription)
    (s : RelationshipSegment) : Prop :=
  exists d, descriptionFromSegment m s = Some d /\ segmentLinked d s.





(** * Properties *)

Example snake_example :
  @snake asciiCasing "Post_hasTag_Tag" = "post_has_tag_tag".
Proof. reflexivity. Qed.

Example camel_example :
  @camel asciiCasing "authored_by_user_id" = "authoredByUserId".
Proof. reflexivity. Qed.

Example tableName_example :
  @tableNameFromTypeName asciiCasing "Author" = "authors".
Proof. reflexivity. Qed.

(** ** Storage decision *)

Lemma segmentPairRequiresJoinTable_forallb (p : RelationshipSegmentPair) :
  segmentPairRequiresJoinTable p
  = forallb (fun s => isPlural (cardinality s)) (segmentsPresent p).
Proof.
  unfold segmentPairRequiresJoinTable, segmentsPresent.
  destruct (pair_in p), (pair_out p); simpl;
    rewrite ?andb_true_r; reflexivity.
Qed.

Lemma isPlural_true (c : Cardinality) : isPlural c = true <-> c = Plural.
Proof. destruct c; simpl; split; congruence. Qed.

(** C2. A pair requires a join table exactly when every segment it holds is
    plural; on the four pairs of the specification the answers are true,
    false, false and true. *)
Theorem segmentPairRequiresJoinTable_all_plural :
  (forall p : RelationshipSegmentPair,
      segmentPairRequiresJoinTable p = true
      <-> Forall (fun s => cardinality s = Plural) (segmentsPresent p))
  /\ (forall i o : RelationshipSegment,
         segmentPairRequiresJoinTable
           {| pair_in := Some (withCardinality Plural i);
              pair_out := Some (withCardinality Plural o) |} = true
         /\ segmentPairRequiresJoinTable
              {| pair_in := Some (withCardinality Singular i);
                 pair_out := Some (withCardinality Plural o) |} = false
         /\ segmentPairRequiresJoinTable
              {| pair_in := Some (withCardinality Singular i);
                 pair_out := None |} = false
         /\ segmentPairRequiresJoinTable
              {| pair_in := Some (withCardinality Plural i);
                 pair_out := None |} = true).
Proof.
  split.
  - intros p. rewrite segmentPairRequiresJoinTable_forallb.
    rewrite forallb_forall, Forall_forall.
    split; intros H s Hs.
    + apply isPlural_true, H, list_elem_of_In, Hs.
    + apply isPlural_true, H, list_elem_of_In, Hs.
  - intros i o. repeat split.
Qed.

(** ** Foreign-key placement *)

Section ForeignKeyPlacement.
Context {casing : Casing}.


End ForeignKeyPlacement.




(** ** Insertion-ordered dictionaries keep their keys distinct *)

Section OrderedDictFacts.
Context {V : Type}.
Implicit Types (m : list (string * V)) (k : string) (v : V).

Lemma dict_set_keys k v m k' :
  k' ∈ (dict_set k v m).*1 <-> k' = k \/ k' ∈ m.*1.
Proof.
  induction m as [| [k0 v0] m IH]; simpl.
  - rewrite list_elem_of_singleton, elem_of_nil. tauto.
  - destruct (String.eqb_spec k k0) as [-> | Hne]; simpl.
    + rewrite !elem_of_cons. tauto.
    + rewrite !elem_of_cons, IH. tauto.
Qed.

Lemma dict_set_NoDup k v m : NoDup m.*1 -> NoDup (dict_set k v m).*1.
Proof.
  induction m as [| [k0 v0] m IH]; simpl; intros Hnd.
  - apply NoDup_singleton.
  - apply NoDup_cons in Hnd as [Hnotin Hnd].
    destruct (String.eqb_spec k k0) as [-> | Hne]; simpl.
    + apply NoDup_cons; auto.
    + apply NoDup_cons. split; [| auto].
      rewrite dict_set_keys. intros [-> | Hin]; [congruence | auto].
Qed.
End OrderedDictFacts.

Lemma dict_get_key {V : Type} (k : string) (m : list (string * V)) (v : V) :
  dict_get k m = Some v -> k ∈ m.*1.
Proof.
  induction m as [| [k0 v0] m IH]; simpl; [discriminate |].
  destruct (String.eqb_spec k k0) as [-> | Hne]; intros H.
  - apply elem_of_cons. auto.
  - apply elem_of_cons. auto.
Qed.

Lemma dict_set_entries {V : Type} (k : string) (v : V) (m : list (string * V))
    (e : string * V) :
  e ∈ dict_set k v m -> e = (k, v) \/ e ∈ m.
Proof.
  induction m as [| [k0 v0] m IH]; simpl.
  - rewrite list_elem_of_singleton. auto.
  - destruct (String.eqb_spec k k0) as [-> | Hne];
      rewrite !elem_of_cons; intuition.
Qed.

(** ** One description per pairing signature *)

Section Symmetry.
Context {casing : Casing}.

Lemma groupSegment_keys segments :
  forall m : list (string * list RelationshipSegment),
    NoDup m.*1 ->
    NoDup (fold_left groupSegment segments m).*1
    /\ (forall k, k ∈ m.*1 -> k ∈ (fold_left groupSegment segments m).*1)
    /\ (forall s, s ∈ segments ->
          pairingSignatureFromRelationshipSegment s
            ∈ (fold_left groupSegment segments m).*1).
Proof.
  induction segments as [| s segments IH]; simpl; intros m Hnd.
  - split; [assumption |]. split; [auto |]. intros s Hs. inversion Hs.
  - destruct (IH (groupSegment m s)) as (Hnd' & Hkeep & Hnew).
    { apply dict_set_NoDup, Hnd. }
    split; [assumption |]. split.
    + intros k Hk. apply Hkeep. unfold groupSegment.
      apply dict_set_keys. auto.
    + intros s' Hs'. apply elem_of_cons in Hs' as [-> | Hs'].
      * apply Hkeep. unfold groupSegment. apply dict_set_keys. auto.
      * apply Hnew, Hs'.
Qed.

Lemma describeSegments_signature entry d :
  describeSegments entry = Ok d -> signature d = entry.1.
Proof.
  destruct entry as [sig matching]. unfold describeSegments.
  destruct (segmentPairRequiresJoinTable _).
  - destruct (joinTableDescriptionFromRelationshipSegmentPair _);
      simpl; intros H; inversion H; reflexivity.
  - destruct (foreignKeyDescriptionFromRelationshipSegmentPair _);
      simpl; intros H; inversion H; reflexivity.
Qed.

Lemma mapM_describeSegments_signatures entries :
  forall ds, mapM describeSegments entries = Ok ds ->
             signature <$> ds = entries.*1.
Proof.
  induction entries as [| entry entries IH]; simpl; intros ds H.
  - inversion H. reflexivity.
  - destruct (describeSegments entry) as [d |] eqn:Hd; simpl in H; [| discriminate].
    destruct (mapM describeSegments entries) as [ds' |]; simpl in H; [| discriminate].
    inversion H; subst. rewrite !fmap_cons. f_equal.
    + apply describeSegments_signature, Hd.
    + apply IH. reflexivity.
Qed.

Lemma segmentDescriptions_signatures relationships ds :
  segmentDescriptionsFromRelationships relationships = Ok ds ->
  NoDup (signature <$> ds)
  /\ forall s, s ∈ flattenedUniqueSegmentsFromRelationships relationships ->
               pairingSignatureFromRelationshipSegment s ∈ signature <$> ds.
Proof.
  unfold segmentDescriptionsFromRelationships. intros H.
  apply mapM_describeSegments_signatures in H. rewrite H.
  destruct (groupSegment_keys
              (flattenedUniqueSegmentsFromRelationships relationships) [])
    as (Hnd & _ & Hnew).
  { apply NoDup_nil_2. }
  split; assumption.
Qed.
End Symmetry.

Lemma keyMap_snoc {A : Type} (items : list A) (x : A) (getKey : A -> string) :
  keyMap (items ++ [x]) getKey = <[getKey x := x]> (keyMap items getKey).
Proof. unfold keyMap. rewrite fold_left_app. reflexivity. Qed.

Lemma keyMap_lookup {A : Type} (getKey : A -> string) (items : list A) :
  NoDup (getKey <$> items) ->
  forall x, x ∈ items -> keyMap items getKey !! getKey x = Some x.
Proof.
  induction items as [| y items IH] using rev_ind; intros Hnd x Hx.
  - inversion Hx.
  - rewrite keyMap_snoc. rewrite fmap_app in Hnd.
    apply NoDup_app in Hnd as (Hnd & Hdisj & _).
    apply elem_of_app in Hx as [Hx | Hx].
    + rewrite lookup_insert_ne; [apply IH; assumption |].
      intros Heq. apply (Hdisj (getKey x)).
      * apply list_elem_of_fmap. eauto.
      * rewrite <- Heq. simpl. apply list_elem_of_singleton. reflexivity.
    + apply list_elem_of_singleton in Hx as ->. apply lookup_insert_eq.
Qed.

(** ** Declared segments and their descriptions *)

Lemma append_cons (c : ascii) (a b : string) :
  String c a +:+ b = String c (a +:+ b).
Proof. reflexivity. Qed.

Lemma append_nil (b : string) : "" +:+ b = b.
Proof. reflexivity. Qed.

(** A name without the separator is recovered from the text it starts. *)
Lemma separator_split (a a' b b' : string) :
  pipeFree a = true -> pipeFree a' = true ->
  a +:+ "|" +:+ b = a' +:+ "|" +:+ b' ->
  a = a' /\ b = b'.
Proof.
  revert a'. induction a as [| c a IH]; intros [| c' a'] Ha Ha' Heq.
  - rewrite !append_nil, !append_cons, !append_nil in Heq.
    inversion Heq. auto.
  - rewrite !append_nil, !append_cons, !append_nil in Heq.
    inversion Heq; subst. cbn in Ha'. discriminate.
  - rewrite !append_nil, !append_cons, !append_nil in Heq.
    inversion Heq; subst. cbn in Ha. discriminate.
  - rewrite !append_cons in Heq. inversion Heq; subst.
    cbn in Ha, Ha'. apply andb_true_iff in Ha as [_ Ha].
    apply andb_true_iff in Ha' as [_ Ha'].
    destruct (IH a' Ha Ha') as [-> ->]; auto.
Qed.

Section Declared.
Context {casing : Casing}.

Lemma identity_determines_pairing (s s' : RelationshipSegment) :
  wellNamed s = true -> wellNamed s' = true ->
  identitySignatureFromRelationshipSegment s
  = identitySignatureFromRelationshipSegment s' ->
  pairingSignatureFromRelationshipSegment s
  = pairingSignatureFromRelationshipSegment s'.
Proof.
  unfold wellNamed, identitySignatureFromRelationshipSegment,
    pairingSignatureFromRelationshipSegment.
  intros Hs Hs' Heq.
  apply andb_true_iff in Hs as [Hs Hl]. apply andb_true_iff in Hs as [Hf Ht].
  apply andb_true_iff in Hs' as [Hs' Hl'].
  apply andb_true_iff in Hs' as [Hf' Ht'].
  apply separator_split in Heq as [Hfrom Heq]; [| assumption ..].
  apply separator_split in Heq as [Hto Heq]; [| assumption ..].
  assert (label s = label s' /\ direction s = direction s') as [Hlabel Hdir].
  { revert Heq. generalize (label s) (label s') Hl Hl'. clear.
    intros a a' Ha Ha' Heq.
    assert (a +:+ "|" +:+ directionString (direction s)
            = a' +:+ "|" +:+ directionString (direction s')) as Heq' by exact Heq.
    apply separator_split in Heq' as [-> Hd]; [| assumption ..].
    split; [reflexivity |].
    destruct (direction s), (direction s'); try reflexivity; discriminate. }
  rewrite Hfrom, Hto, Hlabel, Hdir. reflexivity.
Qed.

Lemma recordSegment_fold (segments : list RelationshipSegment) :
  forall m : list (string * RelationshipSegment),
    (forall k, k ∈ m.*1 -> k ∈ (fold_left recordSegment segments m).*1)
    /\ (forall s, s ∈ segments ->
          identitySignatureFromRelationshipSegment s
            ∈ (fold_left recordSegment segments m).*1)
    /\ (forall e, e ∈ fold_left recordSegment segments m ->
          e ∈ m
          \/ (e.2 ∈ segments
              /\ identitySignatureFromRelationshipSegment e.2 = e.1)).
Proof.
  induction segments as [| s segments IH]; intros m; cbn [fold_left].
  - split; [auto |]. split; [| auto]. intros s Hs. inversion Hs.
  - destruct (IH (recordSegment m s)) as (Hkeep & Hnew & Hentries).
    assert (forall k, k ∈ m.*1 -> k ∈ (recordSegment m s).*1) as Hmono.
    { intros k Hk. unfold recordSegment.
      destruct (dict_get _ m) as [existing |]; [destruct (negb _) |];
        try apply dict_set_keys; auto. }
    assert (identitySignatureFromRelationshipSegment s
              ∈ (recordSegment m s).*1) as Hs.
    { unfold recordSegment.
      destruct (dict_get _ m) as [existing |] eqn:Hget;
        [destruct (negb _) |]; try (apply dict_set_keys; auto).
      eapply dict_get_key, Hget. }
    split; [auto |]. split.
    + intros s' Hs'. apply elem_of_cons in Hs' as [-> | Hs']; auto.
    + intros e He. destruct (Hentries e He) as [Hm | [Hin Hsig]].
      * assert (e = (identitySignatureFromRelationshipSegment s, s) \/ e ∈ m)
          as [-> | Hold]; [| right; split; [left | reflexivity] | auto].
        unfold recordSegment in Hm.
        destruct (dict_get _ m) as [existing |]; [destruct (negb _) |];
          auto using dict_set_entries.
      * right. split; [right; assumption | assumption].
Qed.

Lemma flattened_fold (relationships : list Relationship) :
  forall m,
    fold_left (fun m relationship => fold_left recordSegment (path relationship) m)
      relationships m
    = fold_left recordSegment (declaredSegments relationships) m.
Proof.
  unfold declaredSegments.
  induction relationships as [| r relationships IH]; intros m; [reflexivity |].
  cbn [fold_left map concat]. rewrite fold_left_app. apply IH.
Qed.

(** A declared segment survives flattening, or a declared segment with the
    same identity signature does. *)
Lemma declared_survives (relationships : list Relationship)
    (s : RelationshipSegment) :
  s ∈ declaredSegments relationships ->
  exists s',
    s' ∈ flattenedUniqueSegmentsFromRelationships relationships
    /\ s' ∈ declaredSegments relationships
    /\ identitySignatureFromRelationshipSegment s'
       = identitySignatureFromRelationshipSegment s.
Proof.
  intros Hs. unfold flattenedUniqueSegmentsFromRelationships.
  rewrite flattened_fold.
  destruct (recordSegment_fold (declaredSegments relationships) [])
    as (_ & Hnew & Hentries).
  apply Hnew, list_elem_of_fmap in Hs as ([k s'] & Hk & He).
  destruct (Hentries _ He) as [Hnil | [Hin Hsig]]; [inversion Hnil |].
  exists s'. split; [| split; [exact Hin |]].
  - apply list_elem_of_In, in_map_iff. exists (k, s'). split; [reflexivity |].
    apply list_elem_of_In, He.
  - simpl in *. congruence.
Qed.
End Declared.

Lemma opposite_pairingSignature (s1 s2 : RelationshipSegment) :
  opposite s1 s2 ->
  pairingSignatureFromRelationshipSegment s1
  = pairingSignatureFromRelationshipSegment s2.
Proof.
  intros (Hlabel & Hfrom & Hto & Hdir).
  unfold pairingSignatureFromRelationshipSegment.
  destruct (direction s1), (direction s2); try congruence;
    rewrite Hlabel, Hfrom, Hto; reflexivity.
Qed.

(** C3. Two declarations of one relationship from opposite endpoints have
    the same pairing signature and are looked up as the same description in
    every description map.  The segment resolver returns at most one
    description per signature; when either declaration survives flattening,
    or is declared at all among segments whose names are free of the
    separator, exactly one description carries their signature and both
    declarations resolve to it. *)
Theorem opposite_segments_one_description
    (casing : Casing) (s1 s2 : RelationshipSegment) :
  opposite s1 s2 ->
  pairingSignatureFromRelationshipSegment s1
  = pairingSignatureFromRelationshipSegment s2
  /\ (forall m : gmap string RelationshipSegmentDescription,
         descriptionFromSegment m s1 = descriptionFromSegment m s2)
  /\ (forall relationships ds,
         segmentDescriptionsFromRelationships relationships = Ok ds ->
         let resolved :=
           exists d,
             d ∈ ds
             /\ signature d = pairingSignatureFromRelationshipSegment s1
             /\ (forall d', d' ∈ ds -> signature d' = signature d -> d' = d)
             /\ descriptionFromSegment (keyMap ds signature) s1 = Some d
             /\ descriptionFromSegment (keyMap ds signature) s2 = Some d in
         NoDup (signature <$> ds)
         /\ (s1 ∈ flattenedUniqueSegmentsFromRelationships relationships
             \/ s2 ∈ flattenedUniqueSegmentsFromRelationships relationships ->
             resolved)
         /\ (Forall (fun s => wellNamed s = true)
               (declaredSegments relationships) ->
             s1 ∈ declaredSegments relationships
             \/ s2 ∈ declaredSegments relationships ->
             resolved)).
Proof.
  intros Hopp. pose proof (opposite_pairingSignature _ _ Hopp) as Hsig.
  split; [assumption |]. split.
  { intros m. unfold descriptionFromSegment. rewrite Hsig. reflexivity. }
  intros relationships ds Hds resolved.
  destruct (segmentDescriptions_signatures _ _ Hds) as [Hnd Hall].
  assert (forall s,
             s ∈ flattenedUniqueSegmentsFromRelationships relationships ->
             pairingSignatureFromRelationshipSegment s
             = pairingSignatureFromRelationshipSegment s1 ->
             resolved) as Hcore.
  { intros s Hs Hsame. apply Hall in Hs. rewrite Hsame in Hs.
    apply list_elem_of_fmap in Hs as (d & Hd & Hdin).
    exists d. split; [assumption |]. split; [congruence |].
    pose proof (keyMap_lookup signature ds Hnd) as Hlookup.
    split.
    { intros d' Hd' Heq. pose proof (Hlookup d' Hd') as H'.
      rewrite Heq, (Hlookup d Hdin) in H'. congruence. }
    unfold descriptionFromSegment. rewrite <- Hsig, Hd. auto. }
  split; [assumption |]. split.
  - intros [H | H]; [apply (Hcore s1 H eq_refl) | apply (Hcore s2 H); auto].
  - intros Hnames Hdeclared.
    assert (exists s, s ∈ declaredSegments relationships
                      /\ pairingSignatureFromRelationshipSegment s
                         = pairingSignatureFromRelationshipSegment s1)
      as (s & Hs & Hsame).
    { destruct Hdeclared as [H | H]; eauto. }
    destruct (declared_survives relationships s Hs) as (s' & Hflat & Hdecl & Hid).
    rewrite Forall_forall in Hnames.
    apply (Hcore s' Hflat). rewrite <- Hsame.
    apply identity_determines_pairing; auto.
Qed.

Lemma opposite_segments_one_description_witness :
  let s1 := {| fromType := "Post"; toType := "User"; label := "AUTHORED";
               direction := DirIn; cardinality := Singular; nonNull := true |} in
  let s2 := {| fromType := "User"; toType := "Post"; label := "AUTHORED";
               direction := DirOut; cardinality := Plural; nonNull := false |} in
  let relationships :=
    [ {| fieldName := "author"; rel_cardinality := Singular; path := [s1] |};
      {| fieldName := "posts"; rel_cardinality := Plural; path := [s2] |} ] in
  opposite s1 s2
  /\ pairingSignatureFromRelationshipSegment s2 = "User|AUTHORED|Post"
  /\ exists ds d,
      @segmentDescriptionsFromRelationships asciiCasing relationships = Ok ds
      /\ ds = [d]
      /\ descriptionFromSegment (keyMap ds signature) s1 = Some d
      /\ descriptionFromSegment (keyMap ds signature) s2 = Some d.
Proof.
  intros s1 s2 relationships.
  assert (opposite s1 s2) as Hopp.
  { unfold opposite; simpl. repeat split; congruence. }
  destruct (opposite_segments_one_description asciiCasing s1 s2 Hopp)
    as (Hsig & _ & Hres).
  split; [exact Hopp |]. split; [reflexivity |].
  destruct (Hres relationships _ eq_refl) as (_ & Hone & _).
  destruct Hone as (d & Hd & _ & _ & H1 & H2).
  { left. apply list_elem_of_In. simpl. auto. }
  eexists. exists d. split; [reflexivity |]. split; [| split; assumption].
  apply list_elem_of_singleton in Hd. congruence.
Defined.

(** ** Join compaction *)

Lemma compactJoinsFrom_drop (rounds : nat) :
  forall (joins : list Join) (i : nat) (compacted : list Join),
    length joins - i <= rounds ->
    compactJoinsFrom rounds joins i compacted
    = compacted ++ compactJoins_rec (drop i joins).
Proof.
  induction rounds as [| rounds IH]; intros joins i compacted Hrounds; simpl.
  - rewrite drop_ge by lia. rewrite app_nil_r. reflexivity.
  - destruct (joins !! i) as [join |] eqn:Hjoin.
    + pose proof (lookup_lt_Some _ _ _ Hjoin) as Hlt.
      rewrite (drop_S _ _ _ Hjoin). rewrite Nat.add_1_r.
      destruct (joins !! S i) as [next |] eqn:Hnext.
      * rewrite (drop_S _ _ _ Hnext). simpl.
        destruct (collapsible join next).
        -- rewrite Nat.add_1_r, IH by lia. rewrite <- app_assoc. reflexivity.
        -- rewrite IH by lia. rewrite (drop_S _ _ _ Hnext), <- app_assoc.
           reflexivity.
      * rewrite IH by lia. apply lookup_ge_None in Hnext.
        rewrite drop_ge by lia. rewrite <- app_assoc. reflexivity.
    + apply lookup_ge_None in Hjoin. rewrite drop_ge by lia.
      rewrite app_nil_r. reflexivity.
Qed.

(** The loop visits every join: it agrees with the recursive scan. *)
Lemma compactJoins_unfold (joins : list Join) :
  compactJoins joins = compactJoins_rec joins.
Proof.
  unfold compactJoins. rewrite compactJoinsFrom_drop by lia. reflexivity.
Qed.

(** Induction along the scan: a collapsed pair skips two joins, a kept join
    one. *)
Lemma compactJoins_rec_ind (P : list Join -> Prop) :
  P [] ->
  (forall j, P [j]) ->
  (forall j n rest, collapsible j n = true -> P rest -> P (j :: n :: rest)) ->
  (forall j n rest, collapsible j n = false -> P (n :: rest) -> P (j :: n :: rest)) ->
  forall joins, P joins.
Proof.
  intros Hnil Hone Hcollapse Hkeep joins.
  assert (P joins /\ forall j, P (j :: joins)) as [H _]; [| exact H].
  induction joins as [| n rest [IHrest IHcons]].
  - split; [exact Hnil | exact Hone].
  - split; [apply IHcons |].
    intros j. destruct (collapsible j n) eqn:Hc.
    + apply Hcollapse; assumption.
    + apply Hkeep; [assumption | apply IHcons].
Qed.

Lemma collapsible_collapse_l (j n x : Join) :
  collapsible (collapse j n) x = collapsible n x.
Proof. reflexivity. Qed.

(** The first compacted join keeps the right endpoint of the first join. *)
Lemma compactJoins_rec_head (j : Join) (rest : list Join) :
  exists x t,
    compactJoins_rec (j :: rest) = x :: t
    /\ cond_right (condition x) = cond_right (condition j).
Proof.
  destruct rest as [| n rest]; simpl.
  - eauto.
  - destruct (collapsible j n); eauto.
Qed.

Lemma collapsible_head (y j : Join) (rest : list Join) x t :
  compactJoins_rec (j :: rest) = x :: t ->
  collapsible y x = collapsible y j.
Proof.
  intros H. destruct (compactJoins_rec_head j rest) as (x' & t' & Hx & Hr).
  rewrite H in Hx. inversion Hx; subst.
  unfold collapsible. rewrite Hr. reflexivity.
Qed.

Lemma hasChain_tail (j : Join) (joins : list Join) :
  hasChain (j :: joins) = false -> hasChain joins = false.
Proof.
  destruct joins as [| n [| r rest]]; try reflexivity.
  cbn [hasChain]. intros H. apply orb_false_iff in H as [_ H]. exact H.
Qed.

Lemma compactJoins_rec_cons (j n : Join) (rest : list Join) :
  compactJoins_rec (j :: n :: rest)
  = if collapsible j n
    then collapse j n :: compactJoins_rec rest
    else j :: compactJoins_rec (n :: rest).
Proof. reflexivity. Qed.

Lemma compactJoins_rec_no_chain (js : list Join) :
  hasChain js = false ->
  compactJoins_rec (compactJoins_rec js) = compactJoins_rec js.
Proof.
  induction js as [| j | j n rest Hc IH | j n rest Hc IH]
    using compactJoins_rec_ind; intros Hchain; try reflexivity.
  - rewrite (compactJoins_rec_cons j n rest), Hc.
    destruct rest as [| r rest]; [reflexivity |].
    assert (collapsible n r = false) as Hnr.
    { cbn [hasChain] in Hchain. rewrite Hc in Hchain.
      apply orb_false_iff in Hchain as [H _]. exact H. }
    specialize (IH (hasChain_tail _ _ (hasChain_tail _ _ Hchain))).
    destruct (compactJoins_rec_head r rest) as (x & t & Hx & _).
    pose proof (collapsible_head n _ _ _ _ Hx) as Hnx.
    rewrite Hx in IH |- *.
    rewrite compactJoins_rec_cons, collapsible_collapse_l, Hnx, Hnr, IH.
    reflexivity.
  - rewrite (compactJoins_rec_cons j n rest), Hc.
    specialize (IH (hasChain_tail _ _ Hchain)).
    destruct (compactJoins_rec_head n rest) as (x & t & Hx & _).
    pose proof (collapsible_head j _ _ _ _ Hx) as Hjx.
    rewrite Hx in IH |- *.
    rewrite compactJoins_rec_cons, Hjx, Hc, IH. reflexivity.
Qed.

Lemma compactJoins_rec_length (js : list Join) :
  length (compactJoins_rec js) <= length js.
Proof.
  induction js as [| j | j n rest Hc IH | j n rest Hc IH]
    using compactJoins_rec_ind; try (simpl; lia).
  - rewrite compactJoins_rec_cons, Hc. simpl. lia.
  - rewrite compactJoins_rec_cons, Hc. simpl in *. lia.
Qed.

Lemma compactJoins_rec_shrinks (js : list Join) :
  hasCollapsiblePair js = true ->
  length (compactJoins_rec js) < length js.
Proof.
  induction js as [| j | j n rest Hc IH | j n rest Hc IH]
    using compactJoins_rec_ind; try discriminate.
  - intros _. rewrite compactJoins_rec_cons, Hc.
    pose proof (compactJoins_rec_length rest). simpl. lia.
  - intros H. rewrite compactJoins_rec_cons, Hc.
    cbn [hasCollapsiblePair] in H. rewrite Hc in H.
    specialize (IH H). simpl in *. lia.
Qed.

Lemma compactJoins_rec_fixed (js : list Join) :
  hasCollapsiblePair js = false -> compactJoins_rec js = js.
Proof.
  induction js as [| j | j n rest Hc IH | j n rest Hc IH]
    using compactJoins_rec_ind; try reflexivity.
  - intros H. cbn [hasCollapsiblePair] in H. rewrite Hc in H. discriminate.
  - intros H. rewrite compactJoins_rec_cons, Hc.
    cbn [hasCollapsiblePair] in H. rewrite Hc in H. rewrite (IH H).
    reflexivity.
Qed.

Lemma compactJoins_rec_chain (js : list Join) :
  hasChain js = true -> hasCollapsiblePair (compactJoins_rec js) = true.
Proof.
  induction js as [| j | j n rest Hc IH | j n rest Hc IH]
    using compactJoins_rec_ind; try discriminate.
  - intros Hchain. rewrite compactJoins_rec_cons, Hc.
    destruct rest as [| r rest]; [discriminate |].
    destruct (compactJoins_rec_head r rest) as (x & t & Hx & _).
    pose proof (collapsible_head n _ _ _ _ Hx) as Hnx.
    rewrite Hx in IH |- *. cbn [hasCollapsiblePair].
    rewrite collapsible_collapse_l, Hnx.
    destruct (collapsible n r) eqn:Hnr; [reflexivity |].
    apply IH. cbn [hasChain] in Hchain. rewrite Hc, Hnr in Hchain.
    destruct rest as [| r' rest]; [discriminate |]. exact Hchain.
  - intros Hchain.
    rewrite compactJoins_rec_cons, Hc.
    destruct (compactJoins_rec_head n rest) as (x & t & Hx & _).
    pose proof (collapsible_head j _ _ _ _ Hx) as Hjx.
    rewrite Hx in IH |- *. cbn [hasCollapsiblePair]. rewrite Hjx, Hc.
    apply IH. destruct rest as [| r rest]; [discriminate |].
    cbn [hasChain] in Hchain. rewrite Hc in Hchain. exact Hchain.
Qed.

(** C7, as amended.  Compacting twice gives the same list as compacting
    once exactly for the join lists without three consecutive joins of
    which the first collapses into the second and the second into the
    third; and compaction leaves a list unchanged exactly when no join of
    it collapses into its successor. *)
Theorem compactJoins_idempotent_without_chain :
  forall js : list Join,
    (compactJoins (compactJoins js) = compactJoins js <-> hasChain js = false)
    /\ (compactJoins js = js <-> hasCollapsiblePair js = false).
Proof.
  intros js. rewrite !compactJoins_unfold. split; split.
  - intros Hidem. destruct (hasChain js) eqn:Hchain; [| reflexivity].
    pose proof (compactJoins_rec_shrinks _ (compactJoins_rec_chain _ Hchain)) as H.
    rewrite Hidem in H. lia.
  - apply compactJoins_rec_no_chain.
  - intros Hfixed. destruct (hasCollapsiblePair js) eqn:Hpair; [| reflexivity].
    pose proof (compactJoins_rec_shrinks _ Hpair) as H.
    rewrite Hfixed in H. lia.
  - apply compactJoins_rec_fixed.
Qed.

(** C7 as worded fails on the joins planned for the path
    Author -wrote-> Post <-on- Comment -on-> Post, three joins each linking
    up with the next.  The first pass collapses the first two and keeps the
    third; a second pass collapses what is left. *)
Lemma compactJoins_not_idempotent :
  let js :=
    [ mkJoin "comments" "comments" "on_post_id" "posts" "id";
      mkJoin "posts" "posts" "id" "comments" "on_post_id";
      mkJoin "author_wrote_posts" "author_wrote_posts" "wrote_post_id"
        "posts" "id" ] in
  (m ← @segmentDescriptionsBySignature asciiCasing [coAuthoredPosts];
   @joinsFromPath asciiCasing m (path coAuthoredPosts)) = Ok js
  /\ compactJoins js
     = [ mkJoin "posts" "posts" "id" "posts" "id";
         mkJoin "author_wrote_posts" "author_wrote_posts" "wrote_post_id"
           "posts" "id" ]
  /\ compactJoins (compactJoins js)
     = [ mkJoin "author_wrote_posts" "author_wrote_posts" "wrote_post_id"
           "posts" "id" ]
  /\ compactJoins (compactJoins js) <> compactJoins js.
Proof.
  split; [vm_compute; reflexivity |]. repeat split. discriminate.
Qed.

(** ** The two-hop path through join tables *)

Lemma append_assoc (a b c : string) : (a +:+ b) +:+ c = a +:+ (b +:+ c).
Proof.
  induction a as [| x a IH]; [reflexivity |].
  change (String x ((a +:+ b) +:+ c) = String x (a +:+ (b +:+ c))).
  rewrite IH. reflexivity.
Qed.

Section TwoHops.
Context {casing : Casing}.

Lemma authorTags_descriptions (n1 n2 : bool) :
  segmentDescriptionsFromRelationships [authorTags n1 n2]
  = Ok [joinDescriptionOf (wrote n1); joinDescriptionOf (hasTag n2)].
Proof. reflexivity. Qed.

Lemma authorTags_lookup (n1 n2 : bool) :
  let m :=
    keyMap [joinDescriptionOf (wrote n1); joinDescriptionOf (hasTag n2)]
      signature in
  descriptionFromSegment m (wrote n1) = Some (joinDescriptionOf (wrote n1))
  /\ descriptionFromSegment m (hasTag n2)
     = Some (joinDescriptionOf (hasTag n2)).
Proof.
  unfold descriptionFromSegment, keyMap. simpl. split.
  - rewrite lookup_insert_ne by discriminate. apply lookup_insert_eq.
  - apply lookup_insert_eq.
Qed.

Lemma authorTags_joinsFromPath (n1 n2 : bool) :
  joinsFromPath
    (keyMap [joinDescriptionOf (wrote n1); joinDescriptionOf (hasTag n2)]
       signature)
    [wrote n1; hasTag n2]
  = Ok authorTagsJoins.
Proof.
  destruct (authorTags_lookup n1 n2) as [H1 H2].
  unfold joinsFromPath, joinsFromSegments, joinsFromSegment,
    joinsFromInitialSegment.
  cbn [tail head rev app mapM mbind Result_bind defined]. rewrite H1, H2.
  unfold authorTagsJoins. cbn.
  destruct (String.eqb _ _); reflexivity.
Qed.

Lemma authorTagsJoins_compact :
  exists a b, compactJoins authorTagsJoins = [a; b].
Proof.
  unfold authorTagsJoins. rewrite compactJoins_unfold.
  destruct (String.eqb_spec (tableNameFromTypeName "Tag")
              (tableNameFromTypeName "Post")) as [Htables | Htables];
    cbn [app]; rewrite compactJoins_rec_cons;
    unfold collapsible at 1, ColumnRef_eqb; cbn [mkJoin condition cond_left
      cond_right ref_tbl ref_col];
    rewrite String.eqb_refl, andb_true_l;
    match goal with
    | |- context [String.eqb ?x ?y] => destruct (String.eqb x y)
    end; try (eexists; eexists; reflexivity);
    rewrite compactJoins_rec_cons;
    unfold collapsible, ColumnRef_eqb; cbn [mkJoin condition cond_left
      cond_right ref_tbl ref_col];
    rewrite ?Htables, !String.eqb_refl; eexists; eexists; reflexivity.
Qed.
(** With distinct tables for Tag and Post and distinct columns in the
    association table, the first join reaches the association table of the
    second hop from the tags and the second reaches the association table
    of the first hop directly from it: the join of the posts is gone. *)
Lemma authorTagsJoins_compact_distinct :
  tableNameFromTypeName "Tag" <> tableNameFromTypeName "Post" ->
  snake "hasTag_Tag_id" <> snake "Post_id" ->
  compactJoins authorTagsJoins
  = [ mkJoin (tableNameFromTypeName "Post_hasTag_Tag")
        (tableNameFromTypeName "Post_hasTag_Tag") (snake "hasTag_Tag_id")
        (tableNameFromTypeName "Tag") "id";
      mkJoin (tableNameFromTypeName "Author_wrote_Post")
        (tableNameFromTypeName "Author_wrote_Post") (snake "wrote_Post_id")
        (tableNameFromTypeName "Post_hasTag_Tag") (snake "Post_id") ].
Proof.
  intros Htables Hcolumns. unfold authorTagsJoins.
  rewrite compactJoins_unfold.
  destruct (String.eqb_spec (tableNameFromTypeName "Tag")
              (tableNameFromTypeName "Post")) as [Heq | _]; [congruence |].
  cbn [app]. rewrite compactJoins_rec_cons.
  unfold collapsible at 1, ColumnRef_eqb.
  cbn [mkJoin condition cond_left cond_right ref_tbl ref_col].
  destruct (String.eqb_spec (snake "hasTag_Tag_id") (snake "Post_id"))
    as [Heq | _]; [congruence |].
  rewrite andb_false_r, compactJoins_rec_cons.
  unfold collapsible, ColumnRef_eqb.
  cbn [mkJoin condition cond_left cond_right ref_tbl ref_col].
  rewrite !String.eqb_refl. reflexivity.
Qed.
End TwoHops.

(** C6. Compiling the path Author -wrote-> Post -hasTag-> Tag over two join
    tables yields a query with exactly two joins after compaction and the
    single condition [= ANY ($1)] on the association table of the first
    hop; the rendered statement consists of the two JOIN clauses followed
    by that one WHERE condition.  With the ASCII casing the statement is
    the literal text below, in which JOIN occurs twice and WHERE and
    [= ANY ($1)] once. *)
Theorem two_hop_query_two_joins :
  (forall (casing : Casing) (n1 n2 : bool),
      exists m q a b,
        segmentDescriptionsBySignature [authorTags n1 n2] = Ok m
        /\ queryFromRelationship m (authorTags n1 n2) = Ok q
        /\ joins q = [a; b]
        /\ conditions q
           = [ {| cond_table := tableNameFromTypeName "Author_wrote_Post";
                  cond_column := snake "Author_id";
                  operator := "=";
                  cond_value := "ANY ($1)" |} ]
        /\ sqlStringFromQuery q
           = "SELECT " +:+ tableNameFromTypeName "Tag" +:+ ".* FROM "
               +:+ tableNameFromTypeName "Tag"
               +:+ joinString a +:+ joinString b
               +:+ " WHERE " +:+ tableNameFromTypeName "Author_wrote_Post"
               +:+ "." +:+ snake "Author_id" +:+ " = ANY ($1);")
  /\ (forall n1 n2 : bool,
         let sql :=
           "SELECT tags.* FROM tags JOIN post_has_tag_tags ON post_has_tag_tags.has_tag_tag_id = tags.id JOIN author_wrote_posts ON author_wrote_posts.wrote_post_id = post_has_tag_tags.post_id WHERE author_wrote_posts.author_id = ANY ($1);" in
         (m ← @segmentDescriptionsBySignature asciiCasing [authorTags n1 n2];
          @sqlQueryFromRelationship asciiCasing m (authorTags n1 n2)) = Ok sql
         /\ countOccurrences "JOIN" sql = 2
         /\ countOccurrences "WHERE" sql = 1
         /\ countOccurrences "= ANY ($1)" sql = 1).
Proof.
  split.
  - intros casing n1 n2.
    destruct (authorTags_lookup n1 n2) as [H1 _].
    destruct authorTagsJoins_compact as (a & b & Hab).
    eexists. eexists. exists a, b. split.
    { unfold segmentDescriptionsBySignature.
      rewrite authorTags_descriptions. reflexivity. }
    split.
    { unfold queryFromRelationship.
      cbn [path authorTags last head mbind Result_bind defined].
      rewrite authorTags_joinsFromPath. cbn [mbind Result_bind].
      unfold conditionFromSegment. rewrite H1, Hab. reflexivity. }
    split; [reflexivity |]. split; [reflexivity |].
    unfold sqlStringFromQuery, conditionString.
    cbn [query_table joins conditions order limit map joinStrings
           cond_table cond_column operator cond_value
           storage joinDescriptionOf joinTableFor jt_name leftColumnName
           wrote fromType toType label].
    rewrite !append_assoc. reflexivity.
  - intros n1 n2 sql. destruct n1, n2; vm_compute; repeat split.
Qed.

(** ** Connection arguments *)

Section Pagination.
Context {casing : Casing}.

Lemma applyConnectionArgs_guard (q : Query) (args : ConnectionArguments) :
  applyConnectionArgs q args
  = if pagesForward args && pagesBackward args
    then Failed "forward and reverse pagination arguments should not be combined"
    else
      Ok {| query_table := query_table q;
            joins := joins q;
            conditions :=
              conditions q
                ++ match arg_after args, arg_before args with
                   | Some _, _ => [cursorBound (query_table q) (orderColumn args) ">"]
                   | None, Some _ =>
                       [cursorBound (query_table q) (orderColumn args) "<"]
                   | None, None => []
                   end;
            limit :=
              match arg_first args with
              | Some n => Some n
              | None => arg_last args
              end;
            order :=
              Some {| order_column := orderColumn args;
                      order_direction :=
                        if pagesBackward args then DESC else ASC |};
            batched := None |}.
Proof.
  unfold applyConnectionArgs, pagesForward, pagesBackward, orderColumn,
    cursorBound.
  destruct (arg_first args), (arg_after args), (arg_last args),
    (arg_before args); cbn; rewrite ?app_nil_r; reflexivity.
Qed.
End Pagination.

(** C5. [applyConnectionArgs] fails exactly when a forward argument comes
    together with a backward one; the loader of a connection then fails
    with the same error without rendering or executing any statement. *)
Theorem applyConnectionArgs_rejects_mixed_paging
    (casing : Casing) (q : Query) (args : ConnectionArguments) :
  isFailed (applyConnectionArgs q args) = pagesForward args && pagesBackward args
  /\ (pagesForward args && pagesBackward args = true ->
      forall (query : string -> list Param -> DB (list Row)) (key : string)
             (log : list Statement),
        loadConnection query q key args log
        = (Failed "forward and reverse pagination arguments should not be combined",
           log)).
Proof.
  rewrite applyConnectionArgs_guard. split.
  - destruct (pagesForward args && pagesBackward args); reflexivity.
  - intros Hmixed query key log. unfold loadConnection.
    rewrite applyConnectionArgs_guard, Hmixed. reflexivity.
Qed.

Lemma applyConnectionArgs_rejects_mixed_paging_witness :
  let q := {| query_table := "posts"; joins := [];
              conditions := [ {| cond_table := "posts";
                                 cond_column := "authored_by_user_id";
                                 operator := "="; cond_value := "ANY ($1)" |} ];
              limit := None; order := None; batched := Some true |} in
  let args := {| arg_first := Some 2%Z; arg_last := Some 3%Z;
                 arg_before := None; arg_after := None; arg_order := None |} in
  pagesForward args && pagesBackward args = true
  /\ isFailed (@applyConnectionArgs asciiCasing q args) = true
  /\ @loadConnection asciiCasing (fun _ _ => mret []) q "k" args []
     = (Failed "forward and reverse pagination arguments should not be combined",
        []).
Proof.
  intros q args.
  destruct (applyConnectionArgs_rejects_mixed_paging asciiCasing q args)
    as [Hfail Hload].
  split; [reflexivity |]. split; [exact Hfail |].
  apply Hload. reflexivity.
Defined.

(** C8. For accepted arguments: the order column is [seq] unless an order
    field is given (then its snake-cased name); the direction is descending
    when [last] or [before] is supplied and ascending otherwise; the limit
    is [first] or [last], whichever is supplied, and absent if neither is;
    [after] appends exactly one condition with operator [>] and [before]
    exactly one with operator [<], each comparing the order column with the
    subquery that reads this column in the cursor's row; without a cursor
    the conditions are unchanged.  Table and joins are carried over. *)
Theorem applyConnectionArgs_accepted
    (casing : Casing) (q paged : Query) (args : ConnectionArguments) :
  applyConnectionArgs q args = Ok paged ->
  (exists direction,
      order paged
      = Some {| order_column := orderColumn args; order_direction := direction |}
      /\ (direction = DESC
          <-> is_Some (arg_last args) \/ is_Some (arg_before args))
      /\ (direction = ASC
          <-> arg_last args = None /\ arg_before args = None))
  /\ (arg_order args = None -> orderColumn args = "seq")
  /\ (forall field, arg_order args = Some field -> orderColumn args = snake field)
  /\ (forall n, arg_first args = Some n -> limit paged = Some n)
  /\ (forall n, arg_last args = Some n -> limit paged = Some n)
  /\ (arg_first args = None -> arg_last args = None -> limit paged = None)
  /\ (is_Some (arg_after args) ->
      conditions paged
      = conditions q ++ [cursorBound (query_table q) (orderColumn args) ">"])
  /\ (is_Some (arg_before args) ->
      conditions paged
      = conditions q ++ [cursorBound (query_table q) (orderColumn args) "<"])
  /\ (arg_after args = None -> arg_before args = None ->
      conditions paged = conditions q)
  /\ query_table paged = query_table q
  /\ joins paged = joins q.
Proof.
  rewrite applyConnectionArgs_guard.
  destruct args as [f l b a o].
  unfold pagesForward, pagesBackward, orderColumn.
  cbn [arg_first arg_last arg_before arg_after arg_order].
  assert (forall A (x : A), is_Some (Some x)) as Hsome by (intros; eexists; reflexivity).
  assert (forall A, ~ is_Some (@None A)) as Hnone by (intros A [x Hx]; discriminate).
  destruct f, a, l, b; cbn; intros H; try discriminate;
    inversion H; subst; clear H; cbn; rewrite ?app_nil_r;
    (split; [eexists; split; [reflexivity |] |]);
    repeat split; intros; subst;
    try reflexivity; try discriminate; try congruence;
    try (exfalso; eapply Hnone; eassumption);
    try (left; apply Hsome); try (right; apply Hsome);
    try (match goal with
         | H : _ \/ _ |- _ => destruct H as [H | H]; exfalso; eapply Hnone; exact H
         | H : _ /\ _ |- _ => destruct H; discriminate
         end).
Qed.

Lemma applyConnectionArgs_accepted_witness :
  let q := {| query_table := "posts"; joins := [];
              conditions := [ {| cond_table := "posts";
                                 cond_column := "authored_by_user_id";
                                 operator := "="; cond_value := "ANY ($1)" |} ];
              limit := None; order := None; batched := Some true |} in
  let args := {| arg_first := None; arg_last := Some 5%Z;
                 arg_before := Some "c1"; arg_after := None;
                 arg_order := Some "createdAt" |} in
  exists paged,
    @applyConnectionArgs asciiCasing q args = Ok paged
    /\ order paged
       = Some {| order_column := "created_at"; order_direction := DESC |}
    /\ limit paged = Some 5%Z
    /\ conditions paged
       = conditions q
           ++ [ {| cond_table := "posts"; cond_column := "created_at";
                   operator := "<";
                   cond_value :=
                     "(SELECT created_at FROM posts WHERE id = $2)" |} ]
    /\ sqlStringFromQuery paged
       = "SELECT posts.* FROM posts WHERE posts.authored_by_user_id = ANY ($1) AND posts.created_at < (SELECT created_at FROM posts WHERE id = $2) ORDER BY posts.created_at DESC LIMIT 5;".
Proof.
  intros q args. eexists. split; [reflexivity |].
  match goal with
  | |- context [order ?p] =>
      destruct (applyConnectionArgs_accepted asciiCasing q p args eq_refl)
        as ((d & Horder & Hdesc & _) & _ & _ & _ & Hlimit & _ & _ & Hbefore & _)
  end.
  split.
  { rewrite Horder. f_equal. f_equal. apply Hdesc. left. eexists. reflexivity. }
  split; [apply Hlimit; reflexivity |].
  split; [apply Hbefore; eexists; reflexivity | reflexivity].
Defined.

(** ** Key columns *)

(** C10. When the first segment of a path resolves to a foreign key, the
    resolved key column is the camel-cased key column and the object key
    column is [id] if the segment runs in the stored direction, and the
    other way round if it does not; so, the camel-cased column not being
    [id] itself, each function returns it exactly in its own case.  When
    the first segment resolves to a join table both columns are [id]. *)
Theorem key_columns_complementary
    (casing : Casing) (m : gmap string RelationshipSegmentDescription)
    (relationship : Relationship) (segment : RelationshipSegment)
    (rest : list RelationshipSegment) (d : RelationshipSegmentDescription) :
  path relationship = segment :: rest ->
  descriptionFromSegment m segment = Some d ->
  (forall fk, storage d = ForeignKeyStorage fk ->
      (direction segment = fk_direction fk ->
       resolvedKeyColumnFromRelationship m relationship
       = Ok (camel (fk_column fk))
       /\ objectKeyColumnFromRelationship m relationship = Ok "id")
      /\ (direction segment <> fk_direction fk ->
          objectKeyColumnFromRelationship m relationship
          = Ok (camel (fk_column fk))
          /\ resolvedKeyColumnFromRelationship m relationship = Ok "id")
      /\ (camel (fk_column fk) <> "id" ->
          (resolvedKeyColumnFromRelationship m relationship
           = Ok (camel (fk_column fk))
           <-> direction segment = fk_direction fk)
          /\ (objectKeyColumnFromRelationship m relationship
              = Ok (camel (fk_column fk))
              <-> direction segment <> fk_direction fk)))
  /\ (forall jt, storage d = JoinStorage jt ->
        resolvedKeyColumnFromRelationship m relationship = Ok "id"
        /\ objectKeyColumnFromRelationship m relationship = Ok "id").
Proof.
  intros Hpath Hd.
  unfold resolvedKeyColumnFromRelationship, objectKeyColumnFromRelationship.
  rewrite Hpath. cbn [head defined mbind Result_bind]. rewrite Hd.
  cbn [defined mbind Result_bind].
  split.
  - intros fk ->.
    destruct (direction segment), (fk_direction fk); cbn;
      repeat split; intros; try congruence; try discriminate.
  - intros jt ->. split; reflexivity.
Qed.

Lemma key_columns_complementary_witness :
  let hasProfile :=
    {| fromType := "User"; toType := "Profile"; label := "has";
       direction := DirOut; cardinality := Singular; nonNull := false |} in
  let profile :=
    {| fieldName := "profile"; rel_cardinality := Singular;
       path := [hasProfile] |} in
  exists m,
    @segmentDescriptionsBySignature asciiCasing [profile] = Ok m
    /\ @objectKeyColumnFromRelationship asciiCasing m profile = Ok "hasProfileId"
    /\ @resolvedKeyColumnFromRelationship asciiCasing m profile = Ok "id".
Proof.
  intros hasProfile profile. eexists. split; [reflexivity |].
  match goal with
  | |- context [objectKeyColumnFromRelationship ?m _] =>
      destruct (key_columns_complementary asciiCasing m profile hasProfile []
                  (keyedDescription hasProfile) eq_refl eq_refl) as [Hfk _]
  end.
  destruct (Hfk _ eq_refl) as (_ & Hdiffer & _).
  apply Hdiffer. discriminate.
Defined.

(** ** Reserved column name *)

Section ReservedName.
Context {casing : Casing}.
Variable baseType : GraphQLType -> Name.

(** The guard compares a name node with a string, so it holds for every
    field. *)
Lemma validateDatabaseField_passes (definition : FieldDefinition) :
  validateDatabaseField definition = Ok tt.
Proof. reflexivity. Qed.

Lemma forEachField_columns (fs : list FieldDefinition) :
  forall cols,
    Forall (fun f => isDatabaseField f = true -> is_Some (directives f)) fs ->
    exists added,
      mapM (columnFromFieldDefintion baseType) (List.filter isDatabaseField fs)
      = Ok added
      /\ forEachField baseType fs cols = Ok (cols ++ added).
Proof.
  induction fs as [| f fs IH]; intros cols Hfs.
  - exists []. rewrite app_nil_r. split; reflexivity.
  - apply Forall_cons in Hfs as [Hf Hfs]. cbn [forEachField List.filter].
    unfold addField. destruct (isDatabaseField f) eqn:Hdb.
    + destruct (Hf eq_refl) as [ds Hds].
      rewrite validateDatabaseField_passes. cbn [mapM mbind Result_bind].
      destruct (columnFromFieldDefintion baseType f) as [column |] eqn:Hcolumn.
      2: { unfold columnFromFieldDefintion in Hcolumn. rewrite Hds in Hcolumn.
           discriminate. }
      cbn [mbind Result_bind].
      destruct (IH (cols ++ [column]) Hfs) as (added & Hadded & Hrest).
      rewrite Hadded, Hrest. eexists. split; [reflexivity |].
      rewrite <- app_assoc. reflexivity.
    + cbn [mbind Result_bind]. apply IH, Hfs.
Qed.

(** Compilation succeeds whenever the database fields carry a directive
    list, whatever they are called: the table holds [seq] and one column
    per database field. *)
Lemma tableFromObjectTypeDefinition_columns (definition : ObjectTypeDefinition) :
  Forall (fun f => isDatabaseField f = true -> is_Some (directives f))
    (fields definition) ->
  exists added,
    mapM (columnFromFieldDefintion baseType)
      (List.filter isDatabaseField (fields definition))
    = Ok added
    /\ tableFromObjectTypeDefinition baseType definition
       = Ok {| table_name :=
                 tableNameFromTypeName (value (definition_name definition));
               columns := seqColumn :: added;
               constraints := [] |}.
Proof.
  intros Hfs. destruct (forEachField_columns _ [seqColumn] Hfs)
    as (added & Hadded & Hcols).
  exists added. split; [assumption |].
  unfold tableFromObjectTypeDefinition. rewrite Hcols. reflexivity.
Qed.
End ReservedName.

(** C9 fails on the code: the guard of [validateDatabaseField] never
    fires, and an entity that declares a plain field [seq] compiles to a
    table with two columns named after [seq]. *)
Theorem seq_field_is_accepted
    (casing : Casing) (baseType : GraphQLType -> Name) :
  (forall definition, validateDatabaseField definition = Ok tt)
  /\ tableFromObjectTypeDefinition baseType
       {| definition_name := {| value := "Post" |};
          fields :=
            [ {| field_name := {| value := "seq" |};
                 field_type := NamedType {| value := "Int" |};
                 directives := Some [] |} ] |}
     = Ok {| table_name := tableNameFromTypeName "Post";
             columns :=
               [ seqColumn;
                 {| column_name := snake "seq";
                    column_type :=
                      columnTypeFromGraphQLType baseType
                        (NamedType {| value := "Int" |});
                    primaryKey := false;
                    column_nonNull := false;
                    unique := false;
                    defaultValue := None;
                    references := None |} ];
             constraints := [] |}.
Proof. split; reflexivity. Qed.

(** ** Singular loader *)

Section SingularLoader.
Variable relationship : Relationship.
Variables keyColumn sql : string.

Lemma enqueue_ABA (A B : string) : A <> B -> enqueue [] [A; B; A] = [A; B].
Proof.
  intros Hne. cbn [enqueue existsb app].
  destruct (String.eqb_spec B A) as [Heq | _]; [congruence |].
  cbn [orb app enqueue existsb]. rewrite String.eqb_refl. reflexivity.
Qed.

(** With an executor that answers the batched statement with one row for
    [A] and one for [B], three loads of [A], [B], [A] run the batch
    function once and each caller receives the row of its key. *)
Lemma load_with_rows (query : string -> list Param -> DB (list Row))
    (A B : string) (rowA rowB : Row) (log log' : list Statement) :
  A <> B ->
  rowA !! keyColumn = Some A ->
  rowB !! keyColumn = Some B ->
  query sql [KeysParam [A; B]] log = (Ok [rowA; rowB], log') ->
  load (generateSingularRelationshipLoader query relationship keyColumn sql)
    [A; B; A] log
  = (Ok [Some rowA; Some rowB; Some rowA], log').
Proof.
  intros Hne HA HB Hquery.
  unfold load. rewrite (enqueue_ABA A B Hne).
  unfold generateSingularRelationshipLoader.
  unfold mbind at 1 2, DB_bind. rewrite Hquery. cbn [mret DB_ret].
  unfold keyMap. cbn [fold_left map]. rewrite HA, HB.
  cbn [propertyKey default]. unfold id.
  rewrite lookup_insert_ne by congruence.
  rewrite !lookup_insert_eq.
  cbn [length Nat.eqb negb liftResult mapM cached].
  rewrite !String.eqb_refl.
  destruct (String.eqb_spec B A) as [Heq | _]; [congruence |].
  reflexivity.
Qed.

(** With [query] of db.js the rows of the driver never reach the loader:
    every key other than the text [undefined] resolves to [undefined]. *)
Lemma batch_without_rows (PgResult : Type)
    (pg_query : string -> list Param -> Result PgResult)
    (keys : list string) (log : list Statement) :
  "undefined" ∉ keys ->
  generateSingularRelationshipLoader (query PgResult pg_query) relationship
    keyColumn sql keys log
  = (_ ← pg_query sql [KeysParam keys]; Ok (map (fun _ => None) keys),
     log ++ [ {| stmt_sql := sql; stmt_params := [KeysParam keys] |} ]).
Proof.
  intros Hkeys. unfold generateSingularRelationshipLoader, query, exec.
  unfold mbind at 1 2 3, DB_bind.
  destruct (pg_query sql [KeysParam keys]) as [result | msg]; [| reflexivity].
  unfold mret, DB_ret. cbn [mbind Result_bind]. f_equal. f_equal.
  apply map_ext_in. intros key Hkey.
  unfold keyMap. cbn [fold_left]. rewrite lookup_empty.
  cbn [propertyKey default]. unfold id.
  rewrite lookup_insert_ne; [apply lookup_empty |].
  intros <-. apply Hkeys, list_elem_of_In, Hkey.
Qed.
End SingularLoader.

Example load_with_rows_example (relationship : Relationship) :
  let rowA : Row := {[ "id" := "A"; "name" := "Ada" ]} in
  let rowB : Row := {[ "id" := "B"; "name" := "Bob" ]} in
  let executor (sql : string) (params : list Param) : DB (list Row) :=
    fun log =>
      (Ok [rowA; rowB], log ++ [ {| stmt_sql := sql; stmt_params := params |} ]) in
  load (generateSingularRelationshipLoader executor relationship "id" "SQL")
    ["A"; "B"; "A"] []
  = (Ok [Some rowA; Some rowB; Some rowA],
     [ {| stmt_sql := "SQL"; stmt_params := [KeysParam ["A"; "B"]] |} ]).
Proof.
  intros rowA rowB executor.
  apply (load_with_rows relationship "id" "SQL" executor "A" "B" rowA rowB).
  - discriminate.
  - vm_compute. reflexivity.
  - vm_compute. reflexivity.
  - reflexivity.
Qed.

(** C4 fails on the code.  Three loads of [A], [B], [A] execute one
    statement with the two distinct keys, as claimed; but [query] of db.js
    answers [[{}]] whatever the driver returns, so no caller receives a
    row. *)
Theorem singular_loader_discards_rows
    (PgResult : Type) (pg_query : string -> list Param -> Result PgResult)
    (relationship : Relationship) (keyColumn sql : string) :
  load
    (generateSingularRelationshipLoader (query PgResult pg_query) relationship
       keyColumn sql)
    ["A"; "B"; "A"] []
  = (_ ← pg_query sql [KeysParam ["A"; "B"]]; Ok [None; None; None],
     [ {| stmt_sql := sql; stmt_params := [KeysParam ["A"; "B"]] |} ]).
Proof.
  unfold load. cbn [enqueue existsb String.eqb Ascii.eqb Bool.eqb orb app].
  unfold mbind at 1, DB_bind.
  rewrite (batch_without_rows relationship keyColumn sql PgResult pg_query
             ["A"; "B"] []).
  2: { intros H. apply list_elem_of_In in H. simpl in H.
       destruct H as [H | [H | []]]; discriminate. }
  destruct (pg_query sql [KeysParam ["A"; "B"]]) as [result | msg];
    reflexivity.
Qed.

(** * Further properties of the segment resolver *)

Section DictLookup.
Context {V : Type}.
Implicit Types (m : list (string * V)) (k : string) (v : V).

Lemma dict_get_set_eq k v m : dict_get k (dict_set k v m) = Some v.
Proof.
  induction m as [| [k0 v0] m IH]; simpl.
  - rewrite String.eqb_refl. reflexivity.
  - destruct (String.eqb_spec k k0) as [-> | Hne]; simpl.
    + rewrite String.eqb_refl. reflexivity.
    + destruct (String.eqb_spec k k0); [congruence | exact IH].
Qed.

Lemma dict_get_set_ne k k' v m :
  k <> k' -> dict_get k' (dict_set k v m) = dict_get k' m.
Proof.
  intros Hne. induction m as [| [k0 v0] m IH]; simpl.
  - destruct (String.eqb_spec k' k); [congruence | reflexivity].
  - destruct (String.eqb_spec k k0) as [-> | Hne0]; simpl.
    + destruct (String.eqb_spec k' k0); [congruence | reflexivity].
    + destruct (String.eqb_spec k' k0); [reflexivity | exact IH].
Qed.

Lemma dict_get_entry k v m : dict_get k m = Some v -> (k, v) ∈ m.
Proof.
  induction m as [| [k0 v0] m IH]; simpl; [discriminate |].
  destruct (String.eqb_spec k k0) as [-> | Hne]; intros H.
  - inversion H; subst. apply elem_of_cons. auto.
  - apply elem_of_cons. auto.
Qed.

Lemma dict_entry_get k v m : NoDup m.*1 -> (k, v) ∈ m -> dict_get k m = Some v.
Proof.
  induction m as [| [k0 v0] m IH]; simpl; intros Hnd Hin.
  - inversion Hin.
  - apply NoDup_cons in Hnd as [Hnotin Hnd].
    apply elem_of_cons in Hin as [Heq | Hin].
    + inversion Heq; subst. rewrite String.eqb_refl. reflexivity.
    + destruct (String.eqb_spec k k0) as [-> | Hne]; [| auto].
      exfalso. apply Hnotin. apply list_elem_of_fmap. exists (k0, v). auto.
Qed.
End DictLookup.

Section Flattening.
Context {casing : Casing}.

Lemma recordSegment_fold_NoDup (segments : list RelationshipSegment) :
  forall m : list (string * RelationshipSegment),
    NoDup m.*1 -> NoDup (fold_left recordSegment segments m).*1.
Proof.
  induction segments as [| s segments IH]; intros m Hnd; [exact Hnd |].
  cbn [fold_left]. apply IH. unfold recordSegment.
  destruct (dict_get _ m) as [existing |]; [destruct (negb _) |];
    auto using dict_set_NoDup.
Qed.

Lemma recordSegment_get (k : string) (m : list (string * RelationshipSegment))
    (s : RelationshipSegment) :
  dict_get k (recordSegment m s)
  = if hasIdentity k s
    then match dict_get k m with
         | Some existing => if nonNull existing then Some existing else Some s
         | None => Some s
         end
    else dict_get k m.
Proof.
  unfold recordSegment, hasIdentity.
  destruct (String.eqb_spec (identitySignatureFromRelationshipSegment s) k)
    as [<- | Hne].
  - destruct (dict_get _ m) as [existing |] eqn:Hget.
    + destruct (nonNull existing); cbn [negb];
        [exact Hget | apply dict_get_set_eq].
    + apply dict_get_set_eq.
  - destruct (dict_get _ m) as [existing |]; [destruct (negb _) |];
      auto using dict_get_set_ne.
Qed.

Lemma find_snoc {A : Type} (P : A -> bool) (l : list A) (x : A) :
  List.find P (l ++ [x])
  = match List.find P l with
    | Some y => Some y
    | None => if P x then Some x else None
    end.
Proof.
  induction l as [| y l IH]; simpl; [reflexivity |].
  destruct (P y); [reflexivity | exact IH].
Qed.

Lemma keptDeclaration_snoc (k : string) (segments : list RelationshipSegment)
    (s : RelationshipSegment) :
  keptDeclaration k (segments ++ [s])
  = if hasIdentity k s
    then match keptDeclaration k segments with
         | Some existing => if nonNull existing then Some existing else Some s
         | None => Some s
         end
    else keptDeclaration k segments.
Proof.
  unfold keptDeclaration. rewrite find_snoc, List.filter_app. cbn [List.filter].
  destruct (List.find _ segments) as [first |] eqn:Hfind.
  - apply List.find_some in Hfind as [_ Hfirst].
    apply andb_true_iff in Hfirst as [_ Hfirst]. rewrite Hfirst.
    destruct (hasIdentity k s); reflexivity.
  - destruct (hasIdentity k s); cbn [andb]; [| rewrite app_nil_r; reflexivity].
    rewrite last_snoc.
    destruct (last (List.filter (hasIdentity k) segments)) as [e |] eqn:Hlast;
      [| destruct (nonNull s); reflexivity].
    assert (nonNull e = false) as ->.
    { apply last_Some_elem_of, list_elem_of_In, List.filter_In in Hlast
        as [Hin Hid].
      pose proof (List.find_none _ _ Hfind e Hin) as Hnone.
      cbv beta in Hnone. rewrite Hid in Hnone. exact Hnone. }
    destruct (nonNull s); reflexivity.
Qed.

Lemma recordSegment_fold_get (k : string) (segments : list RelationshipSegment) :
  dict_get k (fold_left recordSegment segments [])
  = keptDeclaration k segments.
Proof.
  induction segments as [| s segments IH] using rev_ind; [reflexivity |].
  rewrite fold_left_app. cbn [fold_left].
  rewrite recordSegment_get, keptDeclaration_snoc, IH. reflexivity.
Qed.

Lemma flattened_entries (relationships : list Relationship)
    (s : RelationshipSegment) :
  s ∈ flattenedUniqueSegmentsFromRelationships relationships
  <-> dict_get (identitySignatureFromRelationshipSegment s)
        (fold_left recordSegment (declaredSegments relationships) [])
      = Some s.
Proof.
  unfold flattenedUniqueSegmentsFromRelationships. rewrite flattened_fold.
  destruct (recordSegment_fold (declaredSegments relationships) [])
    as (_ & _ & Hentries).
  pose proof (recordSegment_fold_NoDup (declaredSegments relationships) []
                NoDup_nil_2) as Hnd.
  split.
  - intros Hs. apply list_elem_of_In, in_map_iff in Hs as ([k s'] & Heq & He).
    simpl in Heq; subst s'. apply list_elem_of_In in He.
    destruct (Hentries _ He) as [Hnil | [_ Hsig]]; [inversion Hnil |].
    simpl in Hsig. subst k. apply dict_entry_get; assumption.
  - intros Hget. apply dict_get_entry in Hget.
    apply list_elem_of_In, in_map_iff. eexists. split; [| apply list_elem_of_In, Hget].
    reflexivity.
Qed.
End Flattening.

(** X1. Flattening keeps declared segments only, keeps one for every
    declared identity signature, and keeps no two with the same identity
    signature. *)
Theorem flattened_segments_unique (relationships : list Relationship) :
  NoDup (identitySignatureFromRelationshipSegment
           <$> flattenedUniqueSegmentsFromRelationships relationships)
  /\ (forall s,
         s ∈ flattenedUniqueSegmentsFromRelationships relationships ->
         s ∈ declaredSegments relationships)
  /\ (forall s,
         s ∈ declaredSegments relationships ->
         exists s',
           s' ∈ flattenedUniqueSegmentsFromRelationships relationships
           /\ identitySignatureFromRelationshipSegment s'
              = identitySignatureFromRelationshipSegment s).
Proof.
  destruct (recordSegment_fold (declaredSegments relationships) [])
    as (_ & _ & Hentries).
  pose proof (recordSegment_fold_NoDup (declaredSegments relationships) []
                NoDup_nil_2) as Hnd.
  split; [| split].
  - unfold flattenedUniqueSegmentsFromRelationships. rewrite flattened_fold.
    assert (identitySignatureFromRelationshipSegment
              <$> map snd (fold_left recordSegment
                             (declaredSegments relationships) [])
            = (fold_left recordSegment (declaredSegments relationships) []).*1)
      as ->; [| exact Hnd].
    rewrite <- list_fmap_compose. apply list_fmap_ext.
    intros i e He. apply list_elem_of_lookup_2 in He.
    destruct (Hentries _ He) as [Hnil | [_ Hsig]]; [inversion Hnil | exact Hsig].
  - intros s Hs. apply flattened_entries, dict_get_entry in Hs.
    destruct (Hentries _ Hs) as [Hnil | [Hin _]]; [inversion Hnil | exact Hin].
  - intros s Hs. destruct (declared_survives relationships s Hs)
      as (s' & Hflat & _ & Hid). eauto.
Qed.

(** X2. The segment kept for an identity signature is the first not-null
    declaration carrying it, or the last declaration carrying it when none
    is not-null. *)
Theorem flattened_keeps_first_nonNull_or_last
    (relationships : list Relationship) (s : RelationshipSegment) :
  s ∈ flattenedUniqueSegmentsFromRelationships relationships
  <-> keptDeclaration (identitySignatureFromRelationshipSegment s)
        (declaredSegments relationships)
      = Some s.
Proof.
  rewrite flattened_entries, recordSegment_fold_get. reflexivity.
Qed.

Lemma wellNamed_parts (s : RelationshipSegment) :
  wellNamed s = true ->
  pipeFree (fromType s) = true /\ pipeFree (toType s) = true
  /\ pipeFree (label s) = true.
Proof.
  unfold wellNamed. intros H.
  apply andb_true_iff in H as [H Hl]. apply andb_true_iff in H as [Hf Ht].
  auto.
Qed.

Lemma identitySignature_fields (s s' : RelationshipSegment) :
  wellNamed s = true -> wellNamed s' = true ->
  identitySignatureFromRelationshipSegment s
  = identitySignatureFromRelationshipSegment s' ->
  fromType s = fromType s' /\ toType s = toType s' /\ label s = label s'
  /\ direction s = direction s'.
Proof.
  intros Hs Hs' Heq.
  destruct (wellNamed_parts s Hs) as (Hf & Ht & Hl).
  destruct (wellNamed_parts s' Hs') as (Hf' & Ht' & Hl').
  unfold identitySignatureFromRelationshipSegment in Heq.
  apply separator_split in Heq as [Hfrom Heq]; [| assumption ..].
  apply separator_split in Heq as [Hto Heq]; [| assumption ..].
  apply separator_split in Heq as [Hlabel Hdir]; [| assumption ..].
  repeat split; try assumption.
  destruct (direction s), (direction s'); try reflexivity; discriminate.
Qed.

(** X3. For segments whose names are free of the separator, the identity
    signature determines endpoints, label and direction, and two segments
    have the same pairing signature exactly when they carry the same label
    and either agree in direction and endpoints or are opposite
    declarations of one relationship. *)
Theorem signatures_injective (s s' : RelationshipSegment) :
  wellNamed s = true -> wellNamed s' = true ->
  (identitySignatureFromRelationshipSegment s
   = identitySignatureFromRelationshipSegment s'
   <-> fromType s = fromType s' /\ toType s = toType s'
       /\ label s = label s' /\ direction s = direction s')
  /\ (pairingSignatureFromRelationshipSegment s
      = pairingSignatureFromRelationshipSegment s'
      <-> (direction s = direction s' /\ fromType s = fromType s'
           /\ toType s = toType s' /\ label s = label s')
          \/ opposite s s').
Proof.
  intros Hs Hs'. split; split.
  - apply identitySignature_fields; assumption.
  - intros (Hf & Ht & Hl & Hd).
    unfold identitySignatureFromRelationshipSegment.
    rewrite Hf, Ht, Hl, Hd. reflexivity.
  - intros Heq.
    destruct (wellNamed_parts s Hs) as (Hf & Ht & Hl).
    destruct (wellNamed_parts s' Hs') as (Hf' & Ht' & Hl').
    unfold pairingSignatureFromRelationshipSegment, opposite in *.
    destruct (direction s), (direction s');
      apply separator_split in Heq as [H1 Heq]; try assumption;
      apply separator_split in Heq as [H2 H3]; try assumption.
    + left. auto.
    + right. repeat split; auto; discriminate.
    + right. repeat split; auto; discriminate.
    + left. auto.
  - intros [(Hd & Hf & Ht & Hl) | Hopp].
    + unfold pairingSignatureFromRelationshipSegment.
      rewrite Hf, Ht, Hl, Hd. reflexivity.
    + apply opposite_pairingSignature, Hopp.
Qed.

Lemma signatures_injective_witness :
  let s := {| fromType := "Post"; toType := "User"; label := "AUTHORED";
              direction := DirIn; cardinality := Singular; nonNull := true |} in
  let s' := {| fromType := "User"; toType := "Post"; label := "AUTHORED";
               direction := DirOut; cardinality := Plural; nonNull := false |} in
  pairingSignatureFromRelationshipSegment s
  = pairingSignatureFromRelationshipSegment s'
  /\ opposite s s'
  /\ identitySignatureFromRelationshipSegment s
     <> identitySignatureFromRelationshipSegment s'.
Proof.
  intros s s'.
  destruct (signatures_injective s s' eq_refl eq_refl) as [Hid Hpair].
  split; [reflexivity |]. split.
  - destruct (proj1 Hpair eq_refl) as [(Hd & _) | Hopp];
      [discriminate | exact Hopp].
  - intros Heq. apply Hid in Heq as (Hf & _). discriminate.
Defined.

Lemma truthy_named (s : string) : s <> "" -> truthy (Some s) = true.
Proof.
  intros Hs. unfold truthy. destruct (String.eqb_spec s ""); [congruence |].
  reflexivity.
Qed.

(** X4. The join-table description of a relationship between [a] and [b]
    is the same whether the relationship is declared outbound from [a],
    inbound at [b], or both, whatever the cardinalities and not-null flags;
    an empty pair has no join-table description. *)
Theorem joinTable_endpoint_independent
    (casing : Casing) (a b l : string) (ci co : Cardinality) (ni no : bool) :
  a <> "" -> b <> "" -> l <> "" ->
  let o := {| fromType := a; toType := b; label := l; direction := DirOut;
              cardinality := co; nonNull := no |} in
  let i := {| fromType := b; toType := a; label := l; direction := DirIn;
              cardinality := ci; nonNull := ni |} in
  joinTableDescriptionFromRelationshipSegmentPair
    {| pair_in := None; pair_out := Some o |} = Ok (joinTableFor a l b)
  /\ joinTableDescriptionFromRelationshipSegmentPair
       {| pair_in := Some i; pair_out := None |} = Ok (joinTableFor a l b)
  /\ joinTableDescriptionFromRelationshipSegmentPair
       {| pair_in := Some i; pair_out := Some o |} = Ok (joinTableFor a l b)
  /\ joinTableDescriptionFromRelationshipSegmentPair
       {| pair_in := None; pair_out := None |}
     = Failed "relationship segment pair must have at least one segment".
Proof.
  intros Ha Hb Hl o i.
  unfold joinTableDescriptionFromRelationshipSegmentPair, js_or.
  cbn [pair_in pair_out fmap option_fmap option_map fromType toType label o i].
  change (truthy None) with false. cbv iota.
  rewrite !(truthy_named a Ha), !(truthy_named b Hb), !(truthy_named l Hl).
  repeat split.
Qed.

Lemma joinTable_endpoint_independent_witness :
  let o := {| fromType := "User"; toType := "Post"; label := "LIKED";
              direction := DirOut; cardinality := Plural; nonNull := false |} in
  let i := {| fromType := "Post"; toType := "User"; label := "LIKED";
              direction := DirIn; cardinality := Plural; nonNull := true |} in
  @joinTableDescriptionFromRelationshipSegmentPair asciiCasing
    {| pair_in := Some i; pair_out := None |}
  = @joinTableDescriptionFromRelationshipSegmentPair asciiCasing
      {| pair_in := None; pair_out := Some o |}
  /\ jt_name
     <$> @joinTableDescriptionFromRelationshipSegmentPair asciiCasing
           {| pair_in := Some i; pair_out := Some o |}
     = Ok "user_liked_posts".
Proof.
  intros o i.
  destruct (joinTable_endpoint_independent asciiCasing "User" "Post" "LIKED"
              Plural Plural true false)
    as (Hout & Hin & Hboth & _); try discriminate.
  subst o i. split.
  - rewrite Hin, Hout. reflexivity.
  - rewrite Hboth. reflexivity.
Defined.

Lemma mapM_total {A B : Type} (f : A -> Result B) (l : list A) :
  (forall x, x ∈ l -> exists y, f x = Ok y) -> exists ys, mapM f l = Ok ys.
Proof.
  induction l as [| x l IH]; intros Hall; cbn [mapM]; [eauto |].
  destruct (Hall x) as [y Hy]; [apply elem_of_cons; auto |].
  destruct IH as [ys Hys]; [intros; apply Hall, elem_of_cons; auto |].
  rewrite Hy, Hys. cbn. eauto.
Qed.

Lemma mapM_elem {A B : Type} (f : A -> Result B) (l : list A) :
  forall ys, mapM f l = Ok ys ->
             forall y, y ∈ ys -> exists x, x ∈ l /\ f x = Ok y.
Proof.
  induction l as [| x l IH]; cbn [mapM]; intros ys Hys y Hy.
  - inversion Hys; subst. inversion Hy.
  - destruct (f x) as [y0 |] eqn:Hfx; cbn in Hys; [| discriminate].
    destruct (mapM f l) as [ys0 |]; cbn in Hys; [| discriminate].
    inversion Hys; subst. apply elem_of_cons in Hy as [-> | Hy].
    + exists x. split; [apply elem_of_cons; auto | exact Hfx].
    + destruct (IH ys0 eq_refl y Hy) as (x' & Hx' & Hfx').
      exists x'. split; [apply elem_of_cons; auto | exact Hfx'].
Qed.

Section Grouping.
Context {casing : Casing}.

(** Every group is non-empty and holds grouped segments with the
    signature it is filed under. *)
Lemma groupSegment_fold_entries (all segments : list RelationshipSegment) :
  forall m : list (string * list RelationshipSegment),
    (forall s, s ∈ segments -> s ∈ all) ->
    (forall k l, (k, l) ∈ m ->
       l <> [] /\ forall s, s ∈ l ->
                    s ∈ all /\ pairingSignatureFromRelationshipSegment s = k) ->
    forall k l, (k, l) ∈ fold_left groupSegment segments m ->
      l <> [] /\ forall s, s ∈ l ->
                   s ∈ all /\ pairingSignatureFromRelationshipSegment s = k.
Proof.
  induction segments as [| s segments IH]; intros m Hall Hm; [exact Hm |].
  cbn [fold_left]. apply IH.
  { intros s' Hs'. apply Hall, elem_of_cons. auto. }
  intros k l Hkl. unfold groupSegment in Hkl.
  apply dict_set_entries in Hkl as [Heq | Hold]; [| exact (Hm k l Hold)].
  inversion Heq; subst. split.
  { intros Hnil. apply app_eq_nil in Hnil as [_ Hnil]. discriminate. }
  intros s' Hs'. apply elem_of_app in Hs' as [Hs' | Hs'].
  - destruct (dict_get _ m) as [l0 |] eqn:Hget; [| inversion Hs'].
    apply dict_get_entry in Hget. apply (Hm _ _ Hget), Hs'.
  - apply list_elem_of_singleton in Hs' as ->.
    split; [apply Hall, elem_of_cons; auto | reflexivity].
Qed.

Lemma assignSegment_fold (l : list RelationshipSegment) :
  forall p : RelationshipSegmentPair,
    (forall s, pair_in (fold_left assignSegment l p) = Some s ->
       pair_in p = Some s \/ (s ∈ l /\ direction s = DirIn))
    /\ (forall s, pair_out (fold_left assignSegment l p) = Some s ->
          pair_out p = Some s \/ (s ∈ l /\ direction s = DirOut))
    /\ (segmentsPresent p <> [] \/ l <> [] ->
        segmentsPresent (fold_left assignSegment l p) <> []).
Proof.
  induction l as [| s l IH]; intros p; cbn [fold_left].
  - split; [auto |]. split; [auto |]. intros [H | H]; [exact H | congruence].
  - destruct (IH (assignSegment p s)) as (Hin & Hout & Hne).
    assert (segmentsPresent (assignSegment p s) <> []) as Hassigned.
    { unfold assignSegment, segmentsPresent.
      destruct (direction s); cbn; [discriminate |].
      destruct (pair_in p); discriminate. }
    split; [| split; [| auto]].
    + intros s' Hs'. destruct (Hin s' Hs') as [H | [H Hd]].
      * unfold assignSegment in H. destruct (direction s) eqn:Hd; cbn in H.
        -- inversion H; subst. right. split; [apply elem_of_cons; auto | exact Hd].
        -- auto.
      * right. split; [apply elem_of_cons; auto | exact Hd].
    + intros s' Hs'. destruct (Hout s' Hs') as [H | [H Hd]].
      * unfold assignSegment in H. destruct (direction s) eqn:Hd; cbn in H.
        -- auto.
        -- inversion H; subst. right. split; [apply elem_of_cons; auto | exact Hd].
      * right. split; [apply elem_of_cons; auto | exact Hd].
Qed.

Lemma named_parts (s : RelationshipSegment) :
  named s = true -> fromType s <> "" /\ toType s <> "" /\ label s <> "".
Proof.
  unfold named. intros H.
  apply andb_true_iff in H as [H Hl]. apply andb_true_iff in H as [Hf Ht].
  repeat split; intros Heq; rewrite Heq in *; discriminate.
Qed.

(** A non-empty pair of named segments has a description of either kind. *)
Lemma pair_descriptions_total (p : RelationshipSegmentPair) :
  segmentsPresent p <> [] ->
  (forall s, s ∈ segmentsPresent p -> named s = true) ->
  (exists st, joinTableDescriptionFromRelationshipSegmentPair p = Ok st)
  /\ (exists fk, foreignKeyDescriptionFromRelationshipSegmentPair p = Ok fk).
Proof.
  destruct p as [[i |] [o |]]; unfold segmentsPresent; cbn [pair_in pair_out
    option_list app]; intros Hne Hnamed;
    try (exfalso; apply Hne; reflexivity).
  - destruct (named_parts o) as (Hf & Ht & Hl);
      [apply Hnamed; apply elem_of_cons; right; apply elem_of_cons; auto |].
    split.
    + unfold joinTableDescriptionFromRelationshipSegmentPair, js_or.
      cbn [pair_in pair_out fmap option_fmap option_map].
      rewrite !(truthy_named _ Hf), !(truthy_named _ Ht), !(truthy_named _ Hl).
      cbn. eauto.
    + unfold foreignKeyDescriptionFromRelationshipSegmentPair, normalSegment.
      cbn [pair_in pair_out].
      destruct (isPlural _ || _); cbn; eauto.
  - destruct (named_parts i) as (Hf & Ht & Hl);
      [apply Hnamed; apply elem_of_cons; auto |].
    split.
    + unfold joinTableDescriptionFromRelationshipSegmentPair, js_or.
      cbn [pair_in pair_out fmap option_fmap option_map].
      change (truthy None) with false. cbv iota.
      rewrite !(truthy_named _ Hf), !(truthy_named _ Ht), !(truthy_named _ Hl).
      cbn. eauto.
    + unfold foreignKeyDescriptionFromRelationshipSegmentPair, normalSegment.
      cbn. eauto.
  - destruct (named_parts o) as (Hf & Ht & Hl);
      [apply Hnamed; apply elem_of_cons; auto |].
    split.
    + unfold joinTableDescriptionFromRelationshipSegmentPair, js_or.
      cbn [pair_in pair_out fmap option_fmap option_map].
      rewrite !(truthy_named _ Hf), !(truthy_named _ Ht), !(truthy_named _ Hl).
      cbn. eauto.
    + unfold foreignKeyDescriptionFromRelationshipSegmentPair, normalSegment.
      cbn. eauto.
Qed.
End Grouping.

Lemma segmentsPresent_elem (p : RelationshipSegmentPair) (s : RelationshipSegment) :
  s ∈ segmentsPresent p <-> pair_in p = Some s \/ pair_out p = Some s.
Proof.
  unfold segmentsPresent. rewrite elem_of_app.
  destruct (pair_in p), (pair_out p); cbn;
    rewrite ?list_elem_of_singleton, ?elem_of_nil;
    split; intros [H | H]; try congruence; auto; try (inversion H; auto).
Qed.

Section Descriptions.
Context {casing : Casing}.

Lemma flattened_declared (relationships : list Relationship) (s : RelationshipSegment) :
  s ∈ flattenedUniqueSegmentsFromRelationships relationships ->
  s ∈ declaredSegments relationships.
Proof.
  intros Hs. apply flattened_entries, dict_get_entry in Hs.
  destruct (recordSegment_fold (declaredSegments relationships) [])
    as (_ & _ & Hentries).
  destruct (Hentries _ Hs) as [Hnil | [Hin _]]; [inversion Hnil | exact Hin].
Qed.

(** What the resolver files under a signature, and the pair it builds
    from it. *)
Lemma grouped_pair (relationships : list Relationship) (k : string)
    (l : list RelationshipSegment) :
  (k, l) ∈ fold_left groupSegment
             (flattenedUniqueSegmentsFromRelationships relationships) [] ->
  let p := fold_left assignSegment l {| pair_in := None; pair_out := None |} in
  segmentsPresent p <> []
  /\ (forall s, s ∈ segmentsPresent p ->
        s ∈ flattenedUniqueSegmentsFromRelationships relationships
        /\ pairingSignatureFromRelationshipSegment s = k)
  /\ (forall s, pair_in p = Some s -> direction s = DirIn)
  /\ (forall s, pair_out p = Some s -> direction s = DirOut).
Proof.
  intros Hkl p.
  destruct (groupSegment_fold_entries
              (flattenedUniqueSegmentsFromRelationships relationships)
              (flattenedUniqueSegmentsFromRelationships relationships) []
              (fun s H => H)
              (fun k l H => False_ind _ (proj1 (elem_of_nil _) H))
              k l Hkl) as [Hne Hmembers].
  destruct (assignSegment_fold l {| pair_in := None; pair_out := None |})
    as (Hin & Hout & Hpresent).
  fold p in Hin, Hout, Hpresent.
  split; [apply Hpresent; auto |]. split; [| split].
  - intros s Hs. apply segmentsPresent_elem in Hs as [Hs | Hs].
    + destruct (Hin s Hs) as [H | [H _]]; [discriminate | apply Hmembers, H].
    + destruct (Hout s Hs) as [H | [H _]]; [discriminate | apply Hmembers, H].
  - intros s Hs. destruct (Hin s Hs) as [H | [_ H]]; [discriminate | exact H].
  - intros s Hs. destruct (Hout s Hs) as [H | [_ H]]; [discriminate | exact H].
Qed.
End Descriptions.

(** X5. When every declared segment has non-empty type names and label,
    the segment resolver returns descriptions.  It fails on a relationship
    whose only segment is plural with an empty label. *)
Theorem resolver_succeeds_on_named_segments (casing : Casing) :
  (forall relationships,
      Forall (fun s => named s = true) (declaredSegments relationships) ->
      exists ds, segmentDescriptionsFromRelationships relationships = Ok ds)
  /\ (forall name c s,
         cardinality s = Plural -> label s = "" ->
         segmentDescriptionsFromRelationships
           [ {| fieldName := name; rel_cardinality := c; path := [s] |} ]
         = Failed "relationship segment pair must have at least one segment").
Proof.
  split.
  - intros relationships Hnamed. rewrite Forall_forall in Hnamed.
    unfold segmentDescriptionsFromRelationships. apply mapM_total.
    intros [k l] Hkl. destruct (grouped_pair relationships k l Hkl)
      as (Hne & Hmembers & _).
    destruct (pair_descriptions_total _ Hne) as [[st Hst] [fk Hfk]].
    { intros s Hs. apply Hnamed, flattened_declared, Hmembers, Hs. }
    unfold describeSegments. destruct (segmentPairRequiresJoinTable _).
    + rewrite Hst. cbn. eauto.
    + rewrite Hfk. cbn. eauto.
  - intros name c [f t l d c' n] Hplural Hlabel. cbn in Hplural, Hlabel. subst.
    unfold segmentDescriptionsFromRelationships,
      flattenedUniqueSegmentsFromRelationships.
    destruct d; cbn [fold_left path recordSegment dict_get dict_set map snd
      groupSegment default from_option app mapM describeSegments assignSegment
      direction segmentPairRequiresJoinTable pair_in pair_out cardinality
      isPlural andb];
      unfold joinTableDescriptionFromRelationshipSegmentPair, js_or;
      cbn [pair_in pair_out fmap option_fmap option_map label];
      change (truthy None) with false; change (truthy (Some "")) with false;
      cbv iota; change (truthy None) with false;
      rewrite ?andb_false_r; reflexivity.
Qed.

Lemma resolver_succeeds_on_named_segments_witness :
  exists ds,
    @segmentDescriptionsFromRelationships asciiCasing [coAuthoredPosts] = Ok ds
    /\ length ds = 2.
Proof.
  destruct (proj1 (resolver_succeeds_on_named_segments asciiCasing)
              [coAuthoredPosts]) as [ds Hds].
  { repeat constructor. }
  exists ds. split; [exact Hds |].
  assert (Ok ds = @segmentDescriptionsFromRelationships asciiCasing
                    [coAuthoredPosts]) as Heq by (symmetry; exact Hds).
  vm_compute in Heq. inversion Heq. reflexivity.
Defined.

(** X6. Every description the resolver returns is built from a non-empty
    pair of kept segments that carry the description's signature, the
    inbound one in [in] and the outbound one in [out]; it is a join table
    exactly when the pair requires one, and its storage is the description
    computed from that pair. *)
Theorem descriptions_match_their_pairs
    (casing : Casing) (relationships : list Relationship)
    (ds : list RelationshipSegmentDescription)
    (d : RelationshipSegmentDescription) :
  segmentDescriptionsFromRelationships relationships = Ok ds ->
  d ∈ ds ->
  segmentsPresent (pair d) <> []
  /\ (forall s, s ∈ segmentsPresent (pair d) ->
        s ∈ flattenedUniqueSegmentsFromRelationships relationships
        /\ pairingSignatureFromRelationshipSegment s = signature d)
  /\ (forall s, pair_in (pair d) = Some s -> direction s = DirIn)
  /\ (forall s, pair_out (pair d) = Some s -> direction s = DirOut)
  /\ match storage d with
     | JoinStorage st =>
         segmentPairRequiresJoinTable (pair d) = true
         /\ joinTableDescriptionFromRelationshipSegmentPair (pair d) = Ok st
     | ForeignKeyStorage fk =>
         segmentPairRequiresJoinTable (pair d) = false
         /\ foreignKeyDescriptionFromRelationshipSegmentPair (pair d) = Ok fk
     end.
Proof.
  unfold segmentDescriptionsFromRelationships. intros Hds Hd.
  destruct (mapM_elem _ _ _ Hds d Hd) as ([k l] & Hkl & Hdescribe).
  destruct (grouped_pair relationships k l Hkl) as (Hne & Hmembers & Hin & Hout).
  unfold describeSegments in Hdescribe.
  destruct (segmentPairRequiresJoinTable _) eqn:Hjoin.
  - destruct (joinTableDescriptionFromRelationshipSegmentPair _) as [st |] eqn:Hst;
      cbn in Hdescribe; [| discriminate].
    inversion Hdescribe; subst d; cbn [pair signature storage]. auto 10.
  - destruct (foreignKeyDescriptionFromRelationshipSegmentPair _) as [fk |] eqn:Hfk;
      cbn in Hdescribe; [| discriminate].
    inversion Hdescribe; subst d; cbn [pair signature storage]. auto 10.
Qed.

Lemma descriptions_match_their_pairs_witness :
  exists ds d,
    @segmentDescriptionsFromRelationships asciiCasing [coAuthoredPosts] = Ok ds
    /\ d ∈ ds
    /\ signature d = "Comment|on|Post"
    /\ segmentPairRequiresJoinTable (pair d) = false
    /\ (forall s, s ∈ segmentsPresent (pair d) ->
          pairingSignatureFromRelationshipSegment s = "Comment|on|Post").
Proof.
  destruct (@segmentDescriptionsFromRelationships asciiCasing [coAuthoredPosts])
    as [ds |] eqn:Hds; [| vm_compute in Hds; discriminate].
  assert (exists d1 d, ds = [d1; d] /\ signature d = "Comment|on|Post"
                       /\ segmentPairRequiresJoinTable (pair d) = false)
    as (d1 & d & Hlist & Hsig & Hfk).
  { pose proof Hds as Hcomputed. vm_compute in Hcomputed.
    inversion Hcomputed. eexists. eexists. split; [reflexivity |].
    split; reflexivity. }
  assert (d ∈ ds) as Hd.
  { rewrite Hlist. apply elem_of_cons. right. apply elem_of_cons. auto. }
  exists ds, d. split; [reflexivity |]. split; [exact Hd |].
  split; [exact Hsig |]. split; [exact Hfk |].
  destruct (descriptions_match_their_pairs asciiCasing [coAuthoredPosts]
              ds d Hds Hd) as (_ & Hmembers & _).
  intros s Hs. rewrite <- Hsig. apply Hmembers, Hs.
Defined.

(** * Further properties of the schema compiler *)

Section TableColumns.
Context {casing : Casing}.
Variable baseType : GraphQLType -> Name.

Lemma forEachField_missing_directives (fs : list FieldDefinition) :
  forall cols,
    Exists (fun f => directives f = None) fs ->
    forEachField baseType fs cols
    = Failed "TypeError: Cannot read property 'some' of undefined".
Proof.
  induction fs as [| f fs IH]; intros cols Hex; [inversion Hex |].
  cbn [forEachField]. unfold addField, isDatabaseField, columnFromFieldDefintion.
  destruct (directives f) as [ds |] eqn:Hds.
  - apply Exists_cons in Hex as [Hf | Hfs]; [congruence |].
    destruct (negb _); cbn; apply IH, Hfs.
  - reflexivity.
Qed.

Lemma columns_names (fs : list FieldDefinition) :
  forall added,
    mapM (columnFromFieldDefintion baseType) fs = Ok added ->
    column_name <$> added = (fun f => snake (value (field_name f))) <$> fs.
Proof.
  induction fs as [| f fs IH]; cbn [mapM]; intros added H.
  - inversion H. reflexivity.
  - destruct (columnFromFieldDefintion baseType f) as [c |] eqn:Hc;
      cbn in H; [| discriminate].
    destruct (mapM _ fs) as [cs |]; cbn in H; [| discriminate].
    inversion H; subst. rewrite !fmap_cons, (IH cs eq_refl). f_equal.
    unfold columnFromFieldDefintion in Hc.
    destruct (directives f); inversion Hc. reflexivity.
Qed.
End TableColumns.

(** X7. When every field carries a directive list, the table of an entity
    has the [seq] column first and then one column per field that is
    neither virtual nor a relationship, in field order, named by the
    snake-cased field name; when some field has no directive list,
    compiling the entity throws a [TypeError]. *)
Theorem table_columns_follow_fields
    (casing : Casing) (baseType : GraphQLType -> Name)
    (definition : ObjectTypeDefinition) :
  (Forall (fun f => is_Some (directives f)) (fields definition) ->
   exists added,
     tableFromObjectTypeDefinition baseType definition
     = Ok {| table_name :=
               tableNameFromTypeName (value (definition_name definition));
             columns := seqColumn :: added;
             constraints := [] |}
     /\ column_name <$> added
        = (fun f => snake (value (field_name f)))
            <$> List.filter isDatabaseField (fields definition))
  /\ (Exists (fun f => directives f = None) (fields definition) ->
      tableFromObjectTypeDefinition baseType definition
      = Failed "TypeError: Cannot read property 'some' of undefined").
Proof.
  split.
  - intros Hfs.
    destruct (forEachField_columns baseType (fields definition) [seqColumn])
      as (added & Hadded & Hcols).
    { eapply Forall_impl; [exact Hfs | auto]. }
    exists added. split.
    + unfold tableFromObjectTypeDefinition. rewrite Hcols. reflexivity.
    + apply (columns_names baseType), Hadded.
  - intros Hex. unfold tableFromObjectTypeDefinition.
    rewrite (forEachField_missing_directives baseType _ _ Hex). reflexivity.
Qed.

Lemma table_columns_follow_fields_witness :
  let named n := NamedType {| value := n |} in
  let directive n := {| directive_name := {| value := n |} |} in
  let post :=
    {| definition_name := {| value := "Post" |};
       fields :=
         [ {| field_name := {| value := "id" |};
              field_type := NonNullType (named "ID"); directives := Some [] |};
           {| field_name := {| value := "createdAt" |};
              field_type := named "Date"; directives := Some [directive "index"] |};
           {| field_name := {| value := "author" |};
              field_type := named "User";
              directives := Some [directive "relationship"] |};
           {| field_name := {| value := "excerpt" |};
              field_type := named "String";
              directives := Some [directive "virtual"] |} ] |} in
  exists table,
    @tableFromObjectTypeDefinition asciiCasing
      (fun _ => {| value := "String" |}) post = Ok table
    /\ table_name table = "posts"
    /\ column_name <$> columns table = ["seq"; "id"; "created_at"].
Proof.
  intros named directive post.
  destruct (table_columns_follow_fields asciiCasing
              (fun _ => {| value := "String" |}) post) as [Hok _].
  destruct Hok as (added & Htable & Hnames).
  { repeat constructor; eexists; reflexivity. }
  eexists. split; [exact Htable |]. split; [reflexivity |].
  cbn [columns]. rewrite fmap_cons, Hnames. reflexivity.
Defined.

Section SchemaAssembly.
Context {casing : Casing}.
Variable baseType : GraphQLType -> Name.

Lemma addObjectType_step (st : SchemaState) (definition : ObjectTypeDefinition) :
  addObjectType baseType st definition
  = match tableFromObjectTypeDefinition baseType definition with
    | Ok table =>
        Ok {| st_tables := st_tables st ++ [table];
              st_tablesByName :=
                <[table_name table := length (st_tables st)]> (st_tablesByName st);
              st_indices :=
                st_indices st ++ indicesFromObjectTypeDefinition definition |}
    | Failed msg => Failed msg
    end.
Proof.
  unfold addObjectType.
  destruct (tableFromObjectTypeDefinition baseType definition); reflexivity.
Qed.

(** The dictionary refers to tables of the array, each under its name. *)
Lemma addObjectType_loop (definitions : list ObjectTypeDefinition) :
  forall st,
    (forall name i, st_tablesByName st !! name = Some i ->
       exists t, st_tables st !! i = Some t /\ table_name t = name) ->
    (forall name, is_Some (st_tablesByName st !! name)
                  <-> name ∈ table_name <$> st_tables st) ->
    match mapM (tableFromObjectTypeDefinition baseType) definitions with
    | Ok ts =>
        exists st',
          forEachM (addObjectType baseType) definitions st = Ok st'
          /\ st_tables st' = st_tables st ++ ts
          /\ st_indices st'
             = st_indices st
                 ++ concat (map indicesFromObjectTypeDefinition definitions)
          /\ (forall name i, st_tablesByName st' !! name = Some i ->
                exists t, st_tables st' !! i = Some t /\ table_name t = name)
          /\ (forall name, is_Some (st_tablesByName st' !! name)
                           <-> name ∈ table_name <$> st_tables st')
    | Failed msg => forEachM (addObjectType baseType) definitions st = Failed msg
    end.
Proof.
  induction definitions as [| definition definitions IH]; intros st Hrefs Hdom;
    cbn [mapM forEachM map concat].
  - exists st. rewrite !app_nil_r. auto.
  - rewrite addObjectType_step.
    destruct (tableFromObjectTypeDefinition baseType definition) as [t | msg];
      cbn [mbind Result_bind]; [| reflexivity].
    match goal with
    | |- context [forEachM _ definitions ?s] => specialize (IH s)
    end.
    cbn [st_tables st_tablesByName st_indices] in IH.
    assert (forall name i,
               <[table_name t := length (st_tables st)]> (st_tablesByName st)
                 !! name = Some i ->
               exists t0, (st_tables st ++ [t]) !! i = Some t0
                          /\ table_name t0 = name) as Hrefs1.
    { intros name i Hlookup. apply lookup_insert_Some in Hlookup
        as [[<- <-] | [_ Hlookup]].
      - exists t. split; [apply list_lookup_middle; reflexivity | reflexivity].
      - destruct (Hrefs name i Hlookup) as (t0 & Ht0 & Hname).
        exists t0. split; [apply lookup_app_l_Some, Ht0 | exact Hname]. }
    assert (forall name,
               is_Some (<[table_name t := length (st_tables st)]>
                          (st_tablesByName st) !! name)
               <-> name ∈ table_name <$> (st_tables st ++ [t])) as Hdom1.
    { intros name. rewrite lookup_insert_is_Some', fmap_app, elem_of_app, Hdom.
      cbn. rewrite list_elem_of_singleton. intuition congruence. }
    specialize (IH Hrefs1 Hdom1).
    destruct (mapM _ definitions) as [ts | msg]; cbn [mbind Result_bind];
      [| exact IH].
    destruct IH as (st' & Hloop & Htables & Hindices & Hrefs' & Hdom').
    exists st'. split; [exact Hloop |].
    split; [rewrite Htables, <- app_assoc; reflexivity |].
    split; [rewrite Hindices, <- app_assoc; reflexivity |].
    split; assumption.
Qed.

(** A table of the array keeps its position and name and loses no column
    when a description is added. *)
Lemma addSegmentDescription_keeps st segment st' :
  addSegmentDescription st segment = Ok st' ->
  st_tablesByName st' = st_tablesByName st
  /\ length (st_indices st') = length (st_indices st) + 1
  /\ table_name <$> st_tables st'
     = (table_name <$> st_tables st) ++ joinTableNames [segment]
  /\ (forall i t, st_tables st !! i = Some t ->
        exists t', st_tables st' !! i = Some t'
                   /\ table_name t' = table_name t
                   /\ forall c, c ∈ columns t -> c ∈ columns t').
Proof.
  unfold addSegmentDescription, joinTableNames. cbn [omap list_omap].
  destruct (storage segment) as [jt | fk].
  - intros H. inversion H; subst; clear H. cbn.
    rewrite length_app, fmap_app. cbn. repeat split; auto.
    intros i t Ht. exists t. split; [apply lookup_app_l_Some, Ht | auto].
  - destruct (st_tablesByName st !! fk_table fk) as [position |]; [| discriminate].
    intros H. inversion H; subst; clear H. cbn.
    rewrite length_app, app_nil_r. cbn. repeat split; auto.
    + apply list_eq. intros i. rewrite !list_lookup_fmap.
      destruct (decide (position = i)) as [-> | Hne].
      * rewrite list_lookup_alter_eq. destruct (st_tables st !! i); reflexivity.
      * rewrite list_lookup_alter_ne by exact Hne. reflexivity.
    + intros i t Ht. destruct (decide (position = i)) as [-> | Hne].
      * exists (pushColumn (columnFromForeignKeyDescription fk) t).
        rewrite list_lookup_alter_eq, Ht. split; [reflexivity |].
        split; [reflexivity |]. intros c Hc. cbn. apply elem_of_app. auto.
      * exists t. rewrite list_lookup_alter_ne by exact Hne. auto.
Qed.

Lemma addSegmentDescription_loop (ds : list RelationshipSegmentDescription) :
  forall st,
    (forall name i, st_tablesByName st !! name = Some i ->
       exists t, st_tables st !! i = Some t /\ table_name t = name) ->
    Forall (fun fk => is_Some (st_tablesByName st !! fk_table fk))
      (foreignKeys ds) ->
    exists st',
      forEachM addSegmentDescription ds st = Ok st'
      /\ length (st_indices st') = length (st_indices st) + length ds
      /\ table_name <$> st_tables st'
         = (table_name <$> st_tables st) ++ joinTableNames ds
      /\ (forall i t, st_tables st !! i = Some t ->
            exists t', st_tables st' !! i = Some t'
                       /\ table_name t' = table_name t
                       /\ forall c, c ∈ columns t -> c ∈ columns t')
      /\ (forall fk, fk ∈ foreignKeys ds ->
            exists t, t ∈ st_tables st'
                      /\ table_name t = fk_table fk
                      /\ columnFromForeignKeyDescription fk ∈ columns t).
Proof.
  induction ds as [| d ds IH]; intros st Hrefs Hpresent; cbn [forEachM].
  - exists st. cbn. rewrite app_nil_r, Nat.add_0_r.
    repeat split; eauto. intros fk Hfk. inversion Hfk.
  - assert (exists st1, addSegmentDescription st d = Ok st1) as [st1 Hstep].
    { unfold addSegmentDescription. unfold foreignKeys in Hpresent.
      cbn [omap list_omap] in Hpresent.
      destruct (storage d) as [jt | fk]; [eauto |].
      apply Forall_cons in Hpresent as [[i Hi] _]. rewrite Hi. eauto. }
    rewrite Hstep. cbn [mbind Result_bind].
    destruct (addSegmentDescription_keeps _ _ _ Hstep)
      as (Hsame & Hindices & Hnames & Hmono).
    destruct (IH st1) as (st' & Hloop & Hindices' & Hnames' & Hmono' & Hkeys').
    { intros name i Hlookup. rewrite Hsame in Hlookup.
      destruct (Hrefs name i Hlookup) as (t & Ht & Hname).
      destruct (Hmono i t Ht) as (t' & Ht' & Hname' & _).
      exists t'. split; [exact Ht' | congruence]. }
    { rewrite Hsame. unfold foreignKeys in *. cbn [omap list_omap] in Hpresent.
      destruct (storage d); [exact Hpresent |].
      apply Forall_cons in Hpresent as [_ Hpresent]. exact Hpresent. }
    exists st'. split; [exact Hloop |]. split; [cbn; lia |]. split.
    { rewrite Hnames', Hnames, <- app_assoc. f_equal.
      unfold joinTableNames. cbn [omap list_omap].
      destruct (storage d); reflexivity. }
    split.
    { intros i t Ht. destruct (Hmono i t Ht) as (t1 & Ht1 & Hname1 & Hcols1).
      destruct (Hmono' i t1 Ht1) as (t' & Ht' & Hname' & Hcols').
      exists t'. split; [exact Ht' |]. split; [congruence | auto]. }
    intros fk Hfk. unfold foreignKeys in Hfk. cbn [omap list_omap] in Hfk.
    destruct (storage d) as [jt | fk0] eqn:Hstorage; [apply Hkeys', Hfk |].
    apply elem_of_cons in Hfk as [-> | Hfk]; [| apply Hkeys', Hfk].
    unfold addSegmentDescription in Hstep. rewrite Hstorage in Hstep.
    destruct (st_tablesByName st !! fk_table fk0) as [i |] eqn:Hi;
      [| discriminate].
    destruct (Hrefs _ _ Hi) as (t & Ht & Hname).
    inversion Hstep; subst st1; clear Hstep. cbn in *.
    destruct (Hmono' i (pushColumn (columnFromForeignKeyDescription fk0) t))
      as (t' & Ht' & Hname' & Hcols').
    { rewrite list_lookup_alter_eq, Ht. reflexivity. }
    exists t'. split; [eapply list_elem_of_lookup_2, Ht' |].
    split; [cbn in Hname'; congruence |].
    apply Hcols'. cbn. apply elem_of_app. right.
    apply list_elem_of_singleton. reflexivity.
Qed.

Lemma addSegmentDescription_loop_fails (ds : list RelationshipSegmentDescription) :
  forall st,
    Exists (fun fk => st_tablesByName st !! fk_table fk = None)
      (foreignKeys ds) ->
    forEachM addSegmentDescription ds st
    = Failed "TypeError: Cannot read property of undefined".
Proof.
  induction ds as [| d ds IH]; intros st Hmissing; cbn [forEachM].
  - inversion Hmissing.
  - destruct (addSegmentDescription st d) as [st1 | msg] eqn:Hstep;
      cbn [mbind Result_bind].
    + destruct (addSegmentDescription_keeps _ _ _ Hstep) as (Hsame & _).
      apply IH. rewrite Hsame. unfold foreignKeys in *.
      cbn [omap list_omap] in Hmissing.
      unfold addSegmentDescription in Hstep.
      destruct (storage d) as [jt | fk]; [exact Hmissing |].
      apply Exists_cons in Hmissing as [Hnone | Hmissing]; [| exact Hmissing].
      rewrite Hnone in Hstep. discriminate.
    + unfold addSegmentDescription in Hstep.
      destruct (storage d) as [jt | fk]; [discriminate |].
      destruct (st_tablesByName st !! fk_table fk); [discriminate |].
      inversion Hstep. reflexivity.
Qed.
End SchemaAssembly.

Lemma schemaFromSchemaInfo_steps (casing : Casing)
    (baseType : GraphQLType -> Name)
    (objectTypes : list ObjectTypeDefinition) (relationships : list Relationship)
    (ts : list Table) (ds : list RelationshipSegmentDescription) :
  mapM (tableFromObjectTypeDefinition baseType) objectTypes = Ok ts ->
  segmentDescriptionsFromRelationships relationships = Ok ds ->
  exists st,
    schemaFromSchemaInfo baseType objectTypes relationships
    = (st' ← forEachM addSegmentDescription ds st;
       Ok {| tables := st_tables st'; indices := st_indices st' |})
    /\ st_tables st = ts
    /\ st_indices st = concat (map indicesFromObjectTypeDefinition objectTypes)
    /\ (forall name i, st_tablesByName st !! name = Some i ->
          exists t, st_tables st !! i = Some t /\ table_name t = name)
    /\ (forall name, is_Some (st_tablesByName st !! name)
                     <-> name ∈ table_name <$> ts).
Proof.
  intros Hts Hds.
  pose proof (addObjectType_loop baseType objectTypes
                {| st_tables := []; st_tablesByName := ∅; st_indices := [] |})
    as Hloop.
  rewrite Hts in Hloop.
  destruct Hloop as (st & Hloop & Htables & Hindices & Hrefs & Hdom).
  { intros name i Hlookup. cbn [st_tablesByName] in Hlookup.
    rewrite lookup_empty in Hlookup. discriminate. }
  { intros name. cbn [st_tablesByName st_tables fmap list_fmap].
    rewrite lookup_empty, elem_of_nil.
    split; [intros [x Hx]; discriminate | tauto]. }
  exists st. unfold schemaFromSchemaInfo.
  rewrite Hloop, Hds. cbn [mbind Result_bind] in *.
  cbn in Htables, Hindices. rewrite Htables in Hdom.
  repeat split; auto; apply Hdom.
Qed.

(** X8. When the entity tables compile and every foreign key's owning
    table is the table of some entity, schema assembly succeeds: the
    tables are the entity tables followed by one table per join-table
    description, the indices are those of the entities plus one per
    description, and every foreign key's column, referencing [id] of the
    referenced table, sits in a table carrying the owning table's name. *)
Theorem schema_holds_every_foreign_key
    (casing : Casing) (baseType : GraphQLType -> Name)
    (objectTypes : list ObjectTypeDefinition) (relationships : list Relationship)
    (ts : list Table) (ds : list RelationshipSegmentDescription) :
  mapM (tableFromObjectTypeDefinition baseType) objectTypes = Ok ts ->
  segmentDescriptionsFromRelationships relationships = Ok ds ->
  Forall (fun fk => fk_table fk ∈ table_name <$> ts) (foreignKeys ds) ->
  exists schema,
    schemaFromSchemaInfo baseType objectTypes relationships = Ok schema
    /\ table_name <$> tables schema = (table_name <$> ts) ++ joinTableNames ds
    /\ length (indices schema)
       = length (concat (map indicesFromObjectTypeDefinition objectTypes))
         + length ds
    /\ (forall fk, fk ∈ foreignKeys ds ->
          exists t, t ∈ tables schema
                    /\ table_name t = fk_table fk
                    /\ columnFromForeignKeyDescription fk ∈ columns t).
Proof.
  intros Hts Hds Hpresent.
  destruct (schemaFromSchemaInfo_steps casing baseType objectTypes relationships
              ts ds Hts Hds) as (st & Hschema & Htables & Hindices & Hrefs & Hdom).
  destruct (addSegmentDescription_loop ds st Hrefs)
    as (st' & Hloop & Hcount & Hnames & _ & Hkeys).
  { eapply Forall_impl; [exact Hpresent |]. intros fk Hfk. apply Hdom, Hfk. }
  exists {| tables := st_tables st'; indices := st_indices st' |}.
  rewrite Hschema, Hloop. cbn [mbind Result_bind tables indices].
  rewrite Hnames, Hcount, Htables, Hindices. auto.
Qed.

Lemma schema_holds_every_foreign_key_witness :
  exists schema,
    @schemaFromSchemaInfo asciiCasing namedBase
      [plainEntity "Author"; plainEntity "Post"; plainEntity "Comment"]
      [coAuthoredPosts] = Ok schema
    /\ table_name <$> tables schema
       = ["authors"; "posts"; "comments"; "author_wrote_posts"]
    /\ length (indices schema) = 2
    /\ exists t, t ∈ tables schema
                 /\ table_name t = "comments"
                 /\ "on_post_id" ∈ column_name <$> columns t.
Proof.
  destruct (mapM (@tableFromObjectTypeDefinition asciiCasing namedBase)
              [plainEntity "Author"; plainEntity "Post"; plainEntity "Comment"])
    as [ts |] eqn:Hts; [| vm_compute in Hts; discriminate].
  destruct (@segmentDescriptionsFromRelationships asciiCasing [coAuthoredPosts])
    as [ds |] eqn:Hds; [| vm_compute in Hds; discriminate].
  pose proof Hts as Hts'. pose proof Hds as Hds'.
  vm_compute in Hts'. vm_compute in Hds'.
  inversion Hts' as [Hts'']. inversion Hds' as [Hds''].
  destruct (schema_holds_every_foreign_key asciiCasing namedBase _ _ ts ds
              Hts Hds) as (schema & Hschema & Hnames & Hcount & Hkeys).
  { rewrite <- Hts'', <- Hds''. apply Forall_cons. split; [| apply Forall_nil_2].
    apply list_elem_of_In. vm_compute. auto. }
  exists schema. split; [exact Hschema |]. split.
  { rewrite Hnames, <- Hts'', <- Hds''. reflexivity. }
  split.
  { rewrite Hcount, <- Hds''. reflexivity. }
  destruct (Hkeys (@keyedOn asciiCasing
                     {| fromType := "Post"; toType := "Comment"; label := "on";
                        direction := DirIn; cardinality := Plural;
                        nonNull := false |} false))
    as (t & Ht & Hname & Hcolumn).
  { rewrite <- Hds''. apply list_elem_of_In. vm_compute. auto. }
  exists t. split; [exact Ht |]. split; [exact Hname |].
  apply list_elem_of_fmap. eexists. split; [| exact Hcolumn]. reflexivity.
Defined.

(** X9. When the entity tables compile and the descriptions include a
    foreign key whose owning table is not the table of any entity, schema
    assembly throws a [TypeError]. *)
Theorem schema_fails_on_missing_table
    (casing : Casing) (baseType : GraphQLType -> Name)
    (objectTypes : list ObjectTypeDefinition) (relationships : list Relationship)
    (ts : list Table) (ds : list RelationshipSegmentDescription) :
  mapM (tableFromObjectTypeDefinition baseType) objectTypes = Ok ts ->
  segmentDescriptionsFromRelationships relationships = Ok ds ->
  Exists (fun fk => fk_table fk ∉ table_name <$> ts) (foreignKeys ds) ->
  schemaFromSchemaInfo baseType objectTypes relationships
  = Failed "TypeError: Cannot read property of undefined".
Proof.
  intros Hts Hds Hmissing.
  destruct (schemaFromSchemaInfo_steps casing baseType objectTypes relationships
              ts ds Hts Hds) as (st & Hschema & _ & _ & _ & Hdom).
  rewrite Hschema, (addSegmentDescription_loop_fails ds st); [reflexivity |].
  eapply Exists_impl; [exact Hmissing |]. intros fk Hfk.
  destruct (st_tablesByName st !! fk_table fk) as [i |] eqn:Hi; [| reflexivity].
  exfalso. apply Hfk, Hdom. eauto.
Qed.

Lemma schema_fails_on_missing_table_witness :
  @schemaFromSchemaInfo asciiCasing namedBase
    [plainEntity "Author"; plainEntity "Post"] [coAuthoredPosts]
  = Failed "TypeError: Cannot read property of undefined".
Proof.
  destruct (mapM (@tableFromObjectTypeDefinition asciiCasing namedBase)
              [plainEntity "Author"; plainEntity "Post"])
    as [ts |] eqn:Hts; [| vm_compute in Hts; discriminate].
  destruct (@segmentDescriptionsFromRelationships asciiCasing [coAuthoredPosts])
    as [ds |] eqn:Hds; [| vm_compute in Hds; discriminate].
  pose proof Hts as Hts'. pose proof Hds as Hds'.
  vm_compute in Hts'. vm_compute in Hds'.
  inversion Hts' as [Hts'']. inversion Hds' as [Hds''].
  apply (schema_fails_on_missing_table asciiCasing namedBase _ _ ts ds Hts Hds).
  rewrite <- Hts'', <- Hds''. apply Exists_cons_hd.
  intros Hin. apply list_elem_of_In in Hin. vm_compute in Hin.
  destruct Hin as [H | [H | []]]; discriminate.
Defined.

(** * Further properties of the relationship resolver *)

Section PathCompilation.
Context {casing : Casing}.
Variable m : gmap string RelationshipSegmentDescription.

Lemma joinsFromSegment_described (s : RelationshipSegment) :
  match joinsFromSegment m s with
  | Ok js => is_Some (descriptionFromSegment m s) /\ length js <= 2
  | Failed msg =>
      msg = "TypeError: Cannot read property of undefined"
      /\ descriptionFromSegment m s = None
  end.
Proof.
  unfold joinsFromSegment.
  destruct (descriptionFromSegment m s) as [d |]; cbn; [| auto].
  destruct (storage d) as [jt | fk].
  - destruct (String.eqb _ _); cbn; split; eauto.
  - destruct (Direction_eqb _ _); cbn; split; eauto.
Qed.

Lemma mapM_joinsFromSegment (l : list RelationshipSegment) :
  match mapM (joinsFromSegment m) l with
  | Ok pushed =>
      Forall (fun s => is_Some (descriptionFromSegment m s)) l
      /\ length (concat pushed) <= 2 * length l
  | Failed msg =>
      msg = "TypeError: Cannot read property of undefined"
      /\ Exists (fun s => descriptionFromSegment m s = None) l
  end.
Proof.
  induction l as [| s l IH]; cbn [mapM].
  - split; [constructor | cbn; lia].
  - pose proof (joinsFromSegment_described s) as Hs.
    destruct (joinsFromSegment m s) as [js | msg]; cbn [mbind Result_bind].
    + destruct Hs as [Hs Hlen].
      destruct (mapM (joinsFromSegment m) l) as [pushed | msg];
        cbn [mbind Result_bind].
      * destruct IH as [IH Hlen']. split; [constructor; assumption |].
        cbn [concat length]. rewrite length_app. lia.
      * destruct IH as [-> IH]. split; [reflexivity | apply Exists_cons_tl, IH].
    + destruct Hs as [-> Hs]. split; [reflexivity | apply Exists_cons_hd, Hs].
Qed.

Lemma joinsFromSegments_described (segments : list RelationshipSegment) :
  match joinsFromSegments m segments with
  | Ok js =>
      Forall (fun s => is_Some (descriptionFromSegment m s)) segments
      /\ length js <= 2 * length segments
  | Failed msg =>
      msg = "TypeError: Cannot read property of undefined"
      /\ Exists (fun s => descriptionFromSegment m s = None) segments
  end.
Proof.
  unfold joinsFromSegments.
  pose proof (mapM_joinsFromSegment (rev segments)) as H.
  destruct (mapM (joinsFromSegment m) (rev segments)) as [pushed | msg];
    cbn [mbind Result_bind].
  - destruct H as [H Hlen]. rewrite length_rev in Hlen. split; [| exact Hlen].
    apply List.Forall_rev in H. rewrite rev_involutive in H. exact H.
  - destruct H as [-> H]. split; [reflexivity |].
    apply List.Exists_rev in H. rewrite rev_involutive in H. exact H.
Qed.

Lemma joinsFromInitialSegment_described (s : RelationshipSegment) :
  match joinsFromInitialSegment m s with
  | Ok js => is_Some (descriptionFromSegment m s) /\ length js <= 1
  | Failed msg =>
      msg = "TypeError: Cannot read property of undefined"
      /\ descriptionFromSegment m s = None
  end.
Proof.
  unfold joinsFromInitialSegment.
  destruct (descriptionFromSegment m s) as [d |]; cbn; [| auto].
  destruct (storage d) as [jt | fk]; [destruct (direction s) |];
    cbn; split; eauto.
Qed.

Lemma conditionFromSegment_described (s : RelationshipSegment) :
  match conditionFromSegment m s with
  | Ok c =>
      is_Some (descriptionFromSegment m s)
      /\ operator c = "=" /\ cond_value c = "ANY ($1)"
  | Failed msg =>
      msg = "TypeError: Cannot read property of undefined"
      /\ descriptionFromSegment m s = None
  end.
Proof.
  unfold conditionFromSegment.
  destruct (descriptionFromSegment m s) as [d |]; cbn; [| auto].
  destruct (storage d) as [jt | fk];
    [destruct (direction s) | destruct (Direction_eqb _ _)];
    cbn; repeat split; eauto.
Qed.

Lemma compactJoins_length (js : list Join) :
  length (compactJoins js) <= length js.
Proof. rewrite compactJoins_unfold. apply compactJoins_rec_length. Qed.

(** The outcome of compiling a path, by cases. *)
Lemma queryFromRelationship_cases (relationship : Relationship) :
  match queryFromRelationship m relationship with
  | Ok q =>
      Forall (fun s => is_Some (descriptionFromSegment m s)) (path relationship)
      /\ (exists final c,
             last (path relationship) = Some final
             /\ query_table q = tableNameFromTypeName (toType final)
             /\ conditions q = [c]
             /\ operator c = "=" /\ cond_value c = "ANY ($1)")
      /\ limit q = None /\ order q = None /\ batched q = Some true
      /\ length (joins q) + 1 <= 2 * length (path relationship)
  | Failed msg =>
      msg = "TypeError: Cannot read property of undefined"
      /\ (path relationship = []
          \/ Exists (fun s => descriptionFromSegment m s = None)
               (path relationship))
  end.
Proof.
  unfold queryFromRelationship, joinsFromPath.
  destruct (path relationship) as [| s rest] eqn:Hpath.
  { cbn. auto. }
  destruct (last (s :: rest)) as [final |] eqn:Hlast.
  2: { apply last_None in Hlast. discriminate. }
  cbn [defined mbind Result_bind head tail].
  pose proof (joinsFromSegments_described rest) as Hrest.
  destruct (joinsFromSegments m rest) as [js | msg]; cbn [mbind Result_bind].
  2: { destruct Hrest as [-> Hrest]. split; [reflexivity |].
       right. apply Exists_cons_tl, Hrest. }
  destruct Hrest as [Hrest Hlen].
  pose proof (joinsFromInitialSegment_described s) as Hs.
  destruct (joinsFromInitialSegment m s) as [js0 | msg]; cbn [mbind Result_bind].
  2: { destruct Hs as [-> Hs]. split; [reflexivity |].
       right. apply Exists_cons_hd, Hs. }
  destruct Hs as [Hs Hlen0].
  pose proof (conditionFromSegment_described s) as Hc.
  destruct (conditionFromSegment m s) as [c | msg]; cbn [mbind Result_bind].
  2: { destruct Hc as [-> Hc]. split; [reflexivity |].
       right. apply Exists_cons_hd, Hc. }
  destruct Hc as (_ & Hop & Hvalue).
  cbn [query_table conditions limit order batched joins].
  split; [constructor; assumption |].
  split; [exists final, c; auto |].
  repeat split.
  pose proof (compactJoins_length (js ++ js0)) as Hcompact.
  rewrite length_app in Hcompact. cbn [length]. lia.
Qed.
End PathCompilation.

(** X10. [queryFromRelationship] returns a query exactly when the path is
    non-empty and every segment of it has a description in the map; in
    every other case it throws a [TypeError]. *)
Theorem query_compiles_iff_path_described
    (casing : Casing) (m : gmap string RelationshipSegmentDescription)
    (relationship : Relationship) :
  ((exists q, queryFromRelationship m relationship = Ok q)
   <-> path relationship <> []
       /\ Forall (fun s => is_Some (descriptionFromSegment m s))
            (path relationship))
  /\ (forall msg,
         queryFromRelationship m relationship = Failed msg ->
         msg = "TypeError: Cannot read property of undefined").
Proof.
  pose proof (queryFromRelationship_cases m relationship) as Hcases.
  destruct (queryFromRelationship m relationship) as [q | msg].
  - destruct Hcases as (Hall & (final & c & Hlast & _) & _).
    split; [| discriminate]. split; [| eauto].
    intros _. split; [| exact Hall].
    intros Hnil. rewrite Hnil in Hlast. discriminate.
  - destruct Hcases as [-> Hwhy]. split.
    + split; [intros [q Hq]; discriminate |].
      intros [Hne Hall]. exfalso. destruct Hwhy as [Hnil | Hex]; [auto |].
      apply Exists_exists in Hex as (s & Hs & Hnone).
      rewrite Forall_forall in Hall. destruct (Hall s Hs) as [d Hd]. congruence.
    + intros msg Hmsg. inversion Hmsg. reflexivity.
Qed.

(** X11. A compiled query selects from the table of the last segment's
    target type, has the single condition [= ANY ($1)], no limit and no
    order, is marked batched, and has at most [2n - 1] joins for a path of
    [n] segments. *)
Theorem compiled_query_shape
    (casing : Casing) (m : gmap string RelationshipSegmentDescription)
    (relationship : Relationship) (q : Query) :
  queryFromRelationship m relationship = Ok q ->
  (exists final c,
      last (path relationship) = Some final
      /\ query_table q = tableNameFromTypeName (toType final)
      /\ conditions q = [c]
      /\ operator c = "=" /\ cond_value c = "ANY ($1)")
  /\ limit q = None /\ order q = None /\ batched q = Some true
  /\ length (joins q) + 1 <= 2 * length (path relationship).
Proof.
  intros Hq. pose proof (queryFromRelationship_cases m relationship) as Hcases.
  rewrite Hq in Hcases. destruct Hcases as (_ & Hshape). exact Hshape.
Qed.

Lemma compiled_query_shape_witness :
  exists m q,
    @segmentDescriptionsBySignature asciiCasing [coAuthoredPosts] = Ok m
    /\ @queryFromRelationship asciiCasing m coAuthoredPosts = Ok q
    /\ query_table q = "posts"
    /\ length (joins q) <= 5.
Proof.
  destruct (@segmentDescriptionsBySignature asciiCasing [coAuthoredPosts])
    as [m |] eqn:Hm; [| vm_compute in Hm; discriminate].
  destruct (@queryFromRelationship asciiCasing m coAuthoredPosts)
    as [q |] eqn:Hq.
  2: { exfalso. unfold segmentDescriptionsBySignature in Hm.
       destruct (@segmentDescriptionsFromRelationships asciiCasing
                   [coAuthoredPosts]) as [ds |] eqn:Hds;
         [| vm_compute in Hds; discriminate].
       vm_compute in Hds. inversion Hds; subst ds. cbn in Hm.
       inversion Hm; subst m. vm_compute in Hq. discriminate. }
  exists m, q. split; [reflexivity |]. split; [exact Hq |].
  destruct (compiled_query_shape asciiCasing m coAuthoredPosts q Hq)
    as ((final & c & Hlast & Htable & _) & _ & _ & _ & Hjoins).
  cbn in Hlast. inversion Hlast; subst final.
  split; [rewrite Htable; reflexivity |].
  cbn in Hjoins. lia.
Defined.

Lemma compactJoins_rec_tables (js : list Join) :
  forall j, j ∈ compactJoins_rec js -> join_table j ∈ join_table <$> js.
Proof.
  induction js as [| j0 | j0 n rest Hc IH | j0 n rest Hc IH]
    using compactJoins_rec_ind; intros j Hj.
  - inversion Hj.
  - apply list_elem_of_singleton in Hj as ->. cbn. apply elem_of_cons. auto.
  - rewrite compactJoins_rec_cons, Hc in Hj. rewrite !fmap_cons.
    apply elem_of_cons in Hj as [-> | Hj].
    + cbn. apply elem_of_cons. right. apply elem_of_cons. auto.
    + apply elem_of_cons. right. apply elem_of_cons. right. apply IH, Hj.
  - rewrite compactJoins_rec_cons, Hc in Hj. rewrite fmap_cons.
    apply elem_of_cons in Hj as [-> | Hj].
    + apply elem_of_cons. auto.
    + apply elem_of_cons. right. apply IH, Hj.
Qed.

Lemma compactJoins_rec_at_least_half (js : list Join) :
  length js <= 2 * length (compactJoins_rec js).
Proof.
  induction js as [| j0 | j0 n rest Hc IH | j0 n rest Hc IH]
    using compactJoins_rec_ind; try (cbn; lia).
  - rewrite compactJoins_rec_cons, Hc. cbn [length]. lia.
  - rewrite compactJoins_rec_cons, Hc. cbn [length] in *. lia.
Qed.

Lemma compactJoins_rec_last (js : list Join) :
  (fun j => (join_table j, cond_left (condition j))) <$> last (compactJoins_rec js)
  = (fun j => (join_table j, cond_left (condition j))) <$> last js.
Proof.
  induction js as [| j0 | j0 n rest Hc IH | j0 n rest Hc IH]
    using compactJoins_rec_ind; try reflexivity.
  - rewrite compactJoins_rec_cons, Hc.
    destruct rest as [| r rest]; [reflexivity |].
    destruct (compactJoins_rec_head r rest) as (x & t & Hx & _).
    rewrite Hx in IH |- *. rewrite !last_cons_cons. rewrite IH.
    reflexivity.
  - rewrite compactJoins_rec_cons, Hc.
    destruct (compactJoins_rec_head n rest) as (x & t & Hx & _).
    rewrite Hx in IH |- *. rewrite !last_cons_cons. exact IH.
Qed.

(** X12. Compaction returns between half as many joins as it is given
    (rounded up) and as many; it joins no table that the given list does
    not join; its first join attaches at the same right-hand column as the
    first given join, and its last join joins the same table at the same
    left-hand column as the last given join. *)
Theorem compaction_keeps_ends (js : list Join) :
  length (compactJoins js) <= length js
  /\ length js <= 2 * length (compactJoins js)
  /\ (forall j, j ∈ compactJoins js -> join_table j ∈ join_table <$> js)
  /\ (fun j => cond_right (condition j)) <$> head (compactJoins js)
     = (fun j => cond_right (condition j)) <$> head js
  /\ (fun j => (join_table j, cond_left (condition j))) <$> last (compactJoins js)
     = (fun j => (join_table j, cond_left (condition j))) <$> last js.
Proof.
  rewrite compactJoins_unfold.
  split; [apply compactJoins_rec_length |].
  split; [apply compactJoins_rec_at_least_half |].
  split; [apply compactJoins_rec_tables |].
  split; [| apply compactJoins_rec_last].
  destruct js as [| j rest]; [reflexivity |].
  destruct (compactJoins_rec_head j rest) as (x & t & Hx & Hright).
  rewrite Hx. cbn. rewrite Hright. reflexivity.
Qed.

(** * Further properties of the loaders *)

Section ConnectionLoader.
Context {casing : Casing}.
Variable query : string -> list Param -> DB (list Row).

Lemma loadConnection_accepted (q paged : Query) (key : string)
    (args : ConnectionArguments) (log : list Statement) :
  applyConnectionArgs q args = Ok paged ->
  loadConnection query q key args log
  = (let '(r, log') :=
       query (sqlStringFromQuery paged)
         ([KeysParam [key]]
            ++ (if truthy (js_or (arg_before args) (arg_after args))
                then [CursorParam
                        (default "" (js_or (arg_before args) (arg_after args)))]
                else []))
         log in
     (connectionOf <$> r, log')).
Proof.
  intros Hpaged. unfold loadConnection. rewrite Hpaged.
  unfold mbind at 1, DB_bind, liftResult.
  unfold mbind at 1, DB_bind.
  destruct (query _ _ log) as [[nodes | msg] log']; [| reflexivity].
  unfold mret, DB_ret, connectionOf. cbn [fmap Result_fmap].
  rewrite !length_map. reflexivity.
Qed.
End ConnectionLoader.

(** X13. For accepted connection arguments the connection loader runs the
    executor once, on the rendering of the paged query, and wraps its rows
    in order into edges whose cursor is the row's [id], with both counts
    equal to the number of rows and no further pages reported.  The key is
    bound as a one-element batch; a non-empty [before] or [after] is bound
    as second parameter; an empty one is not bound although the paged
    query compares against [$2]. *)
Theorem connection_loader_binds_cursor
    (casing : Casing) (query : string -> list Param -> DB (list Row))
    (q paged : Query) (key : string) (args : ConnectionArguments)
    (log : list Statement) :
  applyConnectionArgs q args = Ok paged ->
  exists params,
    loadConnection query q key args log
    = (let '(r, log') := query (sqlStringFromQuery paged) params log in
       (connectionOf <$> r, log'))
    /\ (arg_before args = None -> arg_after args = None ->
        params = [KeysParam [key]] /\ conditions paged = conditions q)
    /\ (forall c, c <> "" ->
          arg_before args = Some c \/ arg_after args = Some c ->
          params = [KeysParam [key]; CursorParam c]
          /\ length (conditions paged) = length (conditions q) + 1)
    /\ (arg_before args = Some "" \/ arg_after args = Some "" ->
        params = [KeysParam [key]]
        /\ length (conditions paged) = length (conditions q) + 1).
Proof.
  intros Hpaged. eexists. split; [apply loadConnection_accepted, Hpaged |].
  rewrite applyConnectionArgs_guard in Hpaged.
  destruct args as [f l b a o].
  unfold pagesForward, pagesBackward in Hpaged.
  cbn [arg_first arg_last arg_before arg_after arg_order] in *.
  unfold js_or.
  destruct b as [b |], a as [a |];
    destruct f, l; cbn in Hpaged; try discriminate;
    inversion Hpaged; subst paged; clear Hpaged;
    cbn [conditions]; rewrite ?app_nil_r, ?length_app; cbn [length];
    (split; [intros; try discriminate; auto |]);
    (split; [intros c Hc [Hcase | Hcase]; try discriminate;
             inversion Hcase; subst;
             change (truthy None) with false; cbv iota;
             rewrite ?(truthy_named c Hc); auto
            | intros [Hcase | Hcase]; try discriminate;
              inversion Hcase; subst; auto]).
Qed.

Lemma connection_loader_binds_cursor_witness :
  let q := {| query_table := "posts"; joins := [];
              conditions := [ {| cond_table := "posts";
                                 cond_column := "authored_by_user_id";
                                 operator := "="; cond_value := "ANY ($1)" |} ];
              limit := None; order := None; batched := Some true |} in
  let args := {| arg_first := Some 2%Z; arg_last := None;
                 arg_before := None; arg_after := Some "c7";
                 arg_order := None |} in
  let executor (sql : string) (params : list Param) : DB (list Row) :=
    fun log =>
      (Ok [ {[ "id" := "p1" ]}; {[ "id" := "p2" ]} ],
       log ++ [ {| stmt_sql := sql; stmt_params := params |} ]) in
  @loadConnection asciiCasing executor q "u1" args []
  = (Ok (connectionOf [ {[ "id" := "p1" ]}; {[ "id" := "p2" ]} ]),
     [ {| stmt_sql :=
            "SELECT posts.* FROM posts WHERE posts.authored_by_user_id = ANY ($1) AND posts.seq > (SELECT seq FROM posts WHERE id = $2) ORDER BY posts.seq ASC LIMIT 2;";
          stmt_params := [KeysParam ["u1"]; CursorParam "c7"] |} ]).
Proof.
  intros q args executor.
  destruct (@applyConnectionArgs asciiCasing q args) as [paged |] eqn:Hpaged;
    [| vm_compute in Hpaged; discriminate].
  destruct (connection_loader_binds_cursor asciiCasing executor q paged "u1"
              args [] Hpaged) as (params & Hload & _ & Hcursor & _).
  destruct (Hcursor "c7") as [Hparams _]; [discriminate | right; reflexivity |].
  rewrite Hload, Hparams. unfold executor.
  vm_compute in Hpaged. inversion Hpaged. reflexivity.
Defined.

(** X14. Paging only appends to a relationship's statement: for every
    relationship whose query compiles and all accepted connection
    arguments, the statement of the paged query is the statement of the
    relationship without its final semicolon, followed by the cursor
    condition (when [after] or [before] is given), the ORDER BY clause, the
    LIMIT clause (when [first] or [last] is given) and a semicolon. *)
Theorem paging_extends_statement
    (casing : Casing) (m : gmap string RelationshipSegmentDescription)
    (relationship : Relationship) (q paged : Query)
    (args : ConnectionArguments) :
  queryFromRelationship m relationship = Ok q ->
  applyConnectionArgs q args = Ok paged ->
  exists body,
    sqlStringFromQuery q = body +:+ ";"
    /\ sqlStringFromQuery paged
       = body
           +:+ match arg_after args, arg_before args with
               | Some _, _ =>
                   " AND " +:+ conditionString
                     (cursorBound (query_table q) (orderColumn args) ">")
               | None, Some _ =>
                   " AND " +:+ conditionString
                     (cursorBound (query_table q) (orderColumn args) "<")
               | None, None => ""
               end
           +:+ " ORDER BY " +:+ query_table q +:+ "." +:+ orderColumn args
           +:+ " " +:+ (if pagesBackward args then "DESC" else "ASC")
           +:+ match arg_first args, arg_last args with
               | Some n, _ => " LIMIT " +:+ numberString n
               | None, Some n => " LIMIT " +:+ numberString n
               | None, None => ""
               end
           +:+ ";".
Proof.
  intros Hq Hpaged.
  pose proof (queryFromRelationship_cases m relationship) as Hcases.
  rewrite Hq in Hcases.
  destruct Hcases as (_ & (final & c & _ & _ & Hconds & _) & Hlimit & Horder & _).
  rewrite applyConnectionArgs_guard in Hpaged.
  destruct (pagesForward args && pagesBackward args); [discriminate |].
  inversion Hpaged; subst paged; clear Hpaged.
  exists ("SELECT " +:+ query_table q +:+ ".* FROM " +:+ query_table q
            +:+ joinStrings "" (map joinString (joins q))
            +:+ " WHERE " +:+ conditionString c).
  unfold sqlStringFromQuery.
  cbn [query_table joins conditions order limit order_column order_direction].
  rewrite Hconds, Hlimit, Horder. split.
  - cbn [map joinStrings]. rewrite !append_assoc, !append_nil. reflexivity.
  - assert (Hdir : orderDirectionString (if pagesBackward args then DESC else ASC)
                   = if pagesBackward args then "DESC" else "ASC")
      by (destruct (pagesBackward args); reflexivity).
    rewrite Hdir.
    destruct (arg_after args), (arg_before args), (arg_first args),
      (arg_last args);
      cbn [app map joinStrings]; rewrite !append_assoc, ?append_nil;
      reflexivity.
Qed.

Lemma paging_extends_statement_witness :
  exists m q paged,
    @segmentDescriptionsBySignature asciiCasing [coAuthoredPosts] = Ok m
    /\ @queryFromRelationship asciiCasing m coAuthoredPosts = Ok q
    /\ @applyConnectionArgs asciiCasing q
         {| arg_first := None; arg_last := Some 3%Z;
            arg_before := Some "c9"; arg_after := None;
            arg_order := Some "createdAt" |} = Ok paged
    /\ exists body,
         sqlStringFromQuery q = body +:+ ";"
         /\ sqlStringFromQuery paged
            = body +:+ " AND posts.created_at < (SELECT created_at FROM posts WHERE id = $2) ORDER BY posts.created_at DESC LIMIT 3;".
Proof.
  destruct (@segmentDescriptionsBySignature asciiCasing [coAuthoredPosts])
    as [m |] eqn:Hm; [| vm_compute in Hm; discriminate].
  destruct (@queryFromRelationship asciiCasing m coAuthoredPosts)
    as [q |] eqn:Hq.
  2: { exfalso. unfold segmentDescriptionsBySignature in Hm.
       destruct (@segmentDescriptionsFromRelationships asciiCasing
                   [coAuthoredPosts]) as [ds |] eqn:Hds;
         [| vm_compute in Hds; discriminate].
       vm_compute in Hds. inversion Hds; subst ds. cbn in Hm.
       inversion Hm; subst m. vm_compute in Hq. discriminate. }
  pose (args := {| arg_first := None; arg_last := Some 3%Z;
                   arg_before := Some "c9"; arg_after := None;
                   arg_order := Some "createdAt" |}).
  destruct (@applyConnectionArgs asciiCasing q args) as [paged |] eqn:Hpaged.
  2: { exfalso. rewrite applyConnectionArgs_guard in Hpaged.
       cbn in Hpaged. discriminate. }
  exists m, q, paged. split; [reflexivity |]. split; [exact Hq |].
  split; [exact Hpaged |].
  destruct (paging_extends_statement asciiCasing m coAuthoredPosts q paged args
              Hq Hpaged) as (body & Hbase & Hpage).
  exists body. split; [exact Hbase |]. rewrite Hpage.
  pose proof (@queryFromRelationship_cases asciiCasing m coAuthoredPosts)
    as Hcases.
  rewrite Hq in Hcases.
  destruct Hcases as (_ & (final & c & Hlast & -> & _) & _).
  cbn in Hlast. inversion Hlast; subst final.
  f_equal.
Defined.

(** * Further properties of the request loaders *)

Section RequestLoaders.
Context {casing : Casing}.
Variable query : string -> list Param -> DB (list Row).
Variable m : gmap string RelationshipSegmentDescription.

Lemma loaderFromRelationship_cases (relationship : Relationship) :
  match loaderFromRelationship query m relationship with
  | Ok l =>
      described m relationship
      /\ loaderCardinality l = rel_cardinality relationship
  | Failed msg =>
      msg = "TypeError: Cannot read property of undefined"
      /\ ~ described m relationship
  end.
Proof.
  unfold loaderFromRelationship, described.
  pose proof (queryFromRelationship_cases m relationship) as Hq.
  unfold resolvedKeyColumnFromRelationship.
  destruct (path relationship) as [| s rest] eqn:Hpath.
  { cbn. split; [reflexivity |]. intros [Hne _]. congruence. }
  cbn [head defined mbind Result_bind].
  destruct (descriptionFromSegment m s) as [d |] eqn:Hd.
  2: { cbn. split; [reflexivity |]. intros [_ Hall].
       apply Forall_cons in Hall as [[d' Hd'] _]. congruence. }
  cbn [defined mbind Result_bind].
  assert (forall (k : string -> Result Loader) (r : Result string),
             (exists c, r = Ok c) -> exists c, (c ← r; k c) = k c) as Hbind.
  { intros k r [c ->]. exists c. reflexivity. }
  destruct (Hbind
              (fun keyColumn =>
                 baseQuery ← queryFromRelationship m relationship;
                 match rel_cardinality relationship with
                 | Singular =>
                     Ok (SingularLoader
                           (generateSingularRelationshipLoader query relationship
                              keyColumn (sqlStringFromQuery baseQuery)))
                 | Plural =>
                     Ok (PluralLoader
                           (generatePluralRelationshipLoader query relationship
                              keyColumn (sqlStringFromQuery baseQuery) baseQuery))
                 end)
              match storage d with
              | ForeignKeyStorage storage =>
                  if Direction_eqb (fk_direction storage) (direction s)
                  then Ok (camel (fk_column storage))
                  else Ok "id"
              | JoinStorage _ => Ok "id"
              end) as [c Hc].
  { destruct (storage d) as [jt | fk]; [eauto |].
    destruct (Direction_eqb _ _); eauto. }
  rewrite Hc. clear Hc Hbind.
  destruct (queryFromRelationship m relationship) as [q | msg];
    cbn [mbind Result_bind].
  - destruct Hq as (Hall & _).
    destruct (rel_cardinality relationship); cbn [loaderCardinality];
      (split; [split; [discriminate | exact Hall] | reflexivity]).
  - destruct Hq as [-> Hwhy]. split; [reflexivity |].
    intros [_ Hall]. destruct Hwhy as [Hnil | Hex]; [discriminate |].
    apply Exists_exists in Hex as (s' & Hs' & Hnone).
    rewrite Forall_forall in Hall. destruct (Hall s' Hs') as [d' Hd']. congruence.
Qed.

Lemma generateRelationshipLoaders_cases (relationships : list Relationship) :
  match generateRelationshipLoaders query m relationships with
  | Ok loaders =>
      Forall (described m) relationships
      /\ loaders.*1 = relationships
      /\ Forall (fun e => loaderCardinality e.2 = rel_cardinality e.1) loaders
  | Failed msg =>
      msg = "TypeError: Cannot read property of undefined"
      /\ Exists (fun r => ~ described m r) relationships
  end.
Proof.
  unfold generateRelationshipLoaders.
  induction relationships as [| r rs IH]; cbn [mapM].
  { split; [constructor |]. split; [reflexivity | constructor]. }
  pose proof (loaderFromRelationship_cases r) as Hr.
  destruct (loaderFromRelationship query m r) as [l | msg];
    cbn [mbind Result_bind].
  2: { destruct Hr as [-> Hr]. split; [reflexivity |].
       apply Exists_cons_hd, Hr. }
  destruct Hr as [Hr Hcard].
  destruct (mapM _ rs) as [loaders | msg]; cbn [mbind Result_bind].
  - destruct IH as (Hall & Hkeys & Hcards). split; [| split].
    + apply Forall_cons. auto.
    + cbn. rewrite Hkeys. reflexivity.
    + apply Forall_cons. auto.
  - destruct IH as [-> Hex]. split; [reflexivity |].
    apply Exists_cons_tl, Hex.
Qed.
End RequestLoaders.

(** X15. [generateRelationshipLoaders] builds the loaders of a request
    exactly when every relationship has a non-empty path whose segments all
    have a description in the map; it then sets one loader per relationship,
    in order, over keys for a singular relationship and over key/argument
    pairs for a plural one.  In every other case it throws a [TypeError]. *)
Theorem loaders_built_iff_paths_described
    (casing : Casing) (query : string -> list Param -> DB (list Row))
    (m : gmap string RelationshipSegmentDescription)
    (relationships : list Relationship) :
  ((exists loaders,
       generateRelationshipLoaders query m relationships = Ok loaders)
   <-> Forall (described m) relationships)
  /\ (forall loaders,
         generateRelationshipLoaders query m relationships = Ok loaders ->
         loaders.*1 = relationships
         /\ Forall (fun e => loaderCardinality e.2 = rel_cardinality e.1)
              loaders)
  /\ (forall msg,
         generateRelationshipLoaders query m relationships = Failed msg ->
         msg = "TypeError: Cannot read property of undefined").
Proof.
  pose proof (generateRelationshipLoaders_cases query m relationships) as Hcases.
  destruct (generateRelationshipLoaders query m relationships)
    as [loaders | msg].
  - destruct Hcases as (Hall & Hrest). split; [| split].
    + split; [auto | eauto].
    + intros loaders' Heq. inversion Heq; subst. exact Hrest.
    + discriminate.
  - destruct Hcases as [-> Hex]. split; [| split].
    + split; [intros [loaders Heq]; discriminate |].
      intros Hall. exfalso. apply Exists_exists in Hex as (r & Hr & Hnot).
      rewrite Forall_forall in Hall. apply Hnot, Hall, Hr.
    + discriminate.
    + intros msg Heq. inversion Heq. reflexivity.
Qed.

Section CompiledMap.
Context {casing : Casing}.

Lemma compiled_map_describes (relationships : list Relationship)
    (m : gmap string RelationshipSegmentDescription) (s : RelationshipSegment) :
  segmentDescriptionsBySignature relationships = Ok m ->
  Forall (fun s => wellNamed s = true) (declaredSegments relationships) ->
  s ∈ declaredSegments relationships ->
  exists d,
    descriptionFromSegment m s = Some d
    /\ signature d = pairingSignatureFromRelationshipSegment s.
Proof.
  unfold segmentDescriptionsBySignature. intros Hm Hnames Hs.
  destruct (segmentDescriptionsFromRelationships relationships) as [ds |] eqn:Hds;
    cbn [mbind Result_bind] in Hm; [| discriminate].
  inversion Hm; subst m; clear Hm.
  destruct (segmentDescriptions_signatures _ _ Hds) as [Hnd Hall].
  destruct (declared_survives relationships s Hs) as (s' & Hflat & Hdecl & Hid).
  rewrite Forall_forall in Hnames.
  pose proof (identity_determines_pairing s' s (Hnames _ Hdecl) (Hnames _ Hs) Hid)
    as Hsig.
  apply Hall, list_elem_of_fmap in Hflat as (d & Hd & Hdin).
  exists d. unfold descriptionFromSegment. rewrite <- Hsig, Hd.
  split; [apply keyMap_lookup; assumption | reflexivity].
Qed.

Lemma declared_on_path (relationships : list Relationship)
    (r : Relationship) (s : RelationshipSegment) :
  r ∈ relationships -> s ∈ path r -> s ∈ declaredSegments relationships.
Proof.
  intros Hr Hs. unfold declaredSegments.
  apply list_elem_of_In, in_concat. exists (path r).
  split; [apply in_map, list_elem_of_In, Hr | apply list_elem_of_In, Hs].
Qed.
End CompiledMap.

(** X16. The description map compiled from a list of relationships serves
    those relationships: when the names on the paths are free of the
    separator, every segment declared on a path has a description, filed
    under its pairing signature; so every relationship with a non-empty
    path has a query and both of its key columns, and when no path is
    empty the loaders of a request are built. *)
Theorem compiled_map_serves_its_relationships
    (casing : Casing) (relationships : list Relationship)
    (m : gmap string RelationshipSegmentDescription) :
  segmentDescriptionsBySignature relationships = Ok m ->
  Forall (fun s => wellNamed s = true) (declaredSegments relationships) ->
  (forall s, s ∈ declaredSegments relationships ->
     exists d, descriptionFromSegment m s = Some d
               /\ signature d = pairingSignatureFromRelationshipSegment s)
  /\ (forall r, r ∈ relationships -> path r <> [] ->
        (exists q, queryFromRelationship m r = Ok q)
        /\ (exists c, objectKeyColumnFromRelationship m r = Ok c)
        /\ (exists c, resolvedKeyColumnFromRelationship m r = Ok c))
  /\ (Forall (fun r => path r <> []) relationships ->
      forall query : string -> list Param -> DB (list Row),
      exists loaders,
        generateRelationshipLoaders query m relationships = Ok loaders).
Proof.
  intros Hm Hnames.
  assert (forall r, r ∈ relationships -> path r <> [] -> described m r)
    as Hdescribed.
  { intros r Hr Hne. split; [exact Hne |]. apply Forall_forall. intros s Hs.
    destruct (compiled_map_describes relationships m s Hm Hnames) as (d & Hd & _).
    - apply (declared_on_path relationships r s Hr Hs).
    - eauto. }
  split; [| split].
  - intros s Hs. apply (compiled_map_describes relationships m s Hm Hnames Hs).
  - intros r Hr Hne. destruct (Hdescribed r Hr Hne) as [_ Hall].
    split.
    { pose proof (queryFromRelationship_cases m r) as Hcases.
      destruct (queryFromRelationship m r) as [q | msg]; [eauto |].
      exfalso. destruct Hcases as [_ [Hnil | Hex]]; [auto |].
      apply Exists_exists in Hex as (s & Hs & Hnone).
      rewrite Forall_forall in Hall. destruct (Hall s Hs) as [d Hd]. congruence. }
    unfold objectKeyColumnFromRelationship, resolvedKeyColumnFromRelationship.
    destruct (path r) as [| s rest]; [congruence |].
    apply Forall_cons in Hall as [[d Hd] _].
    cbn [head defined mbind Result_bind]. rewrite Hd.
    cbn [defined mbind Result_bind].
    destruct (storage d) as [jt | fk]; [eauto |].
    destruct (Direction_eqb _ _); cbn [negb]; eauto.
  - intros Hpaths query.
    pose proof (generateRelationshipLoaders_cases query m relationships)
      as Hcases.
    destruct (generateRelationshipLoaders query m relationships)
      as [loaders | msg]; [eauto |].
    exfalso. destruct Hcases as [_ Hex].
    apply Exists_exists in Hex as (r & Hr & Hnot).
    rewrite Forall_forall in Hpaths. apply Hnot, Hdescribed; auto.
Qed.

Lemma compiled_map_serves_its_relationships_witness :
  exists m q,
    @segmentDescriptionsBySignature asciiCasing
      [coAuthoredPosts; authorTags true false] = Ok m
    /\ @queryFromRelationship asciiCasing m (authorTags true false) = Ok q.
Proof.
  destruct (@segmentDescriptionsBySignature asciiCasing
              [coAuthoredPosts; authorTags true false]) as [m |] eqn:Hm;
    [| vm_compute in Hm; discriminate].
  destruct (compiled_map_serves_its_relationships asciiCasing
              [coAuthoredPosts; authorTags true false] m Hm)
    as (_ & Hserved & _).
  { repeat (apply Forall_cons; split; [reflexivity |]). apply Forall_nil_2. }
  destruct (Hserved (authorTags true false)) as [[q Hq] _].
  { apply elem_of_cons. right. apply elem_of_cons. left. reflexivity. }
  { discriminate. }
  exists m, q. split; [reflexivity | exact Hq].
Defined.

(** * Further properties of the compiled joins *)

Lemma chainEnd_nil (t : string) : chainEnd t [] = t.
Proof. reflexivity. Qed.

Lemma chainEnd_cons (t : string) (j : Join) (js : list Join) :
  chainEnd t (j :: js) = chainEnd (join_table j) js.
Proof.
  unfold chainEnd. destruct js as [| j' js]; [reflexivity |].
  rewrite last_cons_cons.
  destruct (last (j' :: js)) as [x |] eqn:Hlast; [reflexivity |].
  apply last_None in Hlast. discriminate.
Qed.

Lemma chained_app (a b : list Join) :
  forall t, chained t (a ++ b) <-> chained t a /\ chained (chainEnd t a) b.
Proof.
  induction a as [| j a IH]; intros t.
  - cbn [app chained]. rewrite chainEnd_nil. tauto.
  - cbn [app chained]. rewrite chainEnd_cons, IH. tauto.
Qed.

Lemma chainEnd_app (a b : list Join) :
  forall t, chainEnd t (a ++ b) = chainEnd (chainEnd t a) b.
Proof.
  induction a as [| j a IH]; intros t.
  - reflexivity.
  - cbn [app]. rewrite !chainEnd_cons. apply IH.
Qed.

(** Compaction maps a chain to a chain with the same ends. *)
Lemma compactJoins_rec_chained (js : list Join) :
  forall t,
    chained t js ->
    chained t (compactJoins_rec js)
    /\ chainEnd t (compactJoins_rec js) = chainEnd t js.
Proof.
  induction js as [| j | j n rest Hc IH | j n rest Hc IH]
    using compactJoins_rec_ind; intros t Hchain.
  - split; [exact Hchain | reflexivity].
  - split; [exact Hchain | reflexivity].
  - rewrite compactJoins_rec_cons, Hc.
    destruct Hchain as (Hj & _ & Hn & Hnl & Hrest).
    destruct (IH _ Hrest) as [IHc IHe].
    split.
    + cbn [chained collapse join_table condition cond_left cond_right]. auto.
    + rewrite !chainEnd_cons. cbn [collapse join_table]. exact IHe.
  - rewrite compactJoins_rec_cons, Hc.
    destruct Hchain as (Hj & Hjl & Hrest).
    destruct (IH _ Hrest) as [IHc IHe].
    split.
    + cbn [chained]. auto.
    + rewrite (chainEnd_cons t j (compactJoins_rec (n :: rest))),
        (chainEnd_cons t j (n :: rest)).
      exact IHe.
Qed.

(** X17. Compaction maps a chain of joins to a chain of joins from the
    same table to the same table: if every join attaches the table it
    joins to the table joined just before it, so does every join of the
    compacted list, and the table joined last is the same. *)
Theorem compaction_preserves_chains (start : string) (js : list Join) :
  chained start js ->
  chained start (compactJoins js)
  /\ chainEnd start (compactJoins js) = chainEnd start js.
Proof.
  rewrite compactJoins_unfold. apply compactJoins_rec_chained.
Qed.

Lemma compaction_preserves_chains_witness :
  let js :=
    [ mkJoin "posts_tags" "posts_tags" "tag_id" "tags" "id";
      mkJoin "posts" "posts" "id" "posts_tags" "post_id";
      mkJoin "authors_posts" "authors_posts" "post_id" "posts" "id" ] in
  chained "tags" (compactJoins js)
  /\ chainEnd "tags" (compactJoins js) = "authors_posts"
  /\ length (compactJoins js) = 2.
Proof.
  intros js.
  destruct (compaction_preserves_chains "tags" js) as [Hchain Hend].
  { cbn. repeat split. }
  split; [exact Hchain |]. split; [rewrite Hend; reflexivity | reflexivity].
Defined.

Lemma keyMap_member {A : Type} (getKey : A -> string) (items : list A)
    (k : string) (x : A) :
  keyMap items getKey !! k = Some x -> x ∈ items /\ getKey x = k.
Proof.
  induction items as [| y items IH] using rev_ind; intros Hx.
  - unfold keyMap in Hx. cbn in Hx. rewrite lookup_empty in Hx. discriminate.
  - rewrite keyMap_snoc in Hx. apply lookup_insert_Some in Hx as [[<- <-] | [Hne Hx]].
    + split; [apply elem_of_app; right; apply list_elem_of_singleton; reflexivity
             | reflexivity].
    + destruct (IH Hx) as [Hin Hk]. split; [apply elem_of_app; auto | exact Hk].
Qed.

Section Linkage.
Context {casing : Casing}.

Lemma pairingSignature_endpoints (s s' : RelationshipSegment) :
  wellNamed s = true -> wellNamed s' = true ->
  pairingSignatureFromRelationshipSegment s
  = pairingSignatureFromRelationshipSegment s' ->
  if Direction_eqb (direction s) (direction s')
  then fromType s = fromType s' /\ toType s = toType s'
  else fromType s = toType s' /\ toType s = fromType s'.
Proof.
  intros Hs Hs' Heq.
  destruct (wellNamed_parts s Hs) as (Hf & Ht & Hl).
  destruct (wellNamed_parts s' Hs') as (Hf' & Ht' & Hl').
  unfold pairingSignatureFromRelationshipSegment in Heq.
  destruct (direction s), (direction s'); cbn [Direction_eqb];
    apply separator_split in Heq as [H1 Heq]; try assumption;
    apply separator_split in Heq as [H2 H3]; try assumption; auto.
Qed.

(** The pair a returned description is built from. *)
Lemma description_pair (relationships : list Relationship)
    (ds : list RelationshipSegmentDescription)
    (d : RelationshipSegmentDescription) :
  segmentDescriptionsFromRelationships relationships = Ok ds ->
  d ∈ ds ->
  segmentsPresent (pair d) <> []
  /\ (forall s, s ∈ segmentsPresent (pair d) ->
        s ∈ flattenedUniqueSegmentsFromRelationships relationships
        /\ pairingSignatureFromRelationshipSegment s = signature d)
  /\ (forall s, pair_in (pair d) = Some s -> direction s = DirIn)
  /\ (forall s, pair_out (pair d) = Some s -> direction s = DirOut)
  /\ match storage d with
     | JoinStorage st =>
         joinTableDescriptionFromRelationshipSegmentPair (pair d) = Ok st
     | ForeignKeyStorage fk =>
         foreignKeyDescriptionFromRelationshipSegmentPair (pair d) = Ok fk
     end.
Proof.
  unfold segmentDescriptionsFromRelationships. intros Hds Hd.
  destruct (mapM_elem _ _ _ Hds d Hd) as ([k l] & Hkl & Hdescribe).
  destruct (grouped_pair relationships k l Hkl) as (Hne & Hmembers & Hin & Hout).
  unfold describeSegments in Hdescribe.
  destruct (segmentPairRequiresJoinTable _) eqn:Hjoin.
  - destruct (joinTableDescriptionFromRelationshipSegmentPair _) as [st |] eqn:Hst;
      cbn in Hdescribe; [| discriminate].
    inversion Hdescribe; subst d; cbn [pair signature storage]. auto 10.
  - destruct (foreignKeyDescriptionFromRelationshipSegmentPair _) as [fk |] eqn:Hfk;
      cbn in Hdescribe; [| discriminate].
    inversion Hdescribe; subst d; cbn [pair signature storage]. auto 10.
Qed.

(** The tables of a join-table description are those of the endpoints of
    the segments of its pair. *)
Lemma joinTable_tables (p : RelationshipSegmentPair) (st : JoinTableDescription) :
  joinTableDescriptionFromRelationshipSegmentPair p = Ok st ->
  (forall i o, pair_in p = Some i -> pair_out p = Some o ->
     fromType i = toType o /\ toType i = fromType o) ->
  (forall o, pair_out p = Some o ->
     leftTableName st = tableNameFromTypeName (fromType o)
     /\ rightTableName st = tableNameFromTypeName (toType o))
  /\ (forall i, pair_in p = Some i ->
        leftTableName st = tableNameFromTypeName (toType i)
        /\ rightTableName st = tableNameFromTypeName (fromType i)).
Proof.
  unfold joinTableDescriptionFromRelationshipSegmentPair, js_or.
  destruct p as [[i |] [o |]];
    cbn [pair_in pair_out fmap option_fmap option_map]; intros Hst Hboth.
  - destruct (Hboth i o eq_refl eq_refl) as [Hfrom Hto].
    rewrite Hfrom, Hto in Hst.
    assert (forall x : string,
               (if truthy (Some x) then Some x else Some x) = Some x) as Hsame
      by (intros x; destruct (truthy (Some x)); reflexivity).
    rewrite !Hsame in Hst.
    destruct (invariant _ _); cbn [mbind Result_bind default from_option] in Hst;
      [| discriminate].
    unfold id in Hst. inversion Hst; subst st; clear Hst.
    cbn [leftTableName rightTableName].
    split; intros x Hx; inversion Hx; subst; rewrite ?Hfrom, ?Hto; auto.
  - change (truthy None) with false in Hst. cbv iota in Hst.
    destruct (invariant _ _); cbn [mbind Result_bind default from_option] in Hst;
      [| discriminate].
    unfold id in Hst. inversion Hst; subst st; clear Hst.
    cbn [leftTableName rightTableName].
    split; intros x Hx; inversion Hx; subst; auto.
  - destruct (truthy (Some (fromType o))) eqn:Hf;
      [| cbn in Hst; discriminate].
    destruct (truthy (Some (toType o))) eqn:Ht;
      [| cbn in Hst; rewrite ?andb_false_r in Hst; cbn in Hst; discriminate].
    destruct (invariant _ _); cbn [mbind Result_bind default from_option] in Hst;
      [| discriminate].
    unfold id in Hst. inversion Hst; subst st; clear Hst.
    cbn [leftTableName rightTableName].
    split; intros x Hx; inversion Hx; subst; auto.
  - cbn in Hst. discriminate.
Qed.

(** The segment whose endpoints name the tables of a foreign key carries
    the signature of the pair, and is well named when the pair is. *)
Lemma normalSegment_signature (p : RelationshipSegmentPair)
    (normalType : RelationshipSegment) :
  normalSegment p = Ok normalType ->
  (forall s, pair_out p = Some s -> direction s = DirOut) ->
  exists s,
    s ∈ segmentsPresent p
    /\ pairingSignatureFromRelationshipSegment normalType
       = pairingSignatureFromRelationshipSegment s
    /\ (wellNamed s = true -> wellNamed normalType = true).
Proof.
  unfold normalSegment. intros Hnormal Hout.
  destruct p as [[i |] [o |]]; cbn [pair_in pair_out] in *.
  - destruct (isPlural _ || _); inversion Hnormal; subst normalType.
    + exists i. split; [apply segmentsPresent_elem; auto | auto].
    + exists o. split; [apply segmentsPresent_elem; auto | auto].
  - inversion Hnormal; subst normalType.
    exists i. split; [apply segmentsPresent_elem; auto | auto].
  - inversion Hnormal; subst normalType.
    exists o. split; [apply segmentsPresent_elem; auto |]. split.
    + unfold pairingSignatureFromRelationshipSegment.
      cbn [direction fromType toType label]. rewrite (Hout o eq_refl).
      reflexivity.
    + intros Ho. destruct (wellNamed_parts o Ho) as (Hf & Ht & Hl).
      unfold wellNamed. cbn [fromType toType label]. rewrite Hf, Ht, Hl.
      reflexivity.
  - discriminate.
Qed.

Lemma description_linked (relationships : list Relationship)
    (ds : list RelationshipSegmentDescription)
    (d : RelationshipSegmentDescription) (s : RelationshipSegment) :
  segmentDescriptionsFromRelationships relationships = Ok ds ->
  Forall (fun s => wellNamed s = true) (declaredSegments relationships) ->
  d ∈ ds ->
  wellNamed s = true ->
  signature d = pairingSignatureFromRelationshipSegment s ->
  segmentLinked d s.
Proof.
  intros Hds Hnames Hd Hs Hsig. rewrite Forall_forall in Hnames.
  destruct (description_pair relationships ds d Hds Hd)
    as (Hne & Hmembers & Hin & Hout & Hstorage).
  assert (forall s', s' ∈ segmentsPresent (pair d) ->
             wellNamed s' = true
             /\ pairingSignatureFromRelationshipSegment s
                = pairingSignatureFromRelationshipSegment s') as Hmember.
  { intros s' Hs'. destruct (Hmembers s' Hs') as [Hflat Hk].
    split; [apply Hnames, flattened_declared, Hflat | congruence]. }
  unfold segmentLinked.
  destruct (storage d) as [jt | fk].
  - destruct (joinTable_tables (pair d) jt Hstorage) as [Hleft Hright].
    { intros i o Hi Ho.
      destruct (Hmember i) as [Hwi Hsi]; [apply segmentsPresent_elem; auto |].
      destruct (Hmember o) as [Hwo Hso]; [apply segmentsPresent_elem; auto |].
      pose proof (pairingSignature_endpoints i o Hwi Hwo) as He.
      rewrite (Hin i Hi), (Hout o Ho) in He. apply He. congruence. }
    destruct (pair_out (pair d)) as [o |] eqn:Ho.
    + destruct (Hmember o) as [Hwo Hso]; [apply segmentsPresent_elem; auto |].
      pose proof (pairingSignature_endpoints s o Hs Hwo Hso) as He.
      rewrite (Hout o eq_refl) in He.
      destruct (Hleft o eq_refl) as [-> ->].
      destruct (direction s); cbn [Direction_eqb] in He;
        destruct He as [-> ->]; auto.
    + destruct (pair_in (pair d)) as [i |] eqn:Hi.
      2: { exfalso. apply Hne. unfold segmentsPresent. rewrite Hi, Ho.
           reflexivity. }
      destruct (Hmember i) as [Hwi Hsi]; [apply segmentsPresent_elem; auto |].
      pose proof (pairingSignature_endpoints s i Hs Hwi Hsi) as He.
      rewrite (Hin i eq_refl) in He.
      destruct (Hright i eq_refl) as [-> ->].
      destruct (direction s); cbn [Direction_eqb] in He;
        destruct He as [-> ->]; auto.
  - unfold foreignKeyDescriptionFromRelationshipSegmentPair in Hstorage.
    destruct (normalSegment (pair d)) as [normalType |] eqn:Hnormal;
      cbn [mbind Result_bind] in Hstorage; [| discriminate].
    inversion Hstorage; subst fk; clear Hstorage.
    cbn [fk_direction fk_table referencedTable].
    destruct (normalSegment_signature _ _ Hnormal Hout) as (s' & Hs' & Hk & Hw).
    destruct (Hmember s' Hs') as [Hws' Hss'].
    pose proof (pairingSignature_endpoints s normalType Hs (Hw Hws')) as He.
    destruct (Direction_eqb (direction s) (direction normalType));
      destruct He as [-> ->]; try congruence; auto.
Qed.

(** Every declared segment is linked to its description in the compiled
    map. *)
Lemma compiled_map_linked (relationships : list Relationship)
    (m : gmap string RelationshipSegmentDescription) (s : RelationshipSegment) :
  segmentDescriptionsBySignature relationships = Ok m ->
  Forall (fun s => wellNamed s = true) (declaredSegments relationships) ->
  s ∈ declaredSegments relationships ->
  exists d, descriptionFromSegment m s = Some d /\ segmentLinked d s.
Proof.
  intros Hm Hnames Hs.
  destruct (compiled_map_describes relationships m s Hm Hnames Hs)
    as (d & Hd & Hsig).
  exists d. split; [exact Hd |].
  unfold segmentDescriptionsBySignature in Hm.
  destruct (segmentDescriptionsFromRelationships relationships) as [ds |] eqn:Hds;
    cbn [mbind Result_bind] in Hm; [| discriminate].
  inversion Hm; subst m; clear Hm.
  apply (description_linked relationships ds d s Hds Hnames); [| | exact Hsig].
  - unfold descriptionFromSegment in Hd.
    apply keyMap_member in Hd. apply Hd.
  - rewrite Forall_forall in Hnames. apply Hnames, Hs.
Qed.
End Linkage.

Lemma mapM_snoc {A B : Type} (f : A -> Result B) (l : list A) (x : A) :
  mapM f (l ++ [x]) = (ys ← mapM f l; y ← f x; Ok (ys ++ [y])).
Proof.
  induction l as [| a l IH]; cbn [app mapM].
  - destruct (f x); reflexivity.
  - destruct (f a) as [b |]; cbn [mbind Result_bind]; [| reflexivity].
    rewrite IH. destruct (mapM f l) as [ys |]; cbn [mbind Result_bind];
      [| reflexivity].
    destruct (f x); reflexivity.
Qed.

Section PathChain.
Context {casing : Casing}.
Variable m : gmap string RelationshipSegmentDescription.

Lemma joinsFromSegments_cons (s : RelationshipSegment)
    (rest : list RelationshipSegment) :
  joinsFromSegments m (s :: rest)
  = (js_rest ← joinsFromSegments m rest;
     js ← joinsFromSegment m s;
     Ok (js_rest ++ js)).
Proof.
  unfold joinsFromSegments. cbn [rev]. rewrite mapM_snoc.
  destruct (mapM (joinsFromSegment m) (rev rest)) as [pushed |];
    cbn [mbind Result_bind]; [| reflexivity].
  destruct (joinsFromSegment m s) as [js |]; cbn [mbind Result_bind];
    [| reflexivity].
  rewrite concat_app. cbn [concat]. rewrite app_nil_r. reflexivity.
Qed.

Lemma joinsFromSegment_chain (s : RelationshipSegment) (js : list Join) :
  linkedIn m s ->
  joinsFromSegment m s = Ok js ->
  chained (tableNameFromTypeName (toType s)) js
  /\ chainEnd (tableNameFromTypeName (toType s)) js
     = tableNameFromTypeName (fromType s).
Proof.
  intros (d & Hd & Hlinked). unfold joinsFromSegment. rewrite Hd.
  cbn [defined mbind Result_bind]. unfold segmentLinked in Hlinked.
  destruct (storage d) as [jt | fk].
  - destruct (String.eqb_spec (tableNameFromTypeName (toType s))
                (leftTableName jt)) as [Heq | Hne];
      intros Hjs; inversion Hjs; subst js; clear Hjs;
      unfold chainEnd, mkJoin;
      cbn [chained last fmap option_fmap option_map default from_option
           join_table condition cond_left cond_right ref_tbl];
      unfold id.
    + split; [auto |].
      destruct (direction s); destruct Hlinked as [Hl Hr]; congruence.
    + split; [auto |].
      destruct (direction s); destruct Hlinked as [Hl Hr]; congruence.
  - destruct (Direction_eqb (direction s) (fk_direction fk));
      destruct Hlinked as [Ht Hr];
      intros Hjs; inversion Hjs; subst js; clear Hjs;
      unfold chainEnd, mkJoin;
      cbn [chained last fmap option_fmap option_map default from_option
           join_table condition cond_left cond_right ref_tbl];
      unfold id; auto.
Qed.

Lemma joinsFromSegments_chain (rest : list RelationshipSegment) :
  forall (s final : RelationshipSegment) (js : list Join),
    connected (s :: rest) ->
    Forall (linkedIn m) (s :: rest) ->
    last (s :: rest) = Some final ->
    joinsFromSegments m (s :: rest) = Ok js ->
    chained (tableNameFromTypeName (toType final)) js
    /\ chainEnd (tableNameFromTypeName (toType final)) js
       = tableNameFromTypeName (fromType s).
Proof.
  induction rest as [| s2 rest IH]; intros s final js Hconn Hall Hlast Hjs;
    rewrite joinsFromSegments_cons in Hjs;
    apply Forall_cons in Hall as [Hs Hall].
  - cbn in Hlast. inversion Hlast; subst final.
    change (joinsFromSegments m []) with (Ok (@nil Join)) in Hjs.
    cbn [mbind Result_bind] in Hjs.
    destruct (joinsFromSegment m s) as [js0 |] eqn:Hjs0;
      cbn [mbind Result_bind app] in Hjs; [| discriminate].
    inversion Hjs; subst js. apply joinsFromSegment_chain; assumption.
  - rewrite last_cons_cons in Hlast. destruct Hconn as [Hmeet Hconn].
    destruct (joinsFromSegments m (s2 :: rest)) as [jr |] eqn:Hjr;
      cbn [mbind Result_bind] in Hjs; [| discriminate].
    destruct (joinsFromSegment m s) as [js0 |] eqn:Hjs0;
      cbn [mbind Result_bind] in Hjs; [| discriminate].
    inversion Hjs; subst js; clear Hjs.
    destruct (IH s2 final jr Hconn Hall Hlast Hjr) as [Hchain Hend].
    destruct (joinsFromSegment_chain s js0 Hs Hjs0) as [Hchain0 Hend0].
    rewrite chained_app, chainEnd_app, Hend, <- Hmeet. auto.
Qed.

Lemma initialSegment_chain (s : RelationshipSegment) (js : list Join)
    (c : Condition) :
  linkedIn m s ->
  joinsFromInitialSegment m s = Ok js ->
  conditionFromSegment m s = Ok c ->
  chained (tableNameFromTypeName (toType s)) js
  /\ cond_table c = chainEnd (tableNameFromTypeName (toType s)) js.
Proof.
  intros (d & Hd & Hlinked).
  unfold joinsFromInitialSegment, conditionFromSegment. rewrite Hd.
  cbn [defined mbind Result_bind]. unfold segmentLinked in Hlinked.
  destruct (storage d) as [jt | fk].
  - destruct (direction s); destruct Hlinked as [Hl Hr];
      intros Hjs Hc; inversion Hjs; inversion Hc; subst js c;
      unfold chainEnd, mkJoin;
      cbn [chained last fmap option_fmap option_map default from_option
           join_table condition cond_left cond_right ref_tbl cond_table];
      unfold id; auto.
  - destruct (Direction_eqb (direction s) (fk_direction fk));
      destruct Hlinked as [Ht Hr];
      intros Hjs Hc; inversion Hjs; inversion Hc; subst js c;
      unfold chainEnd;
      cbn [chained last fmap option_fmap option_map default from_option
           cond_table];
      unfold id; auto.
Qed.

Lemma queryFromRelationship_chain (relationship : Relationship) (q : Query) :
  connected (path relationship) ->
  Forall (linkedIn m) (path relationship) ->
  queryFromRelationship m relationship = Ok q ->
  chained (query_table q) (joins q)
  /\ Forall (fun c => cond_table c = chainEnd (query_table q) (joins q))
       (conditions q).
Proof.
  unfold queryFromRelationship, joinsFromPath.
  destruct (path relationship) as [| s rest] eqn:Hpath; [discriminate |].
  intros Hconn Hall.
  destruct (last (s :: rest)) as [final |] eqn:Hlast; [| discriminate].
  cbn [defined mbind Result_bind head tail].
  destruct (joinsFromSegments m rest) as [jr |] eqn:Hjr;
    cbn [mbind Result_bind]; [| discriminate].
  destruct (joinsFromInitialSegment m s) as [ji |] eqn:Hji;
    cbn [mbind Result_bind]; [| discriminate].
  destruct (conditionFromSegment m s) as [c |] eqn:Hc;
    cbn [mbind Result_bind]; [| discriminate].
  intros Hq. inversion Hq; subst q; clear Hq.
  cbn [query_table joins conditions].
  assert (chained (tableNameFromTypeName (toType final)) jr
          /\ chainEnd (tableNameFromTypeName (toType final)) jr
             = tableNameFromTypeName (toType s)) as [Hchain Hend].
  { destruct rest as [| s2 rest].
    - cbn in Hlast. inversion Hlast; subst final.
      change (joinsFromSegments m []) with (Ok (@nil Join)) in Hjr.
      inversion Hjr; subst jr. split; [exact I | reflexivity].
    - rewrite last_cons_cons in Hlast. destruct Hconn as [Hmeet Hconn].
      apply Forall_cons in Hall as [_ Hall].
      rewrite Hmeet.
      apply (joinsFromSegments_chain rest s2 final jr Hconn Hall Hlast Hjr). }
  apply Forall_cons in Hall as [Hs _].
  destruct (initialSegment_chain s ji c Hs Hji Hc) as [Hchain0 Hcond].
  assert (chained (tableNameFromTypeName (toType final)) (jr ++ ji)) as Hfull.
  { apply chained_app. rewrite Hend. auto. }
  rewrite compactJoins_unfold.
  destruct (compactJoins_rec_chained (jr ++ ji) _ Hfull) as [Hcompact Hsame].
  split; [exact Hcompact |].
  apply Forall_cons. split; [| apply Forall_nil_2].
  rewrite Hsame, chainEnd_app, Hend. exact Hcond.
Qed.
End PathChain.

(** X18. The joins of a relationship compiled against the description map
    of its own schema form a chain from the selected table to the table of
    the condition: when the names on the paths are free of the separator
    and the segments of the path meet end to end, every join of the query
    attaches the table it joins to the table joined just before it (the
    first one to the selected table), and the condition of the WHERE clause
    is on the table joined last (on the selected table when the query has
    no join). *)
Theorem compiled_joins_form_a_chain
    (casing : Casing) (relationships : list Relationship)
    (m : gmap string RelationshipSegmentDescription)
    (relationship : Relationship) (q : Query) :
  segmentDescriptionsBySignature relationships = Ok m ->
  Forall (fun s => wellNamed s = true) (declaredSegments relationships) ->
  relationship ∈ relationships ->
  connected (path relationship) ->
  queryFromRelationship m relationship = Ok q ->
  chained (query_table q) (joins q)
  /\ Forall (fun c => cond_table c = chainEnd (query_table q) (joins q))
       (conditions q).
Proof.
  intros Hm Hnames Hr Hconn Hq.
  apply (queryFromRelationship_chain m relationship q Hconn); [| exact Hq].
  apply Forall_forall. intros s Hs.
  apply (compiled_map_linked relationships m s Hm Hnames).
  apply (declared_on_path relationships relationship s Hr Hs).
Qed.

Lemma compiled_joins_form_a_chain_witness :
  exists m q,
    @segmentDescriptionsBySignature asciiCasing [coAuthoredPosts] = Ok m
    /\ @queryFromRelationship asciiCasing m coAuthoredPosts = Ok q
    /\ chained (query_table q) (joins q)
    /\ Forall (fun c => cond_table c = chainEnd (query_table q) (joins q))
         (conditions q).
Proof.
  destruct (@segmentDescriptionsBySignature asciiCasing [coAuthoredPosts])
    as [m |] eqn:Hm; [| vm_compute in Hm; discriminate].
  destruct (@queryFromRelationship asciiCasing m coAuthoredPosts)
    as [q |] eqn:Hq.
  2: { exfalso. unfold segmentDescriptionsBySignature in Hm.
       destruct (@segmentDescriptionsFromRelationships asciiCasing
                   [coAuthoredPosts]) as [ds |] eqn:Hds;
         [| vm_compute in Hds; discriminate].
       vm_compute in Hds. inversion Hds; subst ds. cbn in Hm.
       inversion Hm; subst m. vm_compute in Hq. discriminate. }
  exists m, q. split; [reflexivity |]. split; [exact Hq |].
  apply (compiled_joins_form_a_chain asciiCasing [coAuthoredPosts] m
           coAuthoredPosts q Hm).
  - repeat (apply Forall_cons; split; [reflexivity |]). apply Forall_nil_2.
  - apply elem_of_cons. left. reflexivity.
  - cbn. repeat split.
  - exact Hq.
Defined.

(** * The queries against the schema *)

Section QueryTables.
Context {casing : Casing}.
Variable m : gmap string RelationshipSegmentDescription.

(** [known] holds of the tables that exist. *)
Variable known : string -> Prop.




End QueryTables.

Section SchemaTables.
Context {casing : Casing}.
Variable baseType : GraphQLType -> Name.



End SchemaTables.


